(** * WorkWitch: a shallow embedding of the game (game.py, assets.py, play.py, interface.py)

    Items are immutable once constructed (no method of the program assigns
    to [name] or [recipe] after [__init__]), so the game logic is modelled
    over item _values_.  The calls to [random] are modelled by an explicit
    sequence of raw draws that is consumed from the left, the calls to
    [time.time()] by an explicit clock reading (a rational number of
    seconds).  Python exceptions are results of their own.  Where the
    identity of an item object matters ([Player.pickup] copies the item
    it is given), items are cells of an object store.  The menu of
    play.py runs in an environment of keys, clock readings and draws;
    of interface.py it takes what rendering reads and what can raise,
    not the text put on the screen.  These two models come last among
    the definitions. *)

From Stdlib Require Import QArith Lqa.
From Stdlib Require OrderedTypeEx.
From stdpp Require Import base list strings gmap sorting pretty.

Open Scope string_scope.
Open Scope list_scope.
Open Scope nat_scope.

(** ** Results: a value, a Python exception, or a run that needs more draws *)

Inductive PyError : Type :=
  | IndexError
  | ValueError
  | KeyError
  | AttributeError
  | UnboundLocalError.

Inductive result (A : Type) : Type :=
  | Ok (a : A)
  | Raise (e : PyError)
  | OutOfDraws.

Arguments Ok {A} a.
Arguments Raise {A} e.
Arguments OutOfDraws {A}.

(** A computation that consumes raw draws of the random generator. *)
Definition Rand (A : Type) : Type := list nat → result (A * list nat).

Definition ret {A} (a : A) : Rand A := λ rnd, Ok (a, rnd).

Definition bind {A B} (m : Rand A) (k : A → Rand B) : Rand B :=
  λ rnd, match m rnd with
         | Ok (a, rnd') => k a rnd'
         | Raise e => Raise e
         | OutOfDraws => OutOfDraws
         end.

Definition raise {A} (e : PyError) : Rand A := λ _, Raise e.

(** Sequencing for code that draws nothing. *)
Definition result_bind {A B} (m : result A) (k : A → result B) : result B :=
  match m with
  | Ok a => k a
  | Raise e => Raise e
  | OutOfDraws => OutOfDraws
  end.

(** A result inside a computation that draws. *)
Definition lift {A} (m : result A) : Rand A :=
  λ rnd, match m with
         | Ok a => Ok (a, rnd)
         | Raise e => Raise e
         | OutOfDraws => OutOfDraws
         end.

Declare Scope rand_scope.
Delimit Scope rand_scope with rand.
Notation "'do' x <- m ; k" := (bind m (λ x, k))
  (at level 10, x name, m at level 100, k at level 200) : rand_scope.
Notation "'do' ' p <- m ; k" := (bind m (λ x, match x with p => k end))
  (at level 10, p pattern, m at level 100, k at level 200) : rand_scope.
Open Scope rand_scope.

(** ** game.py: class Item *)

#[warnings="-register-all"]
Inductive Item : Type :=
  mkItem { name : string; recipe : option (list Item) }.

(** [Item.__eq__]: names are compared. *)
Definition item_eq (a b : Item) : bool := String.eqb (name a) (name b).

(** [Item.__lt__]: names are compared. *)
Definition item_lt (a b : Item) : bool := String.ltb (name a) (name b).

(** [x in l] on a list of items: some element is [==] to [x]. *)
Definition item_in (x : Item) (l : list Item) : bool := existsb (item_eq x) l.

(** [l1 == l2] on lists of items: same length, element-wise [==]. *)
Fixpoint list_eq (l1 l2 : list Item) : bool :=
  match l1, l2 with
  | [], [] => true
  | a :: l1', b :: l2' => item_eq a b && list_eq l1' l2'
  | _, _ => false
  end.

(** [sorted(l)]: a stable sort that only uses [<].  An element is placed
    in front of the first element of the sorted rest that is not smaller. *)
Fixpoint insert_sorted (x : Item) (l : list Item) : list Item :=
  match l with
  | [] => [x]
  | y :: l' => if item_lt y x then y :: insert_sorted x l' else x :: y :: l'
  end.

Definition sorted (l : list Item) : list Item := foldr insert_sorted [] l.

(** [l.remove(x)]: drops the first element that is [==] to [x];
    [ValueError] when there is none. *)
Fixpoint list_remove (x : Item) (l : list Item) : result (list Item) :=
  match l with
  | [] => Raise ValueError
  | y :: l' =>
      if item_eq y x then Ok l'
      else result_bind (list_remove x l') (λ r, Ok (y :: r))
  end.

(** ** game.py: class RecipeBook *)

Record RecipeBook : Type := mkRecipeBook {
  chapters : list string;
  titles : list string;
  recipes : list Item
}.

(** ** assets.py *)

Definition MAP_SETUP : gmap string (gmap string string) :=
  list_to_map [
    ("Swamp", list_to_map [("E", "Forest")]);
    ("Forest", list_to_map [("W", "Swamp"); ("S", "Cauldron"); ("E", "Town")]);
    ("Cauldron", list_to_map [("N", "Forest")]);
    ("Town", list_to_map [("W", "Forest"); ("N", "Cave"); ("E", "Graveyard")]);
    ("Cave", list_to_map [("S", "Town")]);
    ("Graveyard", list_to_map [("W", "Town")]) ].

(** Dictionaries that the program iterates over keep their insertion
    order, so they are association lists. *)
Definition CHAPTER_TITLES : list (string * string) :=
  [("0", "Wounds"); ("1", "Ailments"); ("2", "Curses"); ("3", "Hauntings")].

Definition ITEMS_BY_INGREDIENTS : list (string * list string) :=
  [("FOUND", ["Purple Mushroom"; "Forget-Me-Not"; "Firefly"; "Mandrake Root";
              "Green Mushroom"; "Spring Water"; "Red Mushroom"; "Glow Worm"; "Skull"]);
   ("BASIC", ["Goodberry"; "Antidote"; "Evil Eye"]);
   ("INTERMEDIATE", ["Health Potion"; "Awakening"; "Amulet"]);
   ("ADVANCED", ["Banishing Sigil"; "Substitute Doll"])].

(** [d[k]] on a dictionary kept as an association list. *)
Definition tier_names (tbl : list (string * list string)) (level : string)
  : option (list string) :=
  (λ p, snd (snd p)) <$> list_find (λ kv, fst kv = level) tbl.

(** ** The module random *)

(** The element a raw draw [r] selects in a sequence. *)
Definition choice_at {A} (r : nat) (l : list A) : option A :=
  l !! (r mod length l).

(** [random.choice(l)]: [IndexError] on an empty sequence. *)
Definition choice {A} (l : list A) : Rand A :=
  λ rnd, match l with
         | [] => Raise IndexError
         | _ => match rnd with
                | [] => OutOfDraws
                | r :: rnd' =>
                    match choice_at r l with
                    | Some x => Ok (x, rnd')
                    | None => Raise IndexError
                    end
                end
         end.

(** [random.choice(l)] when the chosen object is updated in place
    afterwards: the position of the object in [l] is returned. *)
Definition choice_ix {A} (l : list A) : Rand nat :=
  λ rnd, match l with
         | [] => Raise IndexError
         | _ => match rnd with
                | [] => OutOfDraws
                | r :: rnd' => Ok (r mod length l, rnd')
                end
         end.

(** [random.randint(a, b)]: an integer of [a..b], both ends included. *)
Definition randint (a b : Z) : Rand Z :=
  λ rnd, match rnd with
         | [] => OutOfDraws
         | r :: rnd' => Ok ((a + Z.of_nat r `mod` (b - a + 1))%Z, rnd')
         end.

(** [random.randrange(start, stop, step)] for a positive step. *)
Definition randrange (start stop step : Z) : Rand Z :=
  λ rnd, match rnd with
         | [] => OutOfDraws
         | r :: rnd' =>
             let n := ((stop - start + step - 1) `div` step)%Z in
             Ok ((start + step * (Z.of_nat r `mod` n))%Z, rnd')
         end.

(** ** game.py: Player.mix *)

Fixpoint mix_loop (rs : list Item) (ingredients : list Item) : option Item :=
  match rs with
  | [] => None
  | item :: rest =>
      match recipe item with
      | None => mix_loop rest ingredients
      | Some r =>
          if list_eq (sorted ingredients) (sorted r) then Some item
          else mix_loop rest ingredients
      end
  end.

Definition mix (recipebook : RecipeBook) (ingredients : list Item) : option Item :=
  mix_loop (recipes recipebook) ingredients.

(** ** game.py: Game.create_book *)

(** [while draw in used: draw = random.choice(recipes)] *)
Fixpoint redraw (rs used : list Item) (draw : Item) (rnd : list nat)
  : result (Item * list nat) :=
  if item_in draw used then
    match rnd with
    | [] => OutOfDraws
    | r :: rnd' =>
        match choice_at r rs with
        | Some d => redraw rs used d rnd'
        | None => Raise IndexError
        end
    end
  else Ok (draw, rnd).

(** The body of [for i in range(2)]: one ingredient is drawn and recorded,
    [n] times. *)
Fixpoint draw_ingredients (n : nat) (rs ingredients used : list Item)
  : Rand (list Item * list Item) :=
  match n with
  | O => ret (ingredients, used)
  | S n' =>
      do d0 <- choice rs;
      do d <- redraw rs used d0;
      draw_ingredients n' rs (ingredients ++ [d]) (used ++ [d])
  end.

(** [for name in item]: every name of a crafted level gets two ingredients. *)
Fixpoint craft_level (names : list string) (rs used : list Item)
  : Rand (list Item * list Item) :=
  match names with
  | [] => ret (rs, used)
  | n :: names' =>
      do '(ingredients, used') <- draw_ingredients 2 rs [] used;
      craft_level names' (rs ++ [mkItem n (Some ingredients)]) used'
  end.

(** [for level, item in assets.ITEMS_BY_INGREDIENTS.items()] *)
Fixpoint fill_book (tbl : list (string * list string)) (rs used : list Item)
  : Rand (list Item * list Item) :=
  match tbl with
  | [] => ret (rs, used)
  | (level, names) :: tbl' =>
      if String.eqb level "FOUND" then
        fill_book tbl' (rs ++ map (λ n, mkItem n None) names) used
      else
        do '(rs', used') <- craft_level names rs used;
        fill_book tbl' rs' used'
  end.

Definition create_book (tbl : list (string * list string)) : Rand RecipeBook :=
  do '(rs, _) <- fill_book tbl [] [];
  ret (mkRecipeBook (map fst CHAPTER_TITLES) (map snd CHAPTER_TITLES) rs).

Definition names_of (l : list Item) : list string := map name l.

(** The position of the first level of the table that lists a name. *)
Fixpoint tier_of (tbl : list (string * list string)) (n : string) : option nat :=
  match tbl with
  | [] => None
  | (_, names) :: tbl' =>
      if bool_decide (n ∈ names) then Some 0 else S <$> tier_of tbl' n
  end.

(** Whether a name is listed under the key FOUND. *)
Definition is_found (tbl : list (string * list string)) (n : string) : bool :=
  existsb (λ kv, String.eqb (fst kv) "FOUND" && bool_decide (n ∈ snd kv)) tbl.

(** Whether a name is listed under another key than FOUND. *)
Definition is_crafted (tbl : list (string * list string)) (n : string) : bool :=
  existsb (λ kv, negb (String.eqb (fst kv) "FOUND") && bool_decide (n ∈ snd kv)) tbl.

Definition all_names (tbl : list (string * list string)) : list string :=
  concat (map snd tbl).

(** The ingredients an item refers to. *)
Definition ingredients_of (it : Item) : list Item := default [] (recipe it).

(** ** game.py: classes Location, Customer, Player, Game *)

Record Location : Type := mkLocation {
  loc_name : string;
  items : option (list Item);
  neighbors : option (gmap string string)
}.

(** [Location.__init__]: items and neighbors start as [None]. *)
Definition new_location (n : string) : Location := mkLocation n None None.

Definition Cauldron : Location := new_location "Cauldron".
Definition Graveyard : Location := new_location "Graveyard".
Definition Swamp : Location := new_location "Swamp".
Definition Forest : Location := new_location "Forest".
Definition Cave : Location := new_location "Cave".
Definition Town : Location := new_location "Town".

Record Customer : Type := mkCustomer {
  cust_name : nat;
  order : Item;
  points : Z;
  waittime : Z;
  maketime : Q
}.

Record Player : Type := mkPlayer {
  location : Location;
  inventory : list Item;
  score : Z;
  completed : list Item
}.

(** The attributes of [Game] once [setup] has run. *)
Record Game : Type := mkGame {
  player : Player;
  locations : list Location;
  book : RecipeBook;
  customers : list Customer
}.

Definition set_player (g : Game) (p : Player) : Game :=
  mkGame p (locations g) (book g) (customers g).

Definition set_customers (g : Game) (cs : list Customer) : Game :=
  mkGame (player g) (locations g) (book g) cs.

(** [Customer.give_points] *)
Definition give_points (c : Customer) : Z := points c.

(** [Customer.time_remaining], with [now] the value of [time.time()]. *)
Definition time_remaining (c : Customer) (now : Q) : Q :=
  (inject_Z (waittime c) - (now - maketime c))%Q.

(** The test of [Menu.refresh_logic]: [customer.time_remaining() <= 0]. *)
Definition is_expired (c : Customer) (now : Q) : bool :=
  Qle_bool (time_remaining c now) 0.

(** [Game.get_location]: the last location of that name is popped off the
    list comprehension; [IndexError] when the comprehension is empty. *)
Definition get_location (locs : list Location) (next_loc : string)
  : result Location :=
  match last (filter (λ l, loc_name l = next_loc) locs) with
  | Some l => Ok l
  | None => Raise IndexError
  end.

(** [Game.get_item] *)
Definition get_item (b : RecipeBook) (item_name : string) : result Item :=
  match last (filter (λ i, name i = item_name) (recipes b)) with
  | Some i => Ok i
  | None => Raise IndexError
  end.

(** [self.location = l] on the player of the game. *)
Definition relocate (g : Game) (l : Location) : Game :=
  set_player g (mkPlayer l (inventory (player g)) (score (player g))
                  (completed (player g))).

(** [Player.move] *)
Definition move (g : Game) (direction : string) : result Game :=
  match neighbors (location (player g)) with
  | None => Raise AttributeError
  | Some nb =>
      match nb !! direction with
      | Some next_loc =>
          result_bind (get_location (locations g) next_loc) (λ l,
            Ok (relocate g l))
      | None => Ok g
      end
  end.

(** [[item for item in self.book.recipes if item.recipe is not None]] *)
Definition possible_orders (b : RecipeBook) : list Item :=
  filter (λ it, is_Some (recipe it)) (recipes b).

(** The [if]/[elif] chain of [create_customers] and [update_customer]:
    points and wait time by the tier the order is listed in.  When no
    branch is taken the two variables keep what they held ([prev]), or
    are unbound. *)
Definition price_order (tbl : list (string * list string)) (o : Item)
    (prev : option (Z * Z)) : Rand (Z * Z) :=
  match tier_names tbl "BASIC" with
  | None => raise KeyError
  | Some basic =>
      if bool_decide (name o ∈ basic) then
        do p <- randint 5 10; do w <- randrange 45 75 5; ret (p, w)
      else
        match tier_names tbl "INTERMEDIATE" with
        | None => raise KeyError
        | Some intermediate =>
            if bool_decide (name o ∈ intermediate) then
              do p <- randint 10 30; do w <- randrange 60 120 5; ret (p, w)
            else
              match tier_names tbl "ADVANCED" with
              | None => raise KeyError
              | Some advanced =>
                  if bool_decide (name o ∈ advanced) then
                    do p <- randint 30 75; do w <- randrange 120 180 10; ret (p, w)
                  else
                    match prev with
                    | Some pw => ret pw
                    | None => raise UnboundLocalError
                    end
              end
        end
  end.

(** [Game.create_customers]: the loop over [range(number)]; [clock i] is
    what [time.time()] returns in iteration [i]. *)
Fixpoint create_customers_loop (tbl : list (string * list string))
    (b : RecipeBook) (clock : nat → Q) (ixs : list nat)
    (prev : option (Z * Z)) (cs : list Customer) : Rand (list Customer) :=
  match ixs with
  | [] => ret cs
  | i :: ixs' =>
      do o <- choice (possible_orders b);
      do pw <- price_order tbl o prev;
      create_customers_loop tbl b clock ixs' (Some pw)
        (cs ++ [mkCustomer i o (fst pw) (snd pw) (clock i)])
  end.

Definition create_customers (tbl : list (string * list string))
    (b : RecipeBook) (clock : nat → Q) (cs : list Customer) (number : nat)
  : Rand (list Customer) :=
  create_customers_loop tbl b clock (seq 0 number) None cs.

(** [Game.update_customer], with [now] the value of [time.time()].
    Assigning to a list position that does not exist is an [IndexError]. *)
Definition update_customer (tbl : list (string * list string)) (g : Game)
    (customer : Customer) (now : Q) : Rand Game :=
  let nm := cust_name customer in
  do o <- choice (possible_orders (book g));
  do pw <- price_order tbl o None;
  if bool_decide (nm < length (customers g)) then
    ret (set_customers g
           (<[nm := mkCustomer nm o (fst pw) (snd pw) now]> (customers g)))
  else raise IndexError.

(** The body of the loop of [Menu.refresh_logic] over the customers, at
    position [k]: a customer whose time has run out is replaced.
    [now] is the clock reading of the test, [now'] the one of the
    replacement. *)
Definition check_customer (tbl : list (string * list string)) (g : Game)
    (k : nat) (now now' : Q) : Rand Game :=
  match customers g !! k with
  | None => ret g
  | Some customer =>
      if is_expired customer now then update_customer tbl g customer now'
      else ret g
  end.

(** [for customer in self.game.customers]: the positions are visited in
    order, each reading the list as it is by then. *)
Fixpoint check_customers (tbl : list (string * list string)) (g : Game)
    (ks : list nat) (clock clock' : nat → Q) : Rand Game :=
  match ks with
  | [] => ret g
  | k :: ks' =>
      do g' <- check_customer tbl g k (clock k) (clock' k);
      check_customers tbl g' ks' clock clock'
  end.

(** [Player.deliver_order]; the player is the player of the game. *)
Definition deliver_order (tbl : list (string * list string)) (g : Game)
    (item : Item) (customer : Customer) (now : Q) : Rand Game :=
  do inv <- lift (list_remove item (inventory (player g)));
  let sc := if item_eq item (order customer)
            then (score (player g) + give_points customer)%Z
            else score (player g) in
  update_customer tbl
    (set_player g (mkPlayer (location (player g)) inv sc (completed (player g))))
    customer now.

(** ** game.py: Game.create_map *)

(** [for i in range(items_per_loc)]: an item is chosen, taken out of
    [found_items] and appended to the items of the location. *)
Fixpoint stock_location (n : nat) (found_items its : list Item)
  : Rand (list Item * list Item) :=
  match n with
  | O => ret (found_items, its)
  | S n' =>
      do selected_item <- choice found_items;
      do found' <- lift (list_remove selected_item found_items);
      stock_location n' found' (its ++ [selected_item])
  end.

(** [for loc in self.locations] *)
Fixpoint stock_locations (locs : list Location) (items_per_loc : nat)
    (found_items : list Item) : Rand (list Location * list Item) :=
  match locs with
  | [] => ret ([], found_items)
  | loc :: locs' =>
      match MAP_SETUP !! loc_name loc with
      | None => raise KeyError
      | Some nb =>
          if String.eqb (loc_name loc) "Cauldron" then
            do '(rest, found') <- stock_locations locs' items_per_loc found_items;
            ret (mkLocation (loc_name loc) (items loc) (Some nb) :: rest, found')
          else
            do '(found1, its) <- stock_location items_per_loc found_items [];
            do '(rest, found') <- stock_locations locs' items_per_loc found1;
            ret (mkLocation (loc_name loc) (Some its) (Some nb) :: rest, found')
      end
  end.

(** [while selected_loc.name == "Cauldron": selected_loc = random.choice(...)] *)
Fixpoint reselect (locs : list Location) (sel : nat) (rnd : list nat)
  : result (nat * list nat) :=
  match locs !! sel with
  | None => Raise IndexError
  | Some l =>
      if String.eqb (loc_name l) "Cauldron" then
        match rnd with
        | [] => OutOfDraws
        | r :: rnd' => reselect locs (r mod length locs) rnd'
        end
      else Ok (sel, rnd)
  end.

(** [selected_loc.items.append(selected_item)] *)
Definition append_item (locs : list Location) (i : nat) (x : Item)
  : result (list Location) :=
  match locs !! i with
  | None => Raise IndexError
  | Some l =>
      match items l with
      | None => Raise AttributeError
      | Some its =>
          Ok (<[i := mkLocation (loc_name l) (Some (its ++ [x])) (neighbors l)]> locs)
      end
  end.

(** [for i in range(leftover_items)] *)
Fixpoint distribute_leftover (n : nat) (locs : list Location)
    (found_items : list Item) : Rand (list Location * list Item) :=
  match n with
  | O => ret (locs, found_items)
  | S n' =>
      do i0 <- choice_ix locs;
      do i <- reselect locs i0;
      do selected_item <- choice found_items;
      do locs' <- lift (append_item locs i selected_item);
      do found' <- lift (list_remove selected_item found_items);
      distribute_leftover n' locs' found'
  end.

(** [[x for x in self.book.recipes if x.recipe is None]] *)
Definition found_items_of (b : RecipeBook) : list Item :=
  filter (λ x, recipe x = None) (recipes b).

Definition create_map (b : RecipeBook) : Rand (list Location) :=
  let locs := [Cauldron; Swamp; Forest; Town; Cave; Graveyard] in
  let found_items := found_items_of b in
  let items_per_loc := length found_items / (length locs - 1) in
  let leftover_items := length found_items mod (length locs - 1) in
  do '(locs1, found1) <- stock_locations locs items_per_loc found_items;
  do '(locs2, _) <- distribute_leftover leftover_items locs1 found1;
  ret locs2.

(** [Game.create_player] *)
Definition create_player (locs : list Location) : result Player :=
  result_bind (get_location locs "Cauldron") (λ l, Ok (mkPlayer l [] 0%Z [])).

(** [Game.setup] *)
Definition setup (tbl : list (string * list string)) (clock : nat → Q)
  : Rand Game :=
  do b <- create_book tbl;
  do locs <- create_map b;
  do p <- lift (create_player locs);
  do cs <- create_customers tbl b clock [] 4;
  ret (mkGame p locs b cs).

(** The items placed at a location. *)
Definition items_at (l : Location) : list Item := default [] (items l).

(** How [create_map] leaves a location it has been given: name and
    neighbors as set, the Cauldron without items, the items of another
    location only growing. *)
Definition loc_grows (l l' : Location) : Prop :=
  loc_name l' = loc_name l ∧ neighbors l' = neighbors l ∧
  (loc_name l = "Cauldron" → items l' = items l) ∧
  (∀ its, items l = Some its →
          ∃ its', items l' = Some its' ∧ length its ≤ length its').

(** What the first loop of [create_map] makes of a fresh location. *)
Definition loc_stocked (per : nat) (l l' : Location) : Prop :=
  loc_name l' = loc_name l ∧ neighbors l' = MAP_SETUP !! loc_name l ∧
  if String.eqb (loc_name l) "Cauldron" then items l' = items l
  else ∃ its, items l' = Some its ∧ length its = per.

(** What [create_map] returns for the location named [n]: the neighbors
    of the table, no items at the Cauldron, at least [per] items elsewhere. *)
Definition loc_final (per : nat) (n : string) (l : Location) : Prop :=
  loc_name l = n ∧ neighbors l = MAP_SETUP !! n ∧
  if String.eqb n "Cauldron" then items l = None
  else ∃ its, items l = Some its ∧ per ≤ length its.

Definition location_names : list string :=
  ["Cauldron"; "Swamp"; "Forest"; "Town"; "Cave"; "Graveyard"].

(** Whether one of the three branches of the chain of [price_order]
    is taken for an order. *)
Definition priced (tbl : list (string * list string)) (o : Item) : bool :=
  match tier_names tbl "BASIC" with
  | None => false
  | Some basic =>
      bool_decide (name o ∈ basic) ||
      match tier_names tbl "INTERMEDIATE" with
      | None => false
      | Some intermediate =>
          bool_decide (name o ∈ intermediate) ||
          match tier_names tbl "ADVANCED" with
          | None => false
          | Some advanced => bool_decide (name o ∈ advanced)
          end
      end
  end.

(** ** Invariants of the generation
    (stated here, proved below) *)

(** What holds of [recipes] and [used] at every point of [create_book]:
    [used] lists the ingredients of all recipes in the order they were
    drawn, no name was drawn twice, and every recipe has two ingredients
    that were in the book before the item was appended. *)
Record book_inv (rs used : list Item) : Prop := {
  inv_used : used = rs ≫= ingredients_of;
  inv_nodup : NoDup (names_of used);
  inv_earlier : ∀ i it r, rs !! i = Some it → recipe it = Some r →
                length r = 2 ∧ ∀ x, x ∈ r → x ∈ take i rs
}.

(** The tier of [x] is not later than (is earlier than) the tier of [it]. *)
Definition tier_le (tbl : list (string * list string)) (x it : Item) : Prop :=
  ∃ kx ki, tier_of tbl (name x) = Some kx ∧ tier_of tbl (name it) = Some ki ∧ kx ≤ ki.

Definition tier_lt (tbl : list (string * list string)) (x it : Item) : Prop :=
  ∃ kx ki, tier_of tbl (name x) = Some kx ∧ tier_of tbl (name it) = Some ki ∧ kx < ki.

(** What [fill_book] keeps true of the book while the levels [done] of
    the table [full] have been processed. *)
Record tier_inv (full done : list (string * list string)) (rs : list Item) : Prop := {
  ti_names : ∀ it, it ∈ rs → name it ∈ all_names done;
  ti_found : ∀ it, it ∈ rs → recipe it = None → is_found done (name it) = true;
  ti_crafted : ∀ it, it ∈ rs → is_Some (recipe it) →
               is_crafted done (name it) = true;
  ti_le : ∀ it r x, it ∈ rs → recipe it = Some r → x ∈ r → tier_le full x it
}.


(** ** Statements about a generated book *)

(** Every crafted item has two ingredients, each of a strictly earlier tier. *)
Definition strictly_tiered (tbl : list (string * list string)) (book : RecipeBook)
  : Prop :=
  ∀ it, it ∈ recipes book → is_found tbl (name it) = false →
    ∃ a b, recipe it = Some [a; b] ∧ tier_lt tbl a it ∧ tier_lt tbl b it.

(** Every crafted item has two ingredients, each placed in the book before
    the item, hence of the item's own tier or an earlier one. *)
Definition tiered (tbl : list (string * list string)) (book : RecipeBook) : Prop :=
  ∀ i it, recipes book !! i = Some it → is_found tbl (name it) = false →
    ∃ a b, recipe it = Some [a; b] ∧
           a ∈ take i (recipes book) ∧ b ∈ take i (recipes book) ∧
           tier_le tbl a it ∧ tier_le tbl b it.

(** One run of the generator on the table of assets.py.  The nine found
    items take the positions 0 to 8 of the book; Goodberry draws the
    positions 0 and 1 and takes position 9; Antidote then draws position
    9 of the ten items, which is Goodberry, and position 2. *)
Definition demo_draws : list nat :=
  [0; 1; 9; 2; 3; 4; 5; 6; 7; 8; 10; 11; 12; 13; 14; 15].

Definition demo_book : RecipeBook :=
  Eval vm_compute in
    match create_book ITEMS_BY_INGREDIENTS demo_draws with
    | Ok (book, _) => book
    | _ => mkRecipeBook [] [] []
    end.

(** The tier lists of the scenario: four found items, one basic item. *)
Definition scenario_tiers : list (string * list string) :=
  [("FOUND", ["A"; "B"; "C"; "D"]); ("BASIC", ["E"])].

Definition scenario_found : list Item :=
  [mkItem "A" None; mkItem "B" None; mkItem "C" None; mkItem "D" None].

(** The book the draws 2, 6, 4 generate from the scenario: the second
    draw selects C again and is repeated. *)
Definition scenario_book : RecipeBook :=
  mkRecipeBook (map fst CHAPTER_TITLES) (map snd CHAPTER_TITLES)
    (scenario_found ++ [mkItem "E" (Some [mkItem "C" None; mkItem "A" None])]).

(** ** The order [sorted] puts names in *)

(** [a] may stand before [b] in a sorted list: [b < a] is false. *)
Definition name_le (a b : string) : Prop := String.ltb b a = false.

Definition demo_clock (i : nat) : Q := inject_Z (1000 + Z.of_nat i).

Definition demo_game : Game :=
  Eval vm_compute in
    match setup ITEMS_BY_INGREDIENTS demo_clock
            (demo_draws ++ [0; 1; 2; 3; 4; 5; 6; 7; 8; 9; 10; 11; 12; 13; 14; 15;
                            16; 17; 18; 19; 20; 21; 22; 23; 24; 25; 26]) with
    | Ok (g, _) => g
    | _ => mkGame (mkPlayer Cauldron [] 0%Z []) [] (mkRecipeBook [] [] []) []
    end.

(** The demo game with the player at the Swamp. *)
Definition demo_at_swamp : Game :=
  Eval vm_compute in
    match get_location (locations demo_game) "Swamp" with
    | Ok l => relocate demo_game l
    | _ => demo_game
    end.

Definition demo_goodberry : Item :=
  mkItem "Goodberry"
    (Some [mkItem "Purple Mushroom" None; mkItem "Forget-Me-Not" None]).

(** The demo game with two items in the inventory and a score of 7. *)
Definition demo_shop : Game :=
  set_player demo_game
    (mkPlayer (location (player demo_game))
       [mkItem "Firefly" None; demo_goodberry] 7%Z []).

(** The customer of slot 1 of the demo game, who ordered a Goodberry. *)
Definition demo_customer : Customer :=
  mkCustomer 1 demo_goodberry 10%Z 45%Z (demo_clock 1).

(** ** Items as objects

    [Player.pickup] copies an item with [copy.deepcopy] so that the
    inventory does not share the object with the location.  To state
    that, items are cells of a store here: an object is known by its
    position in the store, a recipe lists positions, and a new object is
    appended.  The lists of the game hold positions. *)

Record ItemObj : Type := mkItemObj {
  obj_name : string;
  obj_recipe : option (list nat)
}.

(** The state [pickup] and [trash] work on: the objects, [book.recipes],
    the items list of every location, and the inventory of the player. *)
Record World : Type := mkWorld {
  w_store : list ItemObj;
  w_recipes : list nat;
  w_locations : list (string * option (list nat));
  w_inventory : list nat
}.

(** The copies of a list of objects, one after the other. *)
Fixpoint deepcopy_list
    (rec : list ItemObj → gmap nat nat → nat →
           option (list ItemObj * gmap nat nat * nat))
    (xs : list nat) (st : list ItemObj) (memo : gmap nat nat)
  : option (list ItemObj * gmap nat nat * list nat) :=
  match xs with
  | [] => Some (st, memo, [])
  | x :: xs' =>
      match rec st memo x with
      | Some (st1, memo1, y) =>
          match deepcopy_list rec xs' st1 memo1 with
          | Some (st2, memo2, ys) => Some (st2, memo2, y :: ys)
          | None => None
          end
      | None => None
      end
  end.

(** [copy.deepcopy(x, memo)] on items: an object that was copied before
    is answered from [memo]; otherwise the copy is a new object with the
    same name whose recipe lists the copies of the ingredients.  (Python
    creates the new object before it copies the ingredients; the objects
    are the same, in another order of creation.)  [fuel] bounds the depth
    of the recursion. *)
Fixpoint deepcopy (fuel : nat) (st : list ItemObj) (memo : gmap nat nat)
    (x : nat) : option (list ItemObj * gmap nat nat * nat) :=
  match fuel with
  | O => None
  | S fuel' =>
      match memo !! x with
      | Some y => Some (st, memo, y)
      | None =>
          match st !! x with
          | None => None
          | Some o =>
              match obj_recipe o with
              | None =>
                  Some (st ++ [mkItemObj (obj_name o) None],
                        <[x := length st]> memo, length st)
              | Some rs =>
                  match deepcopy_list (deepcopy fuel') rs st memo with
                  | Some (st', memo', ys) =>
                      Some (st' ++ [mkItemObj (obj_name o) (Some ys)],
                            <[x := length st']> memo', length st')
                  | None => None
                  end
              end
          end
      end
  end.

(** [Player.pickup]: [self.inventory.append(copy.deepcopy(item))] *)
Definition pickup (fuel : nat) (w : World) (item : nat) : option World :=
  match deepcopy fuel (w_store w) ∅ item with
  | Some (st', _, y) =>
      Some (mkWorld st' (w_recipes w) (w_locations w) (w_inventory w ++ [y]))
  | None => None
  end.

(** [e == x] as [list.remove] tests it: the same object, or [Item.__eq__]. *)
Definition obj_eq (st : list ItemObj) (e x : nat) : bool :=
  bool_decide (e = x) ||
  match st !! e, st !! x with
  | Some oe, Some ox => String.eqb (obj_name oe) (obj_name ox)
  | _, _ => false
  end.

Fixpoint remove_ref (st : list ItemObj) (x : nat) (l : list nat)
  : result (list nat) :=
  match l with
  | [] => Raise ValueError
  | e :: l' =>
      if obj_eq st e x then Ok l'
      else result_bind (remove_ref st x l') (λ r, Ok (e :: r))
  end.

(** [Player.trash]: [self.inventory.remove(item)] *)
Definition trash (w : World) (item : nat) : result World :=
  result_bind (remove_ref (w_store w) item (w_inventory w)) (λ inv,
    Ok (mkWorld (w_store w) (w_recipes w) (w_locations w) inv)).

(** The item value an object stands for. *)
Fixpoint item_at (fuel : nat) (st : list ItemObj) (a : nat) : option Item :=
  match fuel with
  | O => None
  | S fuel' =>
      match st !! a with
      | None => None
      | Some o =>
          match obj_recipe o with
          | None => Some (mkItem (obj_name o) None)
          | Some rs =>
              match mapM (item_at fuel' st) rs with
              | Some l => Some (mkItem (obj_name o) (Some l))
              | None => None
              end
          end
      end
  end.

(** [y] in [st] is a copy of [x] in [st0] that shares no object with
    [st0]: a new object of the same name whose ingredients are such
    copies of the ingredients of [x]. *)
Fixpoint copy_of (fuel : nat) (st0 st : list ItemObj) (x y : nat) : Prop :=
  match fuel with
  | O => False
  | S fuel' =>
      ∃ o o', st0 !! x = Some o ∧ st !! y = Some o' ∧ length st0 ≤ y ∧
              obj_name o' = obj_name o ∧
              match obj_recipe o, obj_recipe o' with
              | None, None => True
              | Some rs, Some ys => Forall2 (copy_of fuel' st0 st) rs ys
              | _, _ => False
              end
  end.

(** Every recipe of the store refers to objects created earlier, as in
    the store [create_book] builds. *)
Definition wf_store (st : list ItemObj) : bool :=
  forallb (λ ao, forallb (λ r, r <? fst ao) (default [] (obj_recipe (snd ao))))
    (imap pair st).

(** The demo book as objects, two locations and an empty inventory. *)
Definition demo_world : World :=
  mkWorld
    [mkItemObj "Purple Mushroom" None; mkItemObj "Forget-Me-Not" None;
     mkItemObj "Goodberry" (Some [0; 1])]
    [0; 1; 2]
    [("Cauldron", None); ("Swamp", Some [0; 1])]
    [].

(** Every object [memo] knows is a finished copy. *)
Definition memo_ok (st0 st : list ItemObj) (memo : gmap nat nat) : Prop :=
  ∀ a b, memo !! a = Some b → copy_of (S a) st0 st a b.

(** ** Further definitions *)

(** The Antidote of the demo book. *)
Definition demo_antidote : Item :=
  mkItem "Antidote" (Some [demo_goodberry; mkItem "Firefly" None]).

(** The names the table lists under other keys than FOUND, in order. *)
Definition crafted_names (tbl : list (string * list string)) : list string :=
  tbl ≫= λ kv, if String.eqb (fst kv) "FOUND" then [] else snd kv.

(** Every location but the Cauldron has an items list. *)
Definition stocked (locs : list Location) : Prop :=
  Forall (λ l, loc_name l ≠ "Cauldron" → is_Some (items l)) locs.

(** Every customer is named after the position it stands at. *)
Definition slots_named (cs : list Customer) : Prop :=
  ∀ k c, cs !! k = Some c → cust_name c = k.

(** The demo shop after the customer of slot 1 has been replaced, on the
    draws 3, 2, 1 and at the clock reading 1100. *)
Definition demo_shop_next : Game :=
  Eval vm_compute in
    match update_customer ITEMS_BY_INGREDIENTS demo_shop demo_customer
            (inject_Z 1100) [3; 2; 1] with
    | Ok (g, _) => g
    | _ => demo_shop
    end.

(** The demo game after one pass over the customers at the reading 1050,
    when only the customer of slot 1 has run out of time. *)
Definition demo_refreshed : Game :=
  Eval vm_compute in
    match check_customers ITEMS_BY_INGREDIENTS demo_game (seq 0 4)
            (λ _, inject_Z 1050) (λ _, inject_Z 1051) [4; 7; 2] with
    | Ok (g, _) => g
    | _ => demo_game
    end.

(** [N] and [S], [E] and [W] are opposite; other keys have no opposite. *)
Definition opposite (direction : string) : string :=
  if String.eqb direction "N" then "S"
  else if String.eqb direction "S" then "N"
  else if String.eqb direction "E" then "W"
  else if String.eqb direction "W" then "E"
  else direction.

(** ** assets.py: what the menu reads *)

Definition RECIPES_BY_CHAPTER : gmap string (list string) :=
  list_to_map [
    ("0", ["Health Potion"; "Goodberry"]);
    ("1", ["Antidote"; "Awakening"]);
    ("2", ["Evil Eye"; "Amulet"]);
    ("3", ["Banishing Sigil"; "Substitute Doll"]) ].

Definition LOCATION_FLAVOR : gmap string (list string) :=
  list_to_map [
    ("Swamp", ["Ew what's that smell?"; "I'm sinking into the bog!";
               "This spooky Swamp sure is muddy!"; "Gross...let's be quick!"]);
    ("Forest", ["It's quiet here. Too quiet. Spooky quiet.";
                "These birds keep looking at me."; "Wait, those aren't birds!"]);
    ("Cauldron", ["Home sweet home."; "Oops, I left the Cauldron on.";
                  "Another day, another dollar."; "Ugh, who is it now?"]);
    ("Town", ["I don't think these people like me."; "Where is everybody?";
              "'Everyone run; it's the witch!' Real original."]);
    ("Cave", ["It's too dark in here."; "What was that noise?!";
              "Whoops! Slipped on a rock!"]);
    ("Graveyard", ["I think I heard a ghost calling my name!";
                   "Whoops! Tripped over something. Don't look down.";
                   "RIP everyone, I'll only be a minute, 'scuse me."]) ].

(** [d[k]] on a dictionary kept as an association list. *)
Definition assoc {A} (d : list (string * A)) (k : string) : option A :=
  (λ p, snd (snd p)) <$> list_find (λ kv, fst kv = k) d.

(** ** play.py: the menu and what surrounds it

    The menu reads keys with [screen.getch()], the clock with
    [time.time()] and draws from [random]; the three are sequences that
    are consumed from the left.  What is written to the screen is not part
    of the state, and the calls of curses are taken to succeed.  Besides
    the exceptions of the game core a run can end in a [TypeError] or in
    the [SystemExit] of [quit()]. *)

Inductive Exn : Type :=
  | Py (e : PyError)
  | TypeError
  | SystemExit.

Record Env : Type := mkEnv {
  keys : list Z;
  ticks : list Q;
  draws : list nat
}.

(** A run returns, ends in an exception, or needs more of the
    environment than there is. *)
Inductive outcome (A : Type) : Type :=
  | Done (a : A)
  | Raised (e : Exn)
  | Starved.

Arguments Done {A} a.
Arguments Raised {A} e.
Arguments Starved {A}.

Definition Play (A : Type) : Type := Env → outcome (A * Env).

Definition pret {A} (a : A) : Play A := λ env, Done (a, env).

Definition pbind {A B} (m : Play A) (k : A → Play B) : Play B :=
  λ env, match m env with
         | Done (a, env') => k a env'
         | Raised e => Raised e
         | Starved => Starved
         end.

Definition throw {A} (e : Exn) : Play A := λ _, Raised e.

Definition starved {A} : Play A := λ _, Starved.

Declare Scope play_scope.
Delimit Scope play_scope with play.
Notation "'let*' x := m 'in' k" := (pbind m (λ x, k))
  (at level 10, x name, m at level 100, k at level 200) : play_scope.
Notation "'let*' ' p := m 'in' k" := (pbind m (λ x, match x with p => k end))
  (at level 10, p pattern, m at level 100, k at level 200) : play_scope.
Open Scope play_scope.

(** [self.screen.getch()] *)
Definition getch : Play Z :=
  λ env, match keys env with
         | [] => Starved
         | k :: ks => Done (k, mkEnv ks (ticks env) (draws env))
         end.

(** [time.time()] *)
Definition time_time : Play Q :=
  λ env, match ticks env with
         | [] => Starved
         | t :: ts => Done (t, mkEnv (keys env) ts (draws env))
         end.

(** A computation of the game core that draws. *)
Definition random {A} (m : Rand A) : Play A :=
  λ env, match m (draws env) with
         | Ok (a, rnd) => Done (a, mkEnv (keys env) (ticks env) rnd)
         | Raise e => Raised (Py e)
         | OutOfDraws => Starved
         end.

(** A computation of the game core that does not draw. *)
Definition from_result {A} (r : result A) : Play A :=
  λ env, match r with
         | Ok a => Done (a, env)
         | Raise e => Raised (Py e)
         | OutOfDraws => Starved
         end.

(** A computation that reads nothing. *)
Definition from_outcome {A} (r : outcome A) : Play A :=
  λ env, match r with
         | Done a => Done (a, env)
         | Raised e => Raised e
         | Starved => Starved
         end.

(** [for x in l: f(x)] *)
Fixpoint for_each {A} (l : list A) (f : A → Play unit) : Play unit :=
  match l with
  | [] => pret tt
  | x :: l' => let* _ := f x in for_each l' f
  end.

(** [Game.update_customer] with the clock of the environment: the clock
    is read after the draws and before the customer is stored. *)
Definition menu_update_customer (g : Game) (customer : Customer) : Play Game :=
  let nm := cust_name customer in
  let* o := random (choice (possible_orders (book g))) in
  let* pw := random (price_order ITEMS_BY_INGREDIENTS o None) in
  let* now := time_time in
  if bool_decide (nm < length (customers g)) then
    pret (set_customers g
            (<[nm := mkCustomer nm o (fst pw) (snd pw) now]> (customers g)))
  else throw (Py IndexError).

(** [Game.create_customers] with the clock of the environment. *)
Fixpoint menu_create_customers (b : RecipeBook) (ixs : list nat)
    (prev : option (Z * Z)) (cs : list Customer) : Play (list Customer) :=
  match ixs with
  | [] => pret cs
  | i :: ixs' =>
      let* o := random (choice (possible_orders b)) in
      let* pw := random (price_order ITEMS_BY_INGREDIENTS o prev) in
      let* now := time_time in
      menu_create_customers b ixs' (Some pw)
        (cs ++ [mkCustomer i o (fst pw) (snd pw) now])
  end.

(** [Game.setup] with the clock of the environment. *)
Definition menu_setup : Play Game :=
  let* b := random (create_book ITEMS_BY_INGREDIENTS) in
  let* locs := random (create_map b) in
  let* p := from_result (create_player locs) in
  let* cs := menu_create_customers b (seq 0 4) None [] in
  pret (mkGame p locs b cs).

(** [Player.pickup] on item values: the copy is equal to the item. *)
Definition player_pickup (g : Game) (item : Item) : Game :=
  set_player g (mkPlayer (location (player g)) (inventory (player g) ++ [item])
                  (score (player g)) (completed (player g))).

(** [Player.trash] on item values. *)
Definition player_trash (g : Game) (item : Item) : result Game :=
  result_bind (list_remove item (inventory (player g))) (λ inv,
    Ok (set_player g (mkPlayer (location (player g)) inv
                        (score (player g)) (completed (player g))))).

(** [Player.deliver_order] with the clock of the environment. *)
Definition menu_deliver_order (g : Game) (item : Item) (customer : Customer)
  : Play Game :=
  let* inv := from_result (list_remove item (inventory (player g))) in
  let sc := if item_eq item (order customer)
            then (score (player g) + give_points customer)%Z
            else score (player g) in
  menu_update_customer
    (set_player g (mkPlayer (location (player g)) inv sc (completed (player g))))
    customer.

(** *** interface.py: what rendering reads *)

(** The attributes of [Menu] the game logic reads: the game, the flag
    [game_over], and [starttime] and [totaltime] of the window
    [timeremaining]. *)
Record Menu : Type := mkMenu {
  game : Game;
  game_over : bool;
  starttime : Q;
  totaltime : Z
}.

Definition set_game (m : Menu) (g : Game) : Menu :=
  mkMenu g (game_over m) (starttime m) (totaltime m).

(** [Customer.__str__] calls [time_remaining] twice. *)
Definition customer_str : Play unit :=
  let* _ := time_time in let* _ := time_time in pret tt.

(** [ActiveCustomers.render_info]: every customer is formatted. *)
Definition customers_render_info (m : Menu) : Play unit :=
  for_each (customers (game m)) (λ _, customer_str).

(** [TimeRemaining.render_info]: [get_remaining_time] reads the clock. *)
Definition timeremaining_render_info : Play unit :=
  let* _ := time_time in pret tt.

(** [Map.render_info]: the neighbors are listed, then [Location.spooky]
    chooses a flavor text. *)
Definition map_render_info (m : Menu) : Play unit :=
  let loc := location (player (game m)) in
  match neighbors loc with
  | None => throw (Py AttributeError)
  | Some _ =>
      match LOCATION_FLAVOR !! loc_name loc with
      | None => throw (Py KeyError)
      | Some flavor => let* _ := random (choice flavor) in pret tt
      end
  end.

(** [sw.render_info()] of the subwindow stored under [name]; the windows
    of the score, the inventory and the commands read neither the clock
    nor [random]. *)
Definition render_info (m : Menu) (name : string) : Play unit :=
  if String.eqb name "customers" then customers_render_info m
  else if String.eqb name "timeremaining" then timeremaining_render_info
  else if String.eqb name "map" then map_render_info m
  else pret tt.

(** The keys of [self.subwindows], in the order they were inserted. *)
Definition subwindows : list string :=
  ["customers"; "timeremaining"; "score"; "inventory"; "input"; "map"].

(** [Menu.render] *)
Definition render (m : Menu) (exclude : option string) : Play unit :=
  for_each subwindows (λ name,
    if bool_decide (Some name = exclude) then pret tt else render_info m name).

(** [Menu.raise_warning] *)
Definition raise_warning (m : Menu) : Play unit := render m None.

(** [InputField.render_pickup] iterates over the items of the location. *)
Definition render_pickup (m : Menu) : Play unit :=
  match items (location (player (game m))) with
  | None => throw TypeError
  | Some _ => pret tt
  end.

(** [PlayerInventory.render_delivery_choice]: every customer is formatted. *)
Definition render_delivery_choice (m : Menu) : Play unit :=
  for_each (customers (game m)) (λ _, customer_str).

(** The body of the loop of [InputField.render_book]: the line of one
    entry of the chapter. *)
Definition recipe_line (b : RecipeBook) (entry : string) : outcome string :=
  match get_item b entry with
  | Ok item =>
      match recipe item with
      | None => Raised TypeError
      | Some r =>
          match r !! 0 with
          | None => Raised (Py IndexError)
          | Some ing_1 =>
              match r !! 1 with
              | None => Raised (Py IndexError)
              | Some ing_2 =>
                  Done (entry ++ " = " ++ name ing_1 ++ " + " ++ name ing_2)%string
              end
          end
      end
  | Raise e => Raised (Py e)
  | OutOfDraws => Starved
  end.

Fixpoint recipe_lines (b : RecipeBook) (instructions : list string)
  : outcome (list string) :=
  match instructions with
  | [] => Done []
  | entry :: rest =>
      match recipe_line b entry with
      | Done line =>
          match recipe_lines b rest with
          | Done lines => Done (line :: lines)
          | Raised e => Raised e
          | Starved => Starved
          end
      | Raised e => Raised e
      | Starved => Starved
      end
  end.

(** [InputField.render_book]: the header and the lines handed to
    [Window.render]. *)
Definition render_book (b : RecipeBook) (chapter : option nat)
  : outcome (string * list string) :=
  match chapter with
  | None =>
      Done ("THE BOOK OF THE BEAST",
            map (λ kv, (fst kv ++ " - " ++ snd kv)%string) CHAPTER_TITLES
              ++ ["Press 9 to close the book."])
  | Some c =>
      match RECIPES_BY_CHAPTER !! pretty c with
      | None => Raised (Py KeyError)
      | Some instructions =>
          match recipe_lines b instructions with
          | Done lines =>
              match assoc CHAPTER_TITLES (pretty c) with
              | None => Raised (Py KeyError)
              | Some title =>
                  Done (title,
                        lines ++ ["Press 8 to go back to the table of contents.";
                                  "Press 9 to close the book."])
              end
          | Raised e => Raised e
          | Starved => Starved
          end
      end
  end.

(** *** play.py: class Menu *)

(** [Menu.is_int]: [chr] of [None] is a [TypeError], which is not caught.
    [getch] returns -1, a byte or a key code of curses, 511 at most; among
    the characters of these codes [int] accepts the ten digits only. *)
Definition is_int (k : option Z) : Play bool :=
  match k with
  | None => throw TypeError
  | Some z => pret (bool_decide (48 ≤ z ≤ 57)%Z)
  end.

(** [int(chr(k))] for a key that [is_int] accepts. *)
Definition int_chr (k : option Z) : nat :=
  match k with
  | Some z => Z.to_nat (z - 48)
  | None => 0
  end.

(** [for customer in self.game.customers] of [refresh_logic]: the
    positions are visited in order, each reading the list as it is by
    then. *)
Fixpoint scan_customers (ks : list nat) (g : Game) : Play Game :=
  match ks with
  | [] => pret g
  | k :: ks' =>
      match customers g !! k with
      | None => pret g
      | Some customer =>
          let* now := time_time in
          if is_expired customer now then
            let* g' := menu_update_customer g customer in
            scan_customers ks' g'
          else scan_customers ks' g
      end
  end.

(** The loop of [Menu.refresh_logic]; every turn reads a key. *)
Fixpoint refresh_loop (fuel : nat) (m : Menu) (refreshtime : Q)
  : Play (Menu * option Z) :=
  match fuel with
  | O => starved
  | S fuel' =>
      let* k := getch in
      let* now := time_time in
      if Qle_bool (inject_Z (totaltime m) - (now - starttime m)) 0 then
        pret (mkMenu (game m) true (starttime m) (totaltime m), None)
      else
        let* g := scan_customers (seq 0 (length (customers (game m)))) (game m) in
        let m' := set_game m g in
        if bool_decide (k ≠ (-1)%Z) then pret (m', Some k)
        else
          let* t := time_time in
          if negb (Qle_bool (t - refreshtime) 1) then
            let* _ := render_info m' "timeremaining" in
            let* _ := render_info m' "customers" in
            let* refreshtime' := time_time in
            refresh_loop fuel' m' refreshtime'
          else refresh_loop fuel' m' refreshtime
  end.

(** [Menu.refresh_logic]: the key that was pressed, or [None] once the
    time of the game is over.  The loop cannot outlast the keys. *)
Definition refresh_logic (m : Menu) : Play (Menu * option Z) :=
  λ env, (let* refreshtime := time_time in
          refresh_loop (S (length (keys env))) m refreshtime) env.

(** [Menu.do_move] *)
Definition do_move (m : Menu) (direction : string) : Play Menu :=
  let* g := from_result (move (game m) direction) in pret (set_game m g).

(** The loop of [Menu.do_pickup]. *)
Fixpoint pickup_loop (fuel : nat) (m : Menu) : Play Menu :=
  match fuel with
  | O => starved
  | S fuel' =>
      let* _ := render m (Some "input") in
      let* _ := render_pickup m in
      let* '(m1, k) := refresh_logic m in
      let* digit := is_int k in
      if digit then
        match items (location (player (game m1))) with
        | None => throw TypeError
        | Some its =>
            if bool_decide (int_chr k < length its) then
              match its !! int_chr k with
              | Some item => pret (set_game m1 (player_pickup (game m1) item))
              | None => throw (Py IndexError)
              end
            else if bool_decide (int_chr k = 9) then pret m1
            else pickup_loop fuel' m1
        end
      else pickup_loop fuel' m1
  end.

(** [Menu.do_pickup] *)
Definition do_pickup (m : Menu) : Play Menu :=
  match items (location (player (game m))) with
  | None => let* _ := raise_warning m in pret m
  | Some _ =>
      if bool_decide (length (inventory (player (game m))) = 9) then
        let* _ := raise_warning m in pret m
      else λ env, pickup_loop (S (length (keys env))) m env
  end.

(** The loop of [Menu.do_trash]. *)
Fixpoint trash_loop (fuel : nat) (m : Menu) : Play Menu :=
  match fuel with
  | O => starved
  | S fuel' =>
      let* _ := render m (Some "inventory") in
      let* '(m1, k) := refresh_logic m in
      let* digit := is_int k in
      if digit then
        let inv := inventory (player (game m1)) in
        if bool_decide (int_chr k < length inv) then
          match inv !! int_chr k with
          | Some item =>
              let* g := from_result (player_trash (game m1) item) in
              pret (set_game m1 g)
          | None => throw (Py IndexError)
          end
        else if bool_decide (int_chr k = 9) then pret m1
        else trash_loop fuel' m1
      else trash_loop fuel' m1
  end.

(** [Menu.do_trash] *)
Definition do_trash (m : Menu) : Play Menu :=
  if bool_decide (length (inventory (player (game m))) = 0) then
    let* _ := raise_warning m in pret m
  else λ env, trash_loop (S (length (keys env))) m env.

(** [Menu.do_returnhome] *)
Definition do_returnhome (m : Menu) : Play Menu :=
  if String.eqb (loc_name (location (player (game m)))) "Cauldron" then
    let* _ := raise_warning m in pret m
  else
    let* l := from_result (get_location (locations (game m)) "Cauldron") in
    pret (set_game m (relocate (game m) l)).

(** The loop of [Menu.do_readbook]. *)
Fixpoint readbook_loop (fuel : nat) (m : Menu) (chapter : option nat)
  : Play Menu :=
  match fuel with
  | O => starved
  | S fuel' =>
      let* _ := render m (Some "input") in
      let* _ := from_outcome (render_book (book (game m)) chapter) in
      let* '(m1, k) := refresh_logic m in
      let* digit := is_int k in
      if digit then
        if bool_decide (int_chr k < length (chapters (book (game m1)))) then
          readbook_loop fuel' m1 (Some (int_chr k))
        else if bool_decide (int_chr k = 8) then readbook_loop fuel' m1 None
        else if bool_decide (int_chr k = 9) then pret m1
        else readbook_loop fuel' m1 chapter
      else readbook_loop fuel' m1 chapter
  end.

(** [Menu.do_readbook] *)
Definition do_readbook (m : Menu) : Play Menu :=
  λ env, readbook_loop (S (length (keys env))) m None env.

(** The loop of [Menu.do_mix]: the menu and the ingredients it ends with. *)
Fixpoint mix_prompt (fuel : nat) (m : Menu) (ingredients : list Item)
  : Play (Menu * list Item) :=
  match fuel with
  | O => starved
  | S fuel' =>
      let* _ := render m (Some "inventory") in
      let* '(m1, k) := refresh_logic m in
      let* digit := is_int k in
      if digit then
        let inv := inventory (player (game m1)) in
        if bool_decide (int_chr k < length inv) then
          match inv !! int_chr k with
          | Some item =>
              let ingredients' := ingredients ++ [item] in
              let* g := from_result (player_trash (game m1) item) in
              let m2 := set_game m1 g in
              if bool_decide (length (inventory (player g)) = 0) then
                pret (m2, ingredients')
              else if bool_decide (length ingredients' = 2) then
                pret (m2, ingredients')
              else mix_prompt fuel' m2 ingredients'
          | None => throw (Py IndexError)
          end
        else if bool_decide (int_chr k = 9) then pret (m1, ingredients)
        else mix_prompt fuel' m1 ingredients
      else mix_prompt fuel' m1 ingredients
  end.

(** [Menu.do_mix] *)
Definition do_mix (m : Menu) : Play Menu :=
  if bool_decide (length (inventory (player (game m))) = 0) then
    let* _ := raise_warning m in pret m
  else if negb (String.eqb (loc_name (location (player (game m)))) "Cauldron") then
    let* _ := raise_warning m in pret m
  else
    let* '(m1, ingredients) :=
      (λ env, mix_prompt (S (length (keys env))) m [] env) in
    match mix (book (game m1)) ingredients with
    | None => let* _ := raise_warning m1 in pret m1
    | Some reward =>
        let m2 := set_game m1 (player_pickup (game m1) reward) in
        let* _ := raise_warning m2 in pret m2
    end.

(** The loop of [Menu.do_deliver]. *)
Fixpoint deliver_loop (fuel : nat) (m : Menu) (delivery : option Item)
  : Play Menu :=
  match fuel with
  | O => starved
  | S fuel' =>
      match delivery with
      | None =>
          let* _ := render m (Some "inventory") in
          let* '(m1, k) := refresh_logic m in
          let* digit := is_int k in
          if digit then
            let inv := inventory (player (game m1)) in
            if bool_decide (int_chr k < length inv) then
              match inv !! int_chr k with
              | Some item => deliver_loop fuel' m1 (Some item)
              | None => throw (Py IndexError)
              end
            else if bool_decide (int_chr k = 9) then pret m1
            else deliver_loop fuel' m1 None
          else deliver_loop fuel' m1 None
      | Some item =>
          let* _ := render m (Some "inventory") in
          let* _ := render_delivery_choice m in
          let* '(m1, k) := refresh_logic m in
          let* digit := is_int k in
          if digit then
            let cs := customers (game m1) in
            if bool_decide (int_chr k < length cs) then
              match cs !! int_chr k with
              | Some customer =>
                  let* g := menu_deliver_order (game m1) item customer in
                  pret (set_game m1 g)
              | None => throw (Py IndexError)
              end
            else if bool_decide (int_chr k = 9) then pret m1
            else deliver_loop fuel' m1 (Some item)
          else deliver_loop fuel' m1 (Some item)
      end
  end.

(** [Menu.do_deliver] *)
Definition do_deliver (m : Menu) : Play Menu :=
  if bool_decide (length (inventory (player (game m))) = 0) then
    let* _ := raise_warning m in pret m
  else if negb (String.eqb (loc_name (location (player (game m)))) "Town") then
    let* _ := raise_warning m in pret m
  else λ env, deliver_loop (S (length (keys env))) m None env.

(** [Menu.do_quit]: [quit()] raises [SystemExit]. *)
Definition do_quit (m : Menu) : Play Menu := throw SystemExit.

(** [Menu.do_resize] *)
Definition do_resize (m : Menu) : Play Menu := pret m.

(** The codes of the keys: [ord] of the letters, and the constants of
    curses for the arrows and for a resized terminal. *)
Definition KEY_DOWN : Z := 258.
Definition KEY_UP : Z := 259.
Definition KEY_LEFT : Z := 260.
Definition KEY_RIGHT : Z := 261.
Definition KEY_RESIZE : Z := 410.

(** [Menu.update] *)
Definition update (m : Menu) (k : option Z) : Play Menu :=
  match k with
  | None => pret m
  | Some z =>
      if bool_decide (z = 112%Z) then do_pickup m
      else if bool_decide (z = 116%Z) then do_trash m
      else if bool_decide (z = 104%Z) then do_returnhome m
      else if bool_decide (z = 98%Z) then do_readbook m
      else if bool_decide (z = 109%Z) then do_mix m
      else if bool_decide (z = 100%Z) then do_deliver m
      else if bool_decide (z = 113%Z) then do_quit m
      else if bool_decide (z = KEY_RESIZE) then do_resize m
      else if bool_decide (z = KEY_UP) then do_move m "N"
      else if bool_decide (z = KEY_DOWN) then do_move m "S"
      else if bool_decide (z = KEY_LEFT) then do_move m "W"
      else if bool_decide (z = KEY_RIGHT) then do_move m "E"
      else pret m
  end.

(** [Menu.end_game]: a key is waited for, then the program quits. *)
Definition end_game (m : Menu) : Play Menu :=
  let* _ := getch in do_quit m.

(** The loop of [Menu.play], followed by [end_game]. *)
Fixpoint play_loop (fuel : nat) (m : Menu) : Play Menu :=
  match fuel with
  | O => starved
  | S fuel' =>
      if game_over m then end_game m
      else
        let* '(m1, k) := refresh_logic m in
        let* m2 := update m1 k in
        let* _ := render m2 None in
        play_loop fuel' m2
  end.

(** [Menu.play] *)
Definition play (m : Menu) : Play Menu :=
  λ env, play_loop (S (length (keys env))) m env.

(** [Menu.__init__]: the game is set up, then the window of the remaining
    time notes when it was made; the game lasts 600 seconds. *)
Definition menu_init : Play Menu :=
  let* g := menu_setup in
  let* t := time_time in
  pret (mkMenu g false t 600).

(** [Menu.startup_screen]: the help texts are shown until a key is
    pressed. *)
Definition startup_screen (m : Menu) : Play unit :=
  let* _ := getch in render m None.

(** [main]: what is printed.  The bare [except] catches every exception
    of the block, [SystemExit] included. *)
Definition main (env : Env) : outcome (list string) :=
  match menu_init env with
  | Done (m, env1) =>
      match (let* _ := startup_screen m in play m) env1 with
      | Done _ => Done []
      | Raised _ =>
          Done ["Please ensure the screen is sized to accomodate the game."]
      | Starved => Starved
      end
  | Raised e => Raised e
  | Starved => Starved
  end.

(** *** What the commands of the menu keep *)

(** Every customer pays at least 5 and at most 75 points. *)
Definition paying (cs : list Customer) : Prop :=
  Forall (λ c, (5 ≤ points c ≤ 75)%Z) cs.

(** Map and book are the same, the customers are as many as before and
    still pay if they did. *)
Definition shop_kept (g g' : Game) : Prop :=
  locations g' = locations g ∧ book g' = book g ∧
  length (customers g') = length (customers g) ∧
  (paying (customers g) → paying (customers g')).

(** The same of a menu, whose time window is not touched either. *)
Definition world_kept (m m' : Menu) : Prop :=
  shop_kept (game m) (game m') ∧
  starttime m' = starttime m ∧ totaltime m' = totaltime m.

(** Every recipe of the book has two ingredients. *)
Definition two_ingredients (b : RecipeBook) : Prop :=
  Forall (λ it, is_Some (recipe it) → length (ingredients_of it) = 2)
    (recipes b).

(** *** Runs of the menu on the demo game *)

(** The menu of the demo game with the player at the Swamp; the window
    of the remaining time was made at the reading 1000. *)
Definition demo_menu : Menu := mkMenu demo_at_swamp false (inject_Z 1000) 600.

(** The key 0 is waiting; the clock stands at 1001. *)
Definition demo_env : Env :=
  mkEnv [48%Z] (replicate 15 (inject_Z 1001)) [0].

(** The demo menu after the command p and the key 0. *)
Definition demo_picked : Menu :=
  Eval vm_compute in
    match update demo_menu (Some 112%Z) demo_env with
    | Done (m, _) => m
    | _ => demo_menu
    end.

(** The menu of the demo shop: the player is at the Cauldron and holds a
    Firefly and a Goodberry. *)
Definition demo_kitchen : Menu := mkMenu demo_shop false (inject_Z 1000) 600.

(** The key 0 is pressed twice; the clock stands at 1001. *)
Definition demo_env_mix : Env :=
  mkEnv [48%Z; 48%Z] (replicate 39 (inject_Z 1001)) [0; 1; 2].

(** The demo kitchen after the command m and the two keys. *)
Definition demo_mixed : Menu :=
  Eval vm_compute in
    match do_mix demo_kitchen demo_env_mix with
    | Done (m, _) => m
    | _ => demo_kitchen
    end.

(** The demo shop in Town. *)
Definition demo_market : Menu :=
  Eval vm_compute in
    match get_location (locations demo_shop) "Town" with
    | Ok l => mkMenu (relocate demo_shop l) false (inject_Z 1000) 600
    | _ => demo_kitchen
    end.

(** The keys 1 and 1 are pressed: the Goodberry goes to the customer of
    slot 1. *)
Definition demo_env_deliver : Env :=
  mkEnv [49%Z; 49%Z] (replicate 39 (inject_Z 1001)) [0; 3; 2; 1; 4].

Definition demo_delivered : Menu * Env :=
  Eval vm_compute in
    match update demo_market (Some 100%Z) demo_env_deliver with
    | Done r => r
    | _ => (demo_market, demo_env_deliver)
    end.

(** No key is pressed, then the key p; the clock stands at 1001. *)
Definition demo_env_idle : Env :=
  mkEnv [(-1)%Z; 112%Z] (replicate 12 (inject_Z 1001)) [].


(** A whole session: a key ends the startup screen, then q is pressed. *)
Definition demo_session : Env :=
  mkEnv [32%Z; 113%Z] (replicate 25 (inject_Z 1000))
    (demo_draws ++ seq 0 26).

(** The menu the demo session starts with, and what is left to read. *)
Definition demo_fresh : Menu * Env :=
  Eval vm_compute in
    match menu_init demo_session with
    | Done r => r
    | _ => (demo_menu, demo_session)
    end.

(** *** The turns of a session *)

(** The body of the loop of [Menu.play]. *)
Definition play_turn (m : Menu) : Play Menu :=
  let* '(m1, k) := refresh_logic m in
  let* m2 := update m1 k in
  let* _ := render m2 None in
  pret m2.

(** The menu after [n] turns of the loop of [Menu.play], or after fewer
    when the game is over by then. *)
Fixpoint play_turns (n : nat) (m : Menu) : Play Menu :=
  match n with
  | O => pret m
  | S n' =>
      if game_over m then pret m
      else let* m2 := play_turn m in play_turns n' m2
  end.

(** The arrow up is pressed, then p and 0; the clock stands at 1001. *)
Definition demo_env_turns : Env :=
  mkEnv [KEY_UP; 112%Z; 48%Z] (replicate 45 (inject_Z 1001)) [0; 1; 2; 3].

(** The fresh menu of the demo session after these two turns. *)
Definition demo_turns : Menu * Env :=
  Eval vm_compute in
    match play_turns 2 (fst demo_fresh) demo_env_turns with
    | Done r => r
    | _ => (fst demo_fresh, demo_env_turns)
    end.
(** * Properties *)

(** ** The random monad *)

Lemma bind_Ok {A B} (m : Rand A) (k : A → Rand B) rnd b rnd' :
  bind m k rnd = Ok (b, rnd') →
  ∃ a rnd1, m rnd = Ok (a, rnd1) ∧ k a rnd1 = Ok (b, rnd').
Proof.
  unfold bind. destruct (m rnd) as [[a rnd1]| |]; try discriminate.
  intros H. by exists a, rnd1.
Qed.

Lemma ret_Ok {A} (a b : A) rnd rnd' :
  ret a rnd = Ok (b, rnd') → a = b ∧ rnd = rnd'.
Proof. unfold ret. by intros [= -> ->]. Qed.

Ltac inv_rand :=
  repeat match goal with
    | H : bind _ _ _ = Ok _ |- _ =>
        let a := fresh "a" in let r := fresh "rnd" in
        let H1 := fresh "Hm" in let H2 := fresh "Hk" in
        apply bind_Ok in H as (a & r & H1 & H2)
    | H : ret _ _ = Ok _ |- _ => apply ret_Ok in H as [? ?]; simplify_eq
    | H : (match ?p with (_, _) => _ end) _ = Ok _ |- _ => destruct p
    end.

Lemma choice_at_elem {A} r (l : list A) x : choice_at r l = Some x → x ∈ l.
Proof. unfold choice_at. intros H. eapply list_elem_of_lookup_2, H. Qed.

Lemma choice_Ok {A} (l : list A) rnd x rnd' :
  choice l rnd = Ok (x, rnd') → x ∈ l ∧ ∃ r, rnd = r :: rnd'.
Proof.
  unfold choice. destruct l as [|y l]; [done|].
  destruct rnd as [|r rnd1]; [done|].
  destruct (choice_at r (y :: l)) as [z|] eqn:E; [|done].
  intros [= -> ->]. split; [by eapply choice_at_elem|by exists r].
Qed.

(** ** Equality and membership of items go by name *)

Lemma item_eq_name a b : item_eq a b = true ↔ name a = name b.
Proof. unfold item_eq. apply String.eqb_eq. Qed.

Lemma item_in_names x l : item_in x l = true ↔ name x ∈ names_of l.
Proof.
  unfold item_in, names_of. rewrite existsb_exists, list_elem_of_fmap.
  split.
  - intros (y & Hy & He). apply item_eq_name in He.
    exists y. split; [done|]. by apply list_elem_of_In.
  - intros (y & He & Hy). exists y. split; [by apply list_elem_of_In|].
    by apply item_eq_name.
Qed.

Lemma item_in_false x l : item_in x l = false ↔ name x ∉ names_of l.
Proof.
  rewrite <- item_in_names. by rewrite not_true_iff_false.
Qed.

(** ** Game.create_book: the invariant of the generation loops *)

Lemma book_inv_nil : book_inv [] [].
Proof. split; [done|constructor|]. intros i it r H. by destruct i. Qed.

Lemma redraw_Ok rs used d rnd x rnd' :
  redraw rs used d rnd = Ok (x, rnd') →
  (x = d ∨ x ∈ rs) ∧ name x ∉ names_of used.
Proof.
  revert d. induction rnd as [|r rnd IH]; intros d; simpl.
  - destruct (item_in d used) eqn:E; [done|]. intros ?; simplify_eq.
    split; [by left|]. by apply item_in_false.
  - destruct (item_in d used) eqn:E.
    + destruct (choice_at r rs) as [d'|] eqn:Ec; [|done].
      intros H. apply IH in H as [[->|H] Hn]; split; auto.
      right. by eapply choice_at_elem.
    + intros ?; simplify_eq. split; [by left|]. by apply item_in_false.
Qed.

Lemma draw_ingredients_Ok n rs ing used rnd ing' used' rnd' :
  draw_ingredients n rs ing used rnd = Ok ((ing', used'), rnd') →
  NoDup (names_of used) →
  ∃ ds, ing' = ing ++ ds ∧ used' = used ++ ds ∧ length ds = n ∧
        (∀ x, x ∈ ds → x ∈ rs) ∧ NoDup (names_of used').
Proof.
  revert ing used rnd. induction n as [|n IH]; intros ing used rnd; simpl.
  - intros H Hnd. inv_rand. exists []. rewrite !app_nil_r.
    split_and!; try done. intros x Hx. by apply elem_of_nil in Hx.
  - intros H Hnd. inv_rand.
    apply choice_Ok in Hm as [Hin _].
    apply redraw_Ok in Hm0 as [Hd Hfresh].
    assert (a0 ∈ rs) as Ha0 by (by destruct Hd as [->|]).
    apply IH in Hk0 as (ds & -> & -> & Hlen & Hds & Hnd').
    + exists (a0 :: ds). rewrite <- !app_assoc in *. simpl in *.
      repeat split; auto.
      intros x [->|Hx]%elem_of_cons; auto.
    + unfold names_of in *. rewrite map_app. simpl.
      apply NoDup_app. repeat split; auto.
      * intros y Hy [->|[]%elem_of_nil]%elem_of_cons. done.
      * apply NoDup_singleton.
Qed.

Lemma bind_ingredients_app (rs : list Item) (it : Item) :
  (rs ++ [it]) ≫= ingredients_of = (rs ≫= ingredients_of) ++ ingredients_of it.
Proof. rewrite bind_app. simpl. by rewrite app_nil_r. Qed.

Lemma book_inv_snoc_found rs used n :
  book_inv rs used → book_inv (rs ++ [mkItem n None]) used.
Proof.
  intros [Hu Hnd He]. split; [|done|].
  - rewrite bind_ingredients_app. simpl. by rewrite app_nil_r.
  - intros i it r Hi Hr.
    apply lookup_app_Some in Hi as [Hi|[Hlen Hi]].
    + destruct (He i it r Hi Hr) as [Hl Hx]. split; [done|].
      intros x Hxr. rewrite take_app_le; [by apply Hx|].
      apply lookup_lt_Some in Hi. lia.
    + apply list_lookup_singleton_Some in Hi as [_ <-]. done.
Qed.

Lemma book_inv_snoc_crafted rs used n ds :
  book_inv rs used → length ds = 2 → (∀ x, x ∈ ds → x ∈ rs) →
  NoDup (names_of (used ++ ds)) →
  book_inv (rs ++ [mkItem n (Some ds)]) (used ++ ds).
Proof.
  intros [Hu Hnd He] Hlen Hds Hnd'. split; [|done|].
  - rewrite bind_ingredients_app. simpl. by rewrite <- Hu.
  - intros i it r Hi Hr.
    apply lookup_app_Some in Hi as [Hi|[Hl Hi]].
    + destruct (He i it r Hi Hr) as [Hl Hx]. split; [done|].
      intros x Hxr. rewrite take_app_le; [by apply Hx|].
      apply lookup_lt_Some in Hi. lia.
    + apply list_lookup_singleton_Some in Hi as [Hi <-].
      simpl in Hr. injection Hr as <-. split; [done|].
      intros x Hx. assert (i = length rs) as -> by lia.
      rewrite take_app_length. by apply Hds.
Qed.

Lemma book_inv_found_level rs used names :
  book_inv rs used → book_inv (rs ++ map (λ n, mkItem n None) names) used.
Proof.
  revert rs. induction names as [|n names IH]; intros rs H; simpl.
  - by rewrite app_nil_r.
  - rewrite cons_middle, app_assoc. apply IH. by apply book_inv_snoc_found.
Qed.

(** The crafted level appends one item per name, each with a recipe. *)
Lemma craft_level_Ok names rs used rnd rs' used' rnd' :
  craft_level names rs used rnd = Ok ((rs', used'), rnd') →
  book_inv rs used →
  book_inv rs' used' ∧
  ∃ new, rs' = rs ++ new ∧ names_of new = names ∧
         Forall (λ it, is_Some (recipe it)) new.
Proof.
  revert rs used rnd.
  induction names as [|n names IH]; intros rs used rnd; cbn [craft_level].
  - intros H Hinv. inv_rand. split; [done|]. exists []. by rewrite app_nil_r.
  - intros H Hinv. inv_rand.
    apply draw_ingredients_Ok in Hm as (ds & -> & -> & Hlen & Hds & Hnd);
      [|by destruct Hinv].
    simpl in Hk. apply IH in Hk as [Hinv' (new & -> & Hn & Hall)].
    + split; [done|]. exists (mkItem n (Some ds) :: new).
      rewrite <- app_assoc. simpl. repeat split; [by rewrite Hn|].
      constructor; [by eexists|done].
    + by apply book_inv_snoc_crafted.
Qed.

(** ** Tiers of the generated book *)

Lemma all_names_app (t1 t2 : list (string * list string)) :
  all_names (t1 ++ t2) = all_names t1 ++ all_names t2.
Proof. unfold all_names. by rewrite map_app, concat_app. Qed.

Lemma all_names_cons lvl ns (t : list (string * list string)) :
  all_names ((lvl, ns) :: t) = ns ++ all_names t.
Proof. done. Qed.

Lemma tier_of_prefix done rest n :
  n ∈ all_names done →
  ∃ k, tier_of (done ++ rest) n = Some k ∧ k < length done.
Proof.
  induction done as [|[lvl ns] done IH]; simpl.
  - intros H. by apply elem_of_nil in H.
  - rewrite all_names_cons, elem_of_app. intros H.
    case_bool_decide as Hn.
    + exists 0. split; [done|lia].
    + destruct H as [H|H]; [done|].
      destruct (IH H) as (k & -> & Hk). exists (S k). split; [done|lia].
Qed.

Lemma tier_of_exact done lvl ns rest n :
  NoDup (all_names (done ++ (lvl, ns) :: rest)) → n ∈ ns →
  tier_of (done ++ (lvl, ns) :: rest) n = Some (length done).
Proof.
  induction done as [|[lvl0 ns0] done IH]; simpl; intros Hnd Hn.
  - by rewrite bool_decide_eq_true_2.
  - rewrite all_names_cons in Hnd. apply NoDup_app in Hnd as (_ & Hdisj & Hnd).
    rewrite bool_decide_eq_false_2.
    + by rewrite IH.
    + intros Hn0. apply (Hdisj n Hn0).
      rewrite all_names_app, all_names_cons, !elem_of_app. auto.
Qed.

Lemma is_crafted_app t1 t2 n :
  is_crafted (t1 ++ t2) n = is_crafted t1 n || is_crafted t2 n.
Proof. unfold is_crafted. apply existsb_app. Qed.

Lemma is_found_app t1 t2 n :
  is_found (t1 ++ t2) n = is_found t1 n || is_found t2 n.
Proof. unfold is_found. apply existsb_app. Qed.

Lemma tier_inv_nil full : tier_inv full [] [].
Proof. split; intros it; intros; by apply elem_of_nil in H. Qed.

Lemma tier_inv_found_level full done ns rs :
  tier_inv full done rs →
  tier_inv full (done ++ [("FOUND", ns)]) (rs ++ map (λ n, mkItem n None) ns).
Proof.
  intros [Hn Hf Hc Hle]. split.
  - intros it [H|H]%elem_of_app; rewrite all_names_app, elem_of_app.
    + left. by apply Hn.
    + right. apply list_elem_of_fmap in H as (n & -> & H).
      unfold all_names. simpl. by rewrite app_nil_r.
  - intros it [H|H]%elem_of_app Hr; rewrite is_found_app.
    + by rewrite Hf.
    + apply list_elem_of_fmap in H as (n & -> & H). simpl.
      rewrite bool_decide_eq_true_2 by done. apply orb_true_r.
  - intros it [H|H]%elem_of_app Hr; rewrite is_crafted_app.
    + by rewrite Hc.
    + apply list_elem_of_fmap in H as (n & -> & H). by destruct Hr.
  - intros it r x [H|H]%elem_of_app Hr Hx.
    + by eapply Hle.
    + by apply list_elem_of_fmap in H as (n & -> & H).
Qed.

Lemma tier_inv_crafted_level done lvl ns rest rs used new :
  String.eqb lvl "FOUND" = false →
  NoDup (all_names (done ++ (lvl, ns) :: rest)) →
  tier_inv (done ++ (lvl, ns) :: rest) done rs →
  book_inv (rs ++ new) used → names_of new = ns →
  Forall (λ it, is_Some (recipe it)) new →
  tier_inv (done ++ (lvl, ns) :: rest) (done ++ [(lvl, ns)]) (rs ++ new).
Proof.
  intros Hlvl Hnd [Hn Hf Hc Hle] Hinv Hnew Hsome.
  assert (∀ it, it ∈ rs ++ new → name it ∈ all_names (done ++ [(lvl, ns)])) as Hnames.
  { intros it [H|H]%elem_of_app; rewrite all_names_app, elem_of_app.
    - left. by apply Hn.
    - right. unfold all_names. simpl. rewrite app_nil_r, <- Hnew.
      by apply list_elem_of_fmap_2. }
  split; [done| | |].
  - intros it [H|H]%elem_of_app Hr; rewrite is_found_app.
    + by rewrite Hf.
    + rewrite Forall_forall in Hsome. apply Hsome in H as [r H]. congruence.
  - intros it [H|H]%elem_of_app Hr; rewrite is_crafted_app.
    + by rewrite Hc.
    + simpl. rewrite Hlvl. simpl. rewrite bool_decide_eq_true_2; [apply orb_true_r|].
      rewrite <- Hnew. by apply list_elem_of_fmap_2.
  - intros it r x [H|H]%elem_of_app Hr Hx; [by eapply Hle|].
    assert (it ∈ rs ++ new) as Hit by (apply elem_of_app; by right).
    apply list_elem_of_lookup in Hit as [i Hi].
    destruct (inv_earlier _ _ Hinv i it r Hi Hr) as [_ Hearlier].
    assert (x ∈ rs ++ new) as Hxin.
    { eapply subseteq_take. by apply Hearlier. }
    apply Hnames in Hxin.
    destruct (tier_of_prefix _ rest _ Hxin) as (kx & Hkx & Hlt).
    rewrite <- app_assoc in Hkx. simpl in Hkx.
    exists kx, (length done). split; [done|]. split.
    + apply tier_of_exact; [done|]. rewrite <- Hnew. by apply list_elem_of_fmap_2.
    + rewrite length_app in Hlt. simpl in Hlt. lia.
Qed.

Lemma fill_book_Ok tbl : ∀ done rs used rnd rs' used' rnd',
  fill_book tbl rs used rnd = Ok ((rs', used'), rnd') →
  NoDup (all_names (done ++ tbl)) →
  book_inv rs used → tier_inv (done ++ tbl) done rs →
  book_inv rs' used' ∧ tier_inv (done ++ tbl) (done ++ tbl) rs'.
Proof.
  induction tbl as [|[lvl ns] tbl IH]; intros done rs used rnd rs' used' rnd';
    cbn [fill_book].
  - intros H Hnd Hinv Ht. inv_rand. by rewrite app_nil_r in *.
  - intros H Hnd Hinv Ht.
    replace (done ++ (lvl, ns) :: tbl) with ((done ++ [(lvl, ns)]) ++ tbl) in *
      by (by rewrite <- app_assoc).
    destruct (String.eqb lvl "FOUND") eqn:Elvl.
    + apply String.eqb_eq in Elvl as ->.
      eapply IH; [done|done| |].
      * by apply book_inv_found_level.
      * rewrite <- app_assoc. simpl.
        apply tier_inv_found_level. by rewrite <- app_assoc in Ht.
    + inv_rand. apply craft_level_Ok in Hm as [Hinv' (new & -> & Hnew & Hsome)];
        [|done].
      eapply IH; [done|done|done|].
      rewrite <- app_assoc in *. simpl in *.
      by eapply tier_inv_crafted_level.
Qed.

Lemma create_book_Ok tbl rnd book rnd' :
  create_book tbl rnd = Ok (book, rnd') →
  NoDup (all_names tbl) →
  book_inv (recipes book) (recipes book ≫= ingredients_of) ∧
  tier_inv tbl tbl (recipes book).
Proof.
  unfold create_book. intros H Hnd. inv_rand. simpl.
  destruct (fill_book_Ok tbl [] [] [] rnd l l0 rnd' Hm Hnd book_inv_nil
              (tier_inv_nil _)) as [Hinv Ht].
  split; [|done]. by rewrite <- (inv_used _ _ Hinv).
Qed.

Lemma fill_book_inv tbl : ∀ rs used rnd rs' used' rnd',
  fill_book tbl rs used rnd = Ok ((rs', used'), rnd') →
  book_inv rs used → book_inv rs' used'.
Proof.
  induction tbl as [|[lvl ns] tbl IH]; intros rs used rnd rs' used' rnd';
    cbn [fill_book]; intros H Hinv.
  - by inv_rand.
  - destruct (String.eqb lvl "FOUND").
    + eapply IH; [done|]. by apply book_inv_found_level.
    + inv_rand. apply craft_level_Ok in Hm as [Hinv' _]; [|done].
      by eapply IH.
Qed.

Lemma create_book_inv tbl rnd book rnd' :
  create_book tbl rnd = Ok (book, rnd') →
  book_inv (recipes book) (recipes book ≫= ingredients_of).
Proof.
  unfold create_book. intros H. inv_rand. simpl.
  pose proof (fill_book_inv _ _ _ _ _ _ _ Hm book_inv_nil) as Hinv.
  by rewrite <- (inv_used _ _ Hinv).
Qed.

Lemma ITEMS_BY_INGREDIENTS_NoDup : NoDup (all_names ITEMS_BY_INGREDIENTS).
Proof. apply (bool_decide_unpack _). by vm_compute. Qed.

(** ** Claims about the generated book *)

(** C1, as amended: in every book produced by [create_book] (from a table
    whose names are pairwise different), every item outside the found tier
    has exactly two ingredient references; each ingredient was placed in
    the book before the item that references it, so its tier is the tier
    of the item or an earlier one, never a later one. *)
Theorem create_book_tiered tbl rnd book rnd' :
  NoDup (all_names tbl) →
  create_book tbl rnd = Ok (book, rnd') →
  tiered tbl book.
Proof.
  intros Hnd Hbook i it Hi Hnf.
  destruct (create_book_Ok _ _ _ _ Hbook Hnd) as [Hinv Ht].
  assert (it ∈ recipes book) as Hit by (by eapply list_elem_of_lookup_2).
  destruct (recipe it) as [r|] eqn:Hr.
  - destruct (inv_earlier _ _ Hinv i it r Hi Hr) as [Hlen Hearlier].
    destruct r as [|a [|b [|c r]]]; try done.
    exists a, b. split; [done|].
    split_and!; try (apply Hearlier; set_solver);
      eapply (ti_le _ _ _ Ht it); try done; set_solver.
  - rewrite (ti_found _ _ _ Ht it Hit Hr) in Hnf. done.
Qed.

Lemma create_book_tiered_witness : tiered ITEMS_BY_INGREDIENTS demo_book.
Proof.
  apply (create_book_tiered ITEMS_BY_INGREDIENTS demo_draws demo_book []).
  - apply (bool_decide_unpack _). by vm_compute.
  - by vm_compute.
Defined.

(** C1, as stated, fails: in the book of the run [demo_draws] the basic
    item Antidote has the basic item Goodberry as an ingredient. *)
Lemma create_book_not_strictly_tiered :
  ¬ (∀ rnd book rnd',
       create_book ITEMS_BY_INGREDIENTS rnd = Ok (book, rnd') →
       strictly_tiered ITEMS_BY_INGREDIENTS book).
Proof.
  intros H.
  destruct (create_book ITEMS_BY_INGREDIENTS demo_draws) as [[book rnd']| |] eqn:E;
    try (by vm_compute in E).
  specialize (H _ _ _ E). vm_compute in E. injection E as <- <-.
  destruct (H (mkItem "Antidote"
                 (Some [mkItem "Goodberry"
                          (Some [mkItem "Purple Mushroom" None;
                                 mkItem "Forget-Me-Not" None]);
                        mkItem "Firefly" None])))
    as (a & b & Hr & (kx & ki & Hx & Hi & Hlt) & _).
  - cbn [recipes]. by eapply (list_elem_of_lookup_2 _ 10).
  - by vm_compute.
  - injection Hr as <- <-. vm_compute in Hx, Hi. simplify_eq. lia.
Qed.

(** C2: in every book produced by [create_book] no name is selected as
    an ingredient twice, neither in two recipes nor within one; and for
    the tiers found=[A,B,C,D], basic=[E] the book is A, B, C, D followed
    by E, whose recipe holds two different items of A, B, C, D. *)
Theorem create_book_no_reuse tbl rnd book rnd' :
  create_book tbl rnd = Ok (book, rnd') →
  NoDup (names_of (recipes book ≫= ingredients_of)) ∧
  (tbl = scenario_tiers →
   ∃ x y, recipes book = scenario_found ++ [mkItem "E" (Some [x; y])] ∧
          x ∈ scenario_found ∧ y ∈ scenario_found ∧ name x ≠ name y).
Proof.
  intros Hbook. split.
  - apply create_book_inv in Hbook. by destruct Hbook.
  - intros ->. unfold create_book, scenario_tiers in Hbook.
    cbn [fill_book String.eqb Ascii.eqb Bool.eqb] in Hbook.
    cbn [craft_level] in Hbook. inv_rand.
    apply draw_ingredients_Ok in Hm as (ds & -> & -> & Hlen & Hds & Hnd);
      [|constructor].
    destruct ds as [|x [|y [|z ds]]]; try done.
    exists x, y. cbn [recipes]. split; [done|]. split_and!.
    + apply Hds, list_elem_of_here.
    + apply Hds, list_elem_of_further, list_elem_of_here.
    + simpl in Hnd. apply NoDup_cons in Hnd as [Hx _].
      intros Heq. apply Hx. rewrite Heq. apply list_elem_of_here.
Qed.

Lemma create_book_no_reuse_witness :
  NoDup (names_of (recipes scenario_book ≫= ingredients_of)) ∧
  (scenario_tiers = scenario_tiers →
   ∃ x y, recipes scenario_book = scenario_found ++ [mkItem "E" (Some [x; y])] ∧
          x ∈ scenario_found ∧ y ∈ scenario_found ∧ name x ≠ name y).
Proof.
  apply (create_book_no_reuse scenario_tiers [2; 6; 4] scenario_book []).
  reflexivity.
Defined.

(** ** Sorting by name *)

Section string_order.
Import OrderedTypeEx.

Lemma ltb_Lt a b : String.ltb a b = true ↔ String.compare a b = Lt.
Proof. unfold String.ltb. destruct (String.compare a b); split; done. Qed.

Lemma ltb_irrefl a : String.ltb a a = false.
Proof.
  apply not_true_iff_false. rewrite ltb_Lt.
  assert (String.compare a a = Eq) as -> by (by apply String_as_OT.cmp_eq).
  done.
Qed.

Lemma ltb_trans a b c :
  String.ltb a b = true → String.ltb b c = true → String.ltb a c = true.
Proof.
  rewrite !ltb_Lt. intros H1 H2.
  apply String_as_OT.cmp_lt. eapply String_as_OT.lt_trans.
  - by apply String_as_OT.cmp_lt.
  - by apply String_as_OT.cmp_lt.
Qed.

Lemma ltb_connex a b :
  String.ltb a b = false → String.ltb b a = false → a = b.
Proof.
  intros H1%not_true_iff_false H2%not_true_iff_false.
  rewrite ltb_Lt in H1, H2.
  rewrite (String.compare_antisym b a) in H2.
  destruct (String.compare a b) eqn:E; simpl in H2; try done.
  by apply String.compare_eq_iff.
Qed.
End string_order.

#[local] Instance name_le_trans : Transitive name_le.
Proof.
  intros a b c Hab Hbc. unfold name_le in *.
  destruct (String.ltb c a) eqn:Hca; [|done].
  destruct (String.ltb a b) eqn:E1.
  - by rewrite (ltb_trans _ _ _ Hca E1) in Hbc.
  - assert (a = b) as -> by (by apply ltb_connex). congruence.
Qed.

#[local] Instance name_le_antisym : AntiSymm (=) name_le.
Proof. intros a b Hab Hba. by apply ltb_connex. Qed.

Lemma name_le_total a b : name_le a b ∨ name_le b a.
Proof.
  unfold name_le. destruct (String.ltb b a) eqn:E1; [|by left].
  right. destruct (String.ltb a b) eqn:E2; [|done].
  pose proof (ltb_trans _ _ _ E1 E2) as H. by rewrite ltb_irrefl in H.
Qed.

Lemma insert_sorted_perm x l :
  names_of (insert_sorted x l) ≡ₚ name x :: names_of l.
Proof.
  induction l as [|y l IH]; simpl; [done|].
  unfold item_lt. destruct (String.ltb (name y) (name x)); simpl; [|done].
  rewrite IH. apply Permutation_swap.
Qed.

Lemma insert_sorted_Sorted x l :
  Sorted name_le (names_of l) → Sorted name_le (names_of (insert_sorted x l)).
Proof.
  induction l as [|y l IH]; simpl; intros Hs.
  - by repeat constructor.
  - unfold item_lt. destruct (String.ltb (name y) (name x)) eqn:E; simpl.
    + apply Sorted_inv in Hs as [Hs Hhd]. constructor; [by apply IH|].
      destruct l as [|z l]; simpl.
      * constructor. destruct (name_le_total (name y) (name x)) as [H|H]; [done|].
        unfold name_le in H. congruence.
      * unfold item_lt. apply HdRel_inv in Hhd.
        destruct (String.ltb (name z) (name x)); constructor; [done|].
        destruct (name_le_total (name y) (name x)) as [H|H]; [done|].
        unfold name_le in H. congruence.
    + constructor; [done|]. by constructor.
Qed.

Lemma sorted_perm l : names_of (sorted l) ≡ₚ names_of l.
Proof.
  induction l as [|x l IH]; simpl; [done|].
  by rewrite insert_sorted_perm, IH.
Qed.

Lemma sorted_Sorted l : Sorted name_le (names_of (sorted l)).
Proof.
  induction l as [|x l IH]; simpl; [constructor|].
  by apply insert_sorted_Sorted.
Qed.

Lemma list_eq_names l1 l2 : list_eq l1 l2 = true ↔ names_of l1 = names_of l2.
Proof.
  revert l2. induction l1 as [|a l1 IH]; intros [|b l2]; simpl; try done.
  rewrite andb_true_iff, item_eq_name, IH. split.
  - by intros [-> ->].
  - by intros [= -> ->].
Qed.

(** [sorted(l1) == sorted(l2)] compares the two lists as multisets of names. *)
Lemma sorted_eq_perm l1 l2 :
  list_eq (sorted l1) (sorted l2) = true ↔ names_of l1 ≡ₚ names_of l2.
Proof.
  rewrite list_eq_names. split.
  - intros H. by rewrite <- (sorted_perm l1), H, sorted_perm.
  - intros H. apply (Sorted_unique name_le); try apply sorted_Sorted.
    by rewrite !sorted_perm.
Qed.

(** ** Player.mix *)

Lemma mix_loop_perm rs i1 i2 :
  names_of i1 ≡ₚ names_of i2 → mix_loop rs i1 = mix_loop rs i2.
Proof.
  intros Hp. induction rs as [|it rs IH]; simpl; [done|].
  destruct (recipe it) as [r|]; [|done].
  assert (list_eq (sorted i1) (sorted r) = list_eq (sorted i2) (sorted r)) as ->.
  { apply eq_true_iff_eq. rewrite !sorted_eq_perm. by rewrite Hp. }
  by rewrite IH.
Qed.

Lemma mix_loop_Some rs ing it :
  mix_loop rs ing = Some it →
  it ∈ rs ∧ ∃ r, recipe it = Some r ∧ names_of r ≡ₚ names_of ing.
Proof.
  induction rs as [|it0 rs IH]; simpl; [done|].
  destruct (recipe it0) as [r|] eqn:Hr.
  - destruct (list_eq (sorted ing) (sorted r)) eqn:E.
    + intros [= <-]. split; [apply list_elem_of_here|].
      exists r. split; [done|]. symmetry. by apply sorted_eq_perm.
    + intros [Hin H]%IH. split; [by apply list_elem_of_further|done].
  - intros [Hin H]%IH. split; [by apply list_elem_of_further|done].
Qed.

Lemma mix_loop_None rs ing :
  mix_loop rs ing = None →
  ∀ it r, it ∈ rs → recipe it = Some r → ¬ names_of r ≡ₚ names_of ing.
Proof.
  induction rs as [|it0 rs IH]; simpl; intros Hm it r Hin Hr Hp.
  - by apply elem_of_nil in Hin.
  - apply elem_of_cons in Hin as [->|Hin].
    + rewrite Hr in Hm.
      assert (list_eq (sorted ing) (sorted r) = true) as E
        by (by apply sorted_eq_perm).
      by rewrite E in Hm.
    + destruct (recipe it0) as [r0|]; [|by eapply IH].
      destruct (list_eq (sorted ing) (sorted r0)); [done|by eapply IH].
Qed.

(** C5: [mix] does not depend on the order of the two ingredients, and
    what it returns is an item of the book whose recipe and the two
    ingredients are the same unordered pair of names, or nothing when the
    book has no such item. *)
Theorem mix_unordered (book : RecipeBook) (x y : Item) :
  mix book [x; y] = mix book [y; x] ∧
  match mix book [x; y] with
  | Some it => it ∈ recipes book ∧
               ∃ r, recipe it = Some r ∧ names_of r ≡ₚ names_of [x; y]
  | None => ∀ it r, it ∈ recipes book → recipe it = Some r →
                    ¬ names_of r ≡ₚ names_of [x; y]
  end.
Proof.
  unfold mix. split.
  - apply mix_loop_perm. simpl. apply Permutation_swap.
  - destruct (mix_loop (recipes book) [x; y]) as [it|] eqn:E.
    + by apply mix_loop_Some.
    + by apply mix_loop_None.
Qed.

Lemma mix_unordered_witness :
  mix demo_book [mkItem "Firefly" None; demo_goodberry]
  = mix demo_book [demo_goodberry; mkItem "Firefly" None] ∧
  match mix demo_book [mkItem "Firefly" None; demo_goodberry] with
  | Some it => it ∈ recipes demo_book ∧
               ∃ r, recipe it = Some r ∧
                    names_of r ≡ₚ names_of [mkItem "Firefly" None; demo_goodberry]
  | None => ∀ it r, it ∈ recipes demo_book → recipe it = Some r →
                    ¬ names_of r ≡ₚ names_of [mkItem "Firefly" None; demo_goodberry]
  end.
Proof.
  apply (mix_unordered demo_book (mkItem "Firefly" None) demo_goodberry).
Defined.

(** C10: in a book produced by [create_book], [mix] returns nothing for
    a list of ingredients whose length is not 2. *)
Theorem mix_wrong_length tbl rnd book rnd' (ingredients : list Item) :
  create_book tbl rnd = Ok (book, rnd') →
  length ingredients ≠ 2 →
  mix book ingredients = None.
Proof.
  intros Hbook Hlen. apply create_book_inv in Hbook as [_ _ Hearlier].
  unfold mix. destruct (mix_loop (recipes book) ingredients) as [it|] eqn:E; [|done].
  apply mix_loop_Some in E as [Hin (r & Hr & Hp)].
  apply list_elem_of_lookup in Hin as [i Hi].
  destruct (Hearlier i it r Hi Hr) as [Hr2 _].
  apply Permutation_length in Hp. unfold names_of in Hp.
  rewrite !length_map in Hp. lia.
Qed.

Lemma mix_wrong_length_witness :
  mix demo_book [mkItem "Firefly" None] = None.
Proof.
  apply (mix_wrong_length ITEMS_BY_INGREDIENTS demo_draws demo_book []).
  - by vm_compute.
  - simpl. lia.
Defined.

(** ** Removing from a list *)

Lemma list_remove_Ok x l l' :
  list_remove x l = Ok l' →
  ∃ l1 y l2, l = l1 ++ y :: l2 ∧ l' = l1 ++ l2 ∧ name y = name x ∧
             name x ∉ names_of l1.
Proof.
  revert l'. induction l as [|z l IH]; simpl; intros l'; [done|].
  destruct (item_eq z x) eqn:E.
  - intros [= <-]. exists [], z, l. apply item_eq_name in E.
    split_and!; try done. apply not_elem_of_nil.
  - destruct (list_remove x l) as [r| |] eqn:Er; try done.
    intros [= <-]. destruct (IH r eq_refl) as (l1 & y & l2 & -> & -> & Hy & Hn).
    exists (z :: l1), y, l2. split_and!; try done.
    simpl. apply not_elem_of_cons. split; [|done].
    intros Heq. apply not_true_iff_false in E. apply E.
    by apply item_eq_name.
Qed.

Lemma list_remove_total x l :
  name x ∈ names_of l → ∃ l', list_remove x l = Ok l'.
Proof.
  induction l as [|z l IH]; simpl; intros Hin.
  - by apply elem_of_nil in Hin.
  - destruct (item_eq z x) eqn:E; [by eexists|].
    apply elem_of_cons in Hin as [Hin|Hin].
    + apply not_true_iff_false in E. destruct E. by apply item_eq_name.
    + destruct (IH Hin) as [l' ->]. by eexists.
Qed.

Lemma lift_Ok {A} (m : result A) rnd a rnd' :
  lift m rnd = Ok (a, rnd') → m = Ok a ∧ rnd = rnd'.
Proof. unfold lift. destruct m; try done. by intros [= -> ->]. Qed.

(** Items without a recipe are equal as soon as their names are. *)
Lemma found_item_eq a b :
  recipe a = None → recipe b = None → name a = name b → a = b.
Proof. destruct a, b; simpl. by intros -> -> ->. Qed.

Lemma list_remove_found x l l' :
  Forall (λ it, recipe it = None) l → x ∈ l →
  list_remove x l = Ok l' →
  l ≡ₚ x :: l' ∧ Forall (λ it, recipe it = None) l'.
Proof.
  intros Hall Hx Hrm.
  apply list_remove_Ok in Hrm as (l1 & y & l2 & -> & -> & Hy & _).
  assert (y = x) as ->.
  { rewrite Forall_forall in Hall. apply found_item_eq; [| |done].
    - apply Hall. apply elem_of_app. right. apply list_elem_of_here.
    - by apply Hall. }
  split.
  - by rewrite Permutation_middle.
  - apply Forall_app in Hall as [H1 H2]. apply Forall_cons in H2 as [_ H2].
    by apply Forall_app.
Qed.

(** ** Game.create_map *)

Lemma stock_location_Ok n : ∀ found its rnd found' its' rnd',
  stock_location n found its rnd = Ok ((found', its'), rnd') →
  Forall (λ it, recipe it = None) found →
  its' ++ found' ≡ₚ its ++ found ∧ length its' = length its + n ∧
  length found' + n = length found ∧ Forall (λ it, recipe it = None) found'.
Proof.
  induction n as [|n IH]; intros found its rnd found' its' rnd';
    cbn [stock_location]; intros H Hall.
  - inv_rand. split_and!; try done; lia.
  - inv_rand. apply choice_Ok in Hm as [Hsel _].
    apply lift_Ok in Hm0 as [Hrm ->].
    destruct (list_remove_found _ _ _ Hall Hsel Hrm) as [Hp Hall'].
    destruct (IH _ _ _ _ _ _ Hk0 Hall') as (Hp' & Hl & Hf & Hall'').
    split_and!; try done.
    + rewrite Hp', <- app_assoc. simpl. by rewrite Hp.
    + rewrite Hl, length_app. simpl. lia.
    + apply Permutation_length in Hp. simpl in Hp. lia.
Qed.

Lemma stock_locations_Ok per locs : ∀ found rnd locs' found' rnd',
  stock_locations locs per found rnd = Ok ((locs', found'), rnd') →
  Forall (λ it, recipe it = None) found →
  Forall (λ l, items l = None) locs →
  Forall2 (loc_stocked per) locs locs' ∧
  (locs' ≫= items_at) ++ found' ≡ₚ found ∧
  length found' +
    per * length (filter (λ l, loc_name l ≠ "Cauldron") locs) = length found ∧
  Forall (λ it, recipe it = None) found'.
Proof.
  induction locs as [|loc locs IH]; intros found rnd locs' found' rnd';
    cbn [stock_locations]; intros H Hall Hnone.
  - inv_rand. split_and!; try done. simpl. lia.
  - apply Forall_cons in Hnone as [Hloc Hnone].
    destruct (MAP_SETUP !! loc_name loc) as [nb|] eqn:Hnb; [|done].
    rewrite filter_cons.
    destruct (String.eqb (loc_name loc) "Cauldron") eqn:Ec.
    + inv_rand. destruct (IH _ _ _ _ _ Hm Hall Hnone) as (H2 & Hp & Hlen & Hall').
      apply String.eqb_eq in Ec as Ec'.
      rewrite decide_False by (by intros []).
      split_and!; try done.
      * constructor; [|done]. unfold loc_stocked. simpl. by rewrite Ec, Hnb.
      * simpl. unfold items_at at 1. simpl. by rewrite Hloc.
    + inv_rand.
      destruct (stock_location_Ok _ _ _ _ _ _ _ Hm Hall) as (Hp1 & Hl1 & Hf1 & Hall1).
      destruct (IH _ _ _ _ _ Hm0 Hall1 Hnone) as (H2 & Hp & Hlen & Hall').
      apply String.eqb_neq in Ec as Ec'.
      rewrite decide_True by done.
      split_and!; try done.
      * constructor; [|done]. unfold loc_stocked. simpl. rewrite Ec, Hnb.
        split_and!; try done. by exists l0.
      * simpl. unfold items_at at 1. simpl.
        rewrite <- app_assoc, Hp. by rewrite Hp1.
      * simpl. lia.
Qed.

Lemma reselect_Ok locs : ∀ rnd sel i rnd',
  reselect locs sel rnd = Ok (i, rnd') →
  ∃ l, locs !! i = Some l ∧ loc_name l ≠ "Cauldron".
Proof.
  induction rnd as [|r rnd IH]; intros sel i rnd'; simpl;
    destruct (locs !! sel) as [l|] eqn:Hl; try done;
    destruct (String.eqb (loc_name l) "Cauldron") eqn:Ec; try done.
  - intros ?; simplify_eq. exists l. split; [done|]. by apply String.eqb_neq.
  - apply IH.
  - intros ?; simplify_eq. exists l. split; [done|]. by apply String.eqb_neq.
Qed.

Lemma loc_grows_refl l : loc_grows l l.
Proof. split_and!; try done. intros its ->. by exists its. Qed.

Lemma loc_grows_trans l1 l2 l3 : loc_grows l1 l2 → loc_grows l2 l3 → loc_grows l1 l3.
Proof.
  intros (Hn1 & Hb1 & Hc1 & Hi1) (Hn2 & Hb2 & Hc2 & Hi2). split_and!.
  - congruence.
  - congruence.
  - intros Hc. rewrite Hc2; [by apply Hc1|congruence].
  - intros its Hits. destruct (Hi1 _ Hits) as (its2 & Hits2 & Hle).
    destruct (Hi2 _ Hits2) as (its3 & Hits3 & Hle'). exists its3. split; [done|lia].
Qed.

Lemma Forall2_loc_grows_refl locs : Forall2 loc_grows locs locs.
Proof. induction locs; constructor; [apply loc_grows_refl|done]. Qed.

Lemma Forall2_loc_grows_trans l1 l2 l3 :
  Forall2 loc_grows l1 l2 → Forall2 loc_grows l2 l3 → Forall2 loc_grows l1 l3.
Proof.
  intros H. revert l3. induction H; intros l3 H3; inversion H3; subst; constructor.
  - by eapply loc_grows_trans.
  - by apply IHForall2.
Qed.

Lemma append_item_Ok locs i x locs' :
  append_item locs i x = Ok locs' →
  (∃ l, locs !! i = Some l ∧ loc_name l ≠ "Cauldron") →
  Forall2 loc_grows locs locs' ∧ locs' ≫= items_at ≡ₚ x :: (locs ≫= items_at).
Proof.
  unfold append_item. intros H (l & Hl & Hc). rewrite Hl in H.
  destruct (items l) as [its|] eqn:Hits; [|done]. injection H as <-.
  split.
  - rewrite <- (list_insert_id locs i l Hl) at 1.
    apply Forall2_insert; [apply Forall2_loc_grows_refl|].
    split_and!; try done. simpl. intros its0. rewrite Hits. intros [= <-].
    eexists. split; [done|]. rewrite length_app. lia.
  - rewrite insert_take_drop by (by eapply lookup_lt_Some).
    rewrite <- (take_drop_middle locs i l Hl) at 3.
    assert (items_at l = its) as Hl_items by (unfold items_at; by rewrite Hits).
    rewrite !bind_app, !bind_cons, Hl_items.
    change (items_at _) with (its ++ [x]).
    rewrite (Permutation_app_comm its [x]). simpl.
    by rewrite <- Permutation_middle.
Qed.

Lemma distribute_leftover_Ok n : ∀ locs found rnd locs' found' rnd',
  distribute_leftover n locs found rnd = Ok ((locs', found'), rnd') →
  Forall (λ it, recipe it = None) found →
  Forall2 loc_grows locs locs' ∧
  (locs' ≫= items_at) ++ found' ≡ₚ (locs ≫= items_at) ++ found ∧
  length found' + n = length found.
Proof.
  induction n as [|n IH]; intros locs found rnd locs' found' rnd';
    cbn [distribute_leftover]; intros H Hall.
  - inv_rand. split_and!; [apply Forall2_loc_grows_refl|done|lia].
  - inv_rand. apply reselect_Ok in Hm0.
    apply choice_Ok in Hm1 as [Hsel _].
    apply lift_Ok in Hm2 as [Happ ->]. apply lift_Ok in Hm3 as [Hrm ->].
    destruct (append_item_Ok _ _ _ _ Happ Hm0) as [Hg Hp].
    destruct (list_remove_found _ _ _ Hall Hsel Hrm) as [Hpf Hall'].
    destruct (IH _ _ _ _ _ _ Hk Hall') as (Hg' & Hp' & Hlen).
    split_and!.
    + by eapply Forall2_loc_grows_trans.
    + rewrite Hp', Hp, Hpf. simpl. by rewrite <- Permutation_middle.
    + apply Permutation_length in Hpf. simpl in Hpf. lia.
Qed.

Lemma stocked_grows_final per locs : ∀ locs1 locs2,
  Forall (λ l, items l = None) locs →
  Forall2 (loc_stocked per) locs locs1 → Forall2 loc_grows locs1 locs2 →
  Forall2 (loc_final per) (map loc_name locs) locs2.
Proof.
  induction locs as [|l locs IH]; intros locs1 locs2 Hnone H1 H2.
  - inversion H1; subst. inversion H2; subst. constructor.
  - inversion H1 as [|? l1 ? ? Hs H1']; subst.
    inversion H2 as [|? l2 ? ? Hg H2']; subst.
    apply Forall_cons in Hnone as [Hl Hnone]. simpl. constructor; [|by eapply IH].
    destruct Hs as (Hn & Hb & Hi). destruct Hg as (Hn' & Hb' & Hc & Hi').
    split_and!; [congruence|congruence|].
    destruct (String.eqb (loc_name l) "Cauldron") eqn:Ec.
    + apply String.eqb_eq in Ec. rewrite Hc; congruence.
    + destruct Hi as (its & Hits & Hlen).
      destruct (Hi' _ Hits) as (its' & Hits' & Hle). exists its'. split; [done|lia].
Qed.

Lemma found_items_of_found b : Forall (λ it, recipe it = None) (found_items_of b).
Proof.
  apply Forall_forall. intros x Hx.
  by apply list_elem_of_filter in Hx as [Hx _].
Qed.

Lemma create_map_Ok b rnd locs rnd' :
  create_map b rnd = Ok (locs, rnd') →
  Forall2 (loc_final (length (found_items_of b) / 5)) location_names locs ∧
  locs ≫= items_at ≡ₚ found_items_of b.
Proof.
  unfold create_map. intros H. inv_rand.
  pose proof (found_items_of_found b) as Hall.
  apply stock_locations_Ok in Hm as (Hs & Hp & Hlen & Hall1); [|done|by repeat constructor].
  apply distribute_leftover_Ok in Hm0 as (Hg & Hp' & Hlen'); [|done].
  split.
  - eapply (stocked_grows_final _ [Cauldron; Swamp; Forest; Town; Cave; Graveyard]);
      [by repeat constructor|done|done].
  - assert (length l2 = 0) as Hnil.
    { change (length (filter _ _)) with 5 in Hlen.
      change (length [_; _; _; _; _; _] - 1) with 5 in *.
      pose proof (Nat.div_mod_eq (length (found_items_of b)) 5). lia. }
    destruct l2; [|done]. rewrite app_nil_r in Hp'. by rewrite Hp', Hp.
Qed.

Lemma NoDup_bind_unique {A B} (f : A → list B) (ls : list A) i j a b x :
  NoDup (ls ≫= f) → ls !! i = Some a → ls !! j = Some b →
  x ∈ f a → x ∈ f b → i = j.
Proof.
  revert i j. induction ls as [|c ls IH]; intros i j Hnd Hi Hj Ha Hb; [done|].
  rewrite bind_cons in Hnd. apply NoDup_app in Hnd as (_ & Hdisj & Hnd).
  destruct i as [|i], j as [|j]; simpl in *; simplify_eq; try done.
  - destruct (Hdisj x Ha). apply list_elem_of_bind. exists b.
    split; [done|]. by eapply list_elem_of_lookup_2.
  - destruct (Hdisj x Hb). apply list_elem_of_bind. exists a.
    split; [done|]. by eapply list_elem_of_lookup_2.
  - f_equal. by eapply IH.
Qed.



(** ** Player.move *)

Lemma get_location_Ok locs n :
  (∃ l, l ∈ locs ∧ loc_name l = n) →
  ∃ l, get_location locs n = Ok l ∧ l ∈ locs ∧ loc_name l = n.
Proof.
  intros (l0 & Hin & Hn). unfold get_location.
  destruct (last (filter (λ l, loc_name l = n) locs)) as [l|] eqn:E.
  - exists l. split; [done|]. apply last_Some_elem_of in E.
    by apply list_elem_of_filter in E as [? ?].
  - apply last_None in E. by destruct (filter_nil_not_elem_of _ _ l0 E Hn).
Qed.

Lemma move_declared g direction nb next :
  neighbors (location (player g)) = Some nb → nb !! direction = Some next →
  (∃ l, l ∈ locations g ∧ loc_name l = next) →
  ∃ l, l ∈ locations g ∧ loc_name l = next ∧ move g direction = Ok (relocate g l).
Proof.
  intros Hnb Hd Hex. unfold move. rewrite Hnb, Hd.
  destruct (get_location_Ok _ _ Hex) as (l & -> & Hin & Hn). by exists l.
Qed.


(** Every neighbor the table declares is one of the six locations. *)
Lemma MAP_SETUP_closed n nb d next :
  MAP_SETUP !! n = Some nb → nb !! d = Some next → next ∈ location_names.
Proof.
  intros Hn Hd.
  assert (map_Forall (λ _ nb, map_Forall (λ _ v, v ∈ location_names) nb) MAP_SETUP)
    as H by (apply (bool_decide_unpack _); by vm_compute).
  by apply (H n nb Hn d next).
Qed.

Lemma created_map_has b rnd locs rnd' n :
  create_map b rnd = Ok (locs, rnd') → n ∈ location_names →
  ∃ l, l ∈ locs ∧ loc_name l = n.
Proof.
  intros [Hf _]%create_map_Ok Hn. apply list_elem_of_lookup in Hn as [i Hi].
  destruct (Forall2_lookup_l _ _ _ _ _ Hf Hi) as (l & Hl & Hn & _).
  exists l. split; [by eapply list_elem_of_lookup_2|done].
Qed.

Lemma created_map_neighbors b rnd locs rnd' l :
  create_map b rnd = Ok (locs, rnd') → l ∈ locs →
  neighbors l = MAP_SETUP !! loc_name l ∧ loc_name l ∈ location_names.
Proof.
  intros [Hf _]%create_map_Ok Hl. apply list_elem_of_lookup in Hl as [i Hi].
  destruct (Forall2_lookup_r _ _ _ _ _ Hf Hi) as (n & Hn & <- & Hnb & _).
  split; [done|]. by eapply list_elem_of_lookup_2.
Qed.



(** ** Customers *)

Lemma randint_Ok a b rnd x rnd' :
  (a ≤ b)%Z → randint a b rnd = Ok (x, rnd') →
  (a ≤ x ≤ b)%Z ∧ ∃ r, rnd = r :: rnd'.
Proof.
  unfold randint. intros Hab. destruct rnd as [|r rnd]; [done|].
  intros [= <- <-]. split; [|by exists r].
  pose proof (Z.mod_pos_bound (Z.of_nat r) (b - a + 1)). lia.
Qed.

Lemma randrange_Ok start stop step rnd x rnd' :
  (0 < step)%Z → (start < stop)%Z →
  randrange start stop step rnd = Ok (x, rnd') →
  (start ≤ x < stop)%Z ∧ ∃ r, rnd = r :: rnd'.
Proof.
  unfold randrange. intros Hstep Hlt. destruct rnd as [|r rnd]; [done|].
  intros [= <- <-]. split; [|by exists r].
  set (n := ((stop - start + step - 1) `div` step)%Z).
  assert (0 < n)%Z as Hn.
  { apply Z.div_str_pos. lia. }
  pose proof (Z.mod_pos_bound (Z.of_nat r) n Hn) as Hm.
  assert (step * n ≤ stop - start + step - 1)%Z as Hmul.
  { apply Z.mul_div_le. lia. }
  split; [nia|]. nia.
Qed.

(** What the chain of branches yields when nothing was bound before. *)
Lemma price_order_Ok tbl o rnd p w rnd' :
  price_order tbl o None rnd = Ok ((p, w), rnd') →
  (5 ≤ p ≤ 75)%Z ∧ (45 ≤ w < 180)%Z ∧ priced tbl o = true ∧
  ∃ r1 r2, rnd = r1 :: r2 :: rnd'.
Proof.
  unfold price_order, priced.
  destruct (tier_names tbl "BASIC") as [basic|]; [|done].
  case_bool_decide.
  { intros Hrun. inv_rand.
    apply randint_Ok in Hm as [? [r1 ->]]; [|lia].
    apply randrange_Ok in Hm0 as [? [r2 ->]]; [|lia..].
    split_and!; try done; try lia. by exists r1, r2. }
  destruct (tier_names tbl "INTERMEDIATE") as [intermediate|]; [|done].
  case_bool_decide.
  { intros Hrun. inv_rand.
    apply randint_Ok in Hm as [? [r1 ->]]; [|lia].
    apply randrange_Ok in Hm0 as [? [r2 ->]]; [|lia..].
    split_and!; try done; try lia. by exists r1, r2. }
  destruct (tier_names tbl "ADVANCED") as [advanced|]; [|done].
  case_bool_decide; [|done].
  intros Hrun. inv_rand.
  apply randint_Ok in Hm as [? [r1 ->]]; [|lia].
  apply randrange_Ok in Hm0 as [? [r2 ->]]; [|lia..].
  split_and!; try done; try lia. by exists r1, r2.
Qed.

Lemma price_order_total tbl o prev r1 r2 rnd :
  priced tbl o = true →
  ∃ pw, price_order tbl o prev (r1 :: r2 :: rnd) = Ok (pw, rnd).
Proof.
  unfold price_order, priced.
  destruct (tier_names tbl "BASIC") as [basic|]; [|done].
  case_bool_decide; [intros _; by eexists|].
  destruct (tier_names tbl "INTERMEDIATE") as [intermediate|]; [|done].
  case_bool_decide; [intros _; by eexists|].
  destruct (tier_names tbl "ADVANCED") as [advanced|]; [|done].
  case_bool_decide; [intros _; by eexists|done].
Qed.

Lemma choice_total {A} (l : list A) r rnd :
  l ≠ [] → ∃ x, choice l (r :: rnd) = Ok (x, rnd) ∧ x ∈ l.
Proof.
  intros Hl. unfold choice. destruct l as [|y l]; [done|].
  destruct (choice_at r (y :: l)) as [x|] eqn:E.
  - exists x. split; [done|]. by eapply choice_at_elem.
  - unfold choice_at in E. apply lookup_ge_None in E.
    pose proof (Nat.mod_upper_bound r (length (y :: l))). simpl in *. lia.
Qed.

Lemma update_customer_Ok tbl g customer now rnd g' rnd' :
  update_customer tbl g customer now rnd = Ok (g', rnd') →
  ∃ o p w,
    g' = set_customers g
           (<[cust_name customer := mkCustomer (cust_name customer) o p w now]>
              (customers g)) ∧
    cust_name customer < length (customers g) ∧
    o ∈ possible_orders (book g) ∧ (5 ≤ p ≤ 75)%Z ∧ (45 ≤ w < 180)%Z.
Proof.
  unfold update_customer. intros H. inv_rand.
  apply choice_Ok in Hm as [Ho _]. destruct a0 as [p w].
  apply price_order_Ok in Hm0 as (Hp & Hw & _ & _).
  case_bool_decide; [|done]. inv_rand. by exists a, p, w.
Qed.

Lemma update_customer_total tbl g customer now r1 r2 r3 rnd :
  possible_orders (book g) ≠ [] →
  Forall (λ o, priced tbl o = true) (possible_orders (book g)) →
  cust_name customer < length (customers g) →
  ∃ g', update_customer tbl g customer now (r1 :: r2 :: r3 :: rnd) = Ok (g', rnd).
Proof.
  intros Hne Hpr Hslot. unfold update_customer, bind.
  destruct (choice_total _ r1 (r2 :: r3 :: rnd) Hne) as (o & -> & Ho).
  rewrite Forall_forall in Hpr.
  destruct (price_order_total tbl o None r2 r3 rnd (Hpr o Ho)) as [pw ->].
  rewrite bool_decide_eq_true_2 by done. by eexists.
Qed.

Lemma deliver_order_Ok tbl g item customer now rnd g' rnd' :
  deliver_order tbl g item customer now rnd = Ok (g', rnd') →
  ∃ l1 y l2 c',
    inventory (player g) = l1 ++ y :: l2 ∧ name y = name item ∧
    (name item ∉ names_of l1) ∧ inventory (player g') = l1 ++ l2 ∧
    (score (player g') =
       if item_eq item (order customer)
       then (score (player g) + points customer)%Z else score (player g)) ∧
    cust_name customer < length (customers g) ∧
    customers g' = <[cust_name customer := c']> (customers g) ∧
    cust_name c' = cust_name customer ∧ maketime c' = now ∧
    order c' ∈ possible_orders (book g) ∧ (0 < waittime c')%Z ∧
    book g' = book g ∧ locations g' = locations g ∧
    location (player g') = location (player g).
Proof.
  unfold deliver_order. intros H. inv_rand.
  apply lift_Ok in Hm as [Hrm ->].
  apply list_remove_Ok in Hrm as (l1 & y & l2 & Hinv & -> & Hy & Hn).
  apply update_customer_Ok in Hk as (o & p & w & -> & Hslot & Ho & Hp & Hw).
  exists l1, y, l2, (mkCustomer (cust_name customer) o p w now).
  simpl. split_and!; try done. lia.
Qed.

Lemma deliver_order_total tbl g item customer now r1 r2 r3 rnd :
  name item ∈ names_of (inventory (player g)) →
  cust_name customer < length (customers g) →
  possible_orders (book g) ≠ [] →
  Forall (λ o, priced tbl o = true) (possible_orders (book g)) →
  ∃ g', deliver_order tbl g item customer now (r1 :: r2 :: r3 :: rnd) = Ok (g', rnd).
Proof.
  intros Hin Hslot Hne Hpr. unfold deliver_order.
  destruct (list_remove_total _ _ Hin) as [inv Hinv].
  unfold bind at 1. rewrite Hinv. simpl.
  by apply update_customer_total.
Qed.

(** C3: delivering an item of the inventory whose name is the name of the
    customer's order returns; the score has grown by the customer's
    points, the first inventory entry of that name is gone, and the slot
    of the customer holds a customer created at the time of the delivery,
    the other slots being as before. *)
Theorem deliver_order_match tbl g item customer now r1 r2 r3 rnd :
  name item = name (order customer) →
  name item ∈ names_of (inventory (player g)) →
  cust_name customer < length (customers g) →
  possible_orders (book g) ≠ [] →
  Forall (λ o, priced tbl o = true) (possible_orders (book g)) →
  ∃ g' l1 y l2 c',
    deliver_order tbl g item customer now (r1 :: r2 :: r3 :: rnd) = Ok (g', rnd) ∧
    score (player g') = (score (player g) + points customer)%Z ∧
    inventory (player g) = l1 ++ y :: l2 ∧ name y = name item ∧
    (name item ∉ names_of l1) ∧ inventory (player g') = l1 ++ l2 ∧
    customers g' !! cust_name customer = Some c' ∧
    (∀ j, j ≠ cust_name customer → customers g' !! j = customers g !! j) ∧
    cust_name c' = cust_name customer ∧ maketime c' = now ∧
    order c' ∈ possible_orders (book g).
Proof.
  intros Hname Hin Hslot Hne Hpr.
  destruct (deliver_order_total tbl g item customer now r1 r2 r3 rnd
              Hin Hslot Hne Hpr) as [g' Hrun].
  destruct (deliver_order_Ok _ _ _ _ _ _ _ _ Hrun)
    as (l1 & y & l2 & c' & Hinv & Hy & Hn & Hinv' & Hsc & _ & Hcs & Hc' & Hmk
        & Ho & _).
  exists g', l1, y, l2, c'. split_and!; try done.
  - rewrite Hsc. apply item_eq_name in Hname. by rewrite Hname.
  - rewrite Hcs. by apply list_lookup_insert_eq.
  - intros j Hj. rewrite Hcs. by apply list_lookup_insert_ne.
Qed.

Lemma deliver_order_match_witness :
  ∃ g' l1 y l2 c',
    deliver_order ITEMS_BY_INGREDIENTS demo_shop demo_goodberry demo_customer
      (inject_Z 1100) [0; 0; 0] = Ok (g', []) ∧
    score (player g') = (score (player demo_shop) + points demo_customer)%Z ∧
    inventory (player demo_shop) = l1 ++ y :: l2 ∧ name y = name demo_goodberry ∧
    (name demo_goodberry ∉ names_of l1) ∧ inventory (player g') = l1 ++ l2 ∧
    customers g' !! cust_name demo_customer = Some c' ∧
    (∀ j, j ≠ cust_name demo_customer →
          customers g' !! j = customers demo_shop !! j) ∧
    cust_name c' = cust_name demo_customer ∧ maketime c' = inject_Z 1100 ∧
    order c' ∈ possible_orders (book demo_shop).
Proof.
  apply (deliver_order_match ITEMS_BY_INGREDIENTS demo_shop demo_goodberry
           demo_customer (inject_Z 1100) 0 0 0 []).
  - reflexivity.
  - apply (bool_decide_unpack _). by vm_compute.
  - vm_compute. lia.
  - by vm_compute.
  - apply (bool_decide_unpack _). by vm_compute.
Defined.

(** C4: delivering an item of the inventory whose name is not the name
    of the customer's order returns as well (no exception); the score is
    as before, the first inventory entry of that name is gone, and the
    slot of the customer holds a customer created at the time of the
    delivery. *)
Theorem deliver_order_mismatch tbl g item customer now r1 r2 r3 rnd :
  name item ≠ name (order customer) →
  name item ∈ names_of (inventory (player g)) →
  cust_name customer < length (customers g) →
  possible_orders (book g) ≠ [] →
  Forall (λ o, priced tbl o = true) (possible_orders (book g)) →
  ∃ g' l1 y l2 c',
    deliver_order tbl g item customer now (r1 :: r2 :: r3 :: rnd) = Ok (g', rnd) ∧
    score (player g') = score (player g) ∧
    inventory (player g) = l1 ++ y :: l2 ∧ name y = name item ∧
    (name item ∉ names_of l1) ∧ inventory (player g') = l1 ++ l2 ∧
    customers g' !! cust_name customer = Some c' ∧
    (∀ j, j ≠ cust_name customer → customers g' !! j = customers g !! j) ∧
    cust_name c' = cust_name customer ∧ maketime c' = now ∧
    order c' ∈ possible_orders (book g).
Proof.
  intros Hname Hin Hslot Hne Hpr.
  destruct (deliver_order_total tbl g item customer now r1 r2 r3 rnd
              Hin Hslot Hne Hpr) as [g' Hrun].
  destruct (deliver_order_Ok _ _ _ _ _ _ _ _ Hrun)
    as (l1 & y & l2 & c' & Hinv & Hy & Hn & Hinv' & Hsc & _ & Hcs & Hc' & Hmk
        & Ho & _).
  exists g', l1, y, l2, c'. split_and!; try done.
  - rewrite Hsc. destruct (item_eq item (order customer)) eqn:E; [|done].
    by apply item_eq_name in E.
  - rewrite Hcs. by apply list_lookup_insert_eq.
  - intros j Hj. rewrite Hcs. by apply list_lookup_insert_ne.
Qed.

Lemma deliver_order_mismatch_witness :
  ∃ g' l1 y l2 c',
    deliver_order ITEMS_BY_INGREDIENTS demo_shop (mkItem "Firefly" None)
      demo_customer (inject_Z 1100) [0; 0; 0] = Ok (g', []) ∧
    score (player g') = score (player demo_shop) ∧
    inventory (player demo_shop) = l1 ++ y :: l2 ∧ name y = "Firefly" ∧
    ("Firefly" ∉ names_of l1) ∧ inventory (player g') = l1 ++ l2 ∧
    customers g' !! cust_name demo_customer = Some c' ∧
    (∀ j, j ≠ cust_name demo_customer →
          customers g' !! j = customers demo_shop !! j) ∧
    cust_name c' = cust_name demo_customer ∧ maketime c' = inject_Z 1100 ∧
    order c' ∈ possible_orders (book demo_shop).
Proof.
  apply (deliver_order_mismatch ITEMS_BY_INGREDIENTS demo_shop
           (mkItem "Firefly" None) demo_customer (inject_Z 1100) 0 0 0 []).
  - by vm_compute.
  - apply (bool_decide_unpack _). by vm_compute.
  - vm_compute. lia.
  - by vm_compute.
  - apply (bool_decide_unpack _). by vm_compute.
Defined.

Lemma is_expired_iff c now :
  is_expired c now = true ↔ (maketime c + inject_Z (waittime c) <= now)%Q.
Proof.
  unfold is_expired, time_remaining. rewrite Qle_bool_iff. split; intros H; lra.
Qed.

Lemma fresh_not_expired c :
  (0 < waittime c)%Z → is_expired c (maketime c) = false.
Proof.
  intros Hw. apply not_true_iff_false. rewrite is_expired_iff.
  rewrite Zlt_Qlt in Hw. change (inject_Z 0) with 0%Q in Hw. lra.
Qed.

Lemma price_order_wait tbl o prev rnd p w rnd' :
  price_order tbl o prev rnd = Ok ((p, w), rnd') →
  (∀ pw, prev = Some pw → (0 < snd pw)%Z) → (0 < w)%Z.
Proof.
  unfold price_order. intros Hrun Hprev.
  destruct (tier_names tbl "BASIC") as [basic|]; [|done].
  case_bool_decide.
  { inv_rand. apply randrange_Ok in Hm0 as [? _]; lia. }
  destruct (tier_names tbl "INTERMEDIATE") as [intermediate|]; [|done].
  case_bool_decide.
  { inv_rand. apply randrange_Ok in Hm0 as [? _]; lia. }
  destruct (tier_names tbl "ADVANCED") as [advanced|]; [|done].
  case_bool_decide.
  { inv_rand. apply randrange_Ok in Hm0 as [? _]; lia. }
  destruct prev as [pw|]; [|done]. inv_rand. by apply (Hprev (p, w)).
Qed.

Lemma create_customers_loop_Ok tbl b clock ixs : ∀ prev cs rnd cs' rnd',
  create_customers_loop tbl b clock ixs prev cs rnd = Ok (cs', rnd') →
  (∀ pw, prev = Some pw → (0 < snd pw)%Z) →
  ∃ new, cs' = cs ++ new ∧
         Forall2 (λ i c, cust_name c = i ∧ maketime c = clock i ∧
                         (0 < waittime c)%Z ∧ order c ∈ possible_orders b)
           ixs new.
Proof.
  induction ixs as [|i ixs IH]; intros prev cs rnd cs' rnd';
    cbn [create_customers_loop]; intros Hrun Hprev.
  - inv_rand. exists []. by rewrite app_nil_r.
  - inv_rand. apply choice_Ok in Hm as [Ho _]. destruct a0 as [p w].
    pose proof (price_order_wait _ _ _ _ _ _ _ Hm0 Hprev) as Hw.
    apply IH in Hk0 as (new & -> & Hnew).
    + eexists (_ :: new). rewrite <- app_assoc. split; [done|].
      by constructor.
    + by intros pw [= <-].
Qed.

Lemma check_customer_Ok tbl g k now now' rnd g' rnd' c :
  check_customer tbl g k now now' rnd = Ok (g', rnd') →
  customers g !! k = Some c →
  if is_expired c now
  then ∃ c', customers g' = <[cust_name c := c']> (customers g) ∧
             cust_name c < length (customers g) ∧
             cust_name c' = cust_name c ∧ maketime c' = now' ∧
             (0 < waittime c')%Z
  else g' = g ∧ rnd' = rnd.
Proof.
  unfold check_customer. intros Hrun Hc. rewrite Hc in Hrun.
  destruct (is_expired c now).
  - apply update_customer_Ok in Hrun as (o & p & w & -> & Hslot & _ & _ & Hw).
    eexists. split; [done|]. simpl. split_and!; try done. lia.
  - by inv_rand.
Qed.



(** ** Items as objects: pickup and trash *)

Lemma wf_store_lt st a o rs r :
  wf_store st = true → st !! a = Some o → obj_recipe o = Some rs → r ∈ rs →
  r < a.
Proof.
  unfold wf_store. rewrite forallb_forall. intros Hwf Ha Hrs Hr.
  specialize (Hwf (a, o)). simpl in Hwf. rewrite Hrs in Hwf. simpl in Hwf.
  rewrite forallb_forall in Hwf. apply Nat.ltb_lt. apply Hwf.
  - apply list_elem_of_In. by apply (elem_of_lookup_imap_2 pair).
  - by apply list_elem_of_In.
Qed.

Lemma copy_of_fuel n : ∀ m st0 st x y,
  copy_of n st0 st x y → n ≤ m → copy_of m st0 st x y.
Proof.
  induction n as [|n IH]; intros m st0 st x y; simpl; [done|].
  intros (o & o' & Hx & Hy & Hfresh & Hname & Hrec) Hle.
  destruct m as [|m]; [lia|]. simpl. exists o, o'. split_and!; try done.
  destruct (obj_recipe o), (obj_recipe o'); try done.
  eapply Forall2_impl; [done|]. intros r y' Hc. apply IH; [done|lia].
Qed.

Lemma copy_of_store n : ∀ st0 st st' x y,
  copy_of n st0 st x y → st `prefix_of` st' → copy_of n st0 st' x y.
Proof.
  induction n as [|n IH]; intros st0 st st' x y; simpl; [done|].
  intros (o & o' & Hx & Hy & Hfresh & Hname & Hrec) Hpre.
  exists o, o'. split_and!; try done.
  - by eapply prefix_lookup_Some.
  - destruct (obj_recipe o), (obj_recipe o'); try done.
    eapply Forall2_impl; [done|]. intros r y' Hc. by eapply IH.
Qed.

Lemma memo_ok_store st0 st st' memo :
  memo_ok st0 st memo → st `prefix_of` st' → memo_ok st0 st' memo.
Proof. intros Hm Hpre a b Hab. eapply copy_of_store; [by apply Hm|done]. Qed.

Lemma memo_ok_insert st0 st memo x y :
  memo_ok st0 st memo → copy_of (S x) st0 st x y →
  memo_ok st0 st (<[x := y]> memo).
Proof.
  intros Hm Hc a b. rewrite lookup_insert. case_decide as Hax.
  - subst a. by intros [= <-].
  - by apply Hm.
Qed.

Section deepcopy.
Variable st0 : list ItemObj.
Hypothesis st0_wf : wf_store st0 = true.

(** The copies of the ingredients, given that each of them is copied
    as [deepcopy_correct] says. *)
Lemma deepcopy_list_correct rec n xs : ∀ st memo,
  (∀ st memo x, x ∈ xs → st0 `prefix_of` st → memo_ok st0 st memo →
     ∃ st' memo' y, rec st memo x = Some (st', memo', y) ∧
                    st `prefix_of` st' ∧ memo_ok st0 st' memo' ∧
                    copy_of n st0 st' x y) →
  st0 `prefix_of` st → memo_ok st0 st memo →
  ∃ st' memo' ys, deepcopy_list rec xs st memo = Some (st', memo', ys) ∧
                  st `prefix_of` st' ∧ memo_ok st0 st' memo' ∧
                  Forall2 (copy_of n st0 st') xs ys.
Proof.
  induction xs as [|x xs IH]; intros st memo Hrec Hpre Hmemo; simpl.
  - exists st, memo, []. by split_and!.
  - destruct (Hrec st memo x) as (st1 & memo1 & y & -> & Hp1 & Hm1 & Hc1);
      [apply list_elem_of_here|done|done|].
    destruct (IH st1 memo1) as (st2 & memo2 & ys & -> & Hp2 & Hm2 & Hc2).
    + intros st' memo' x' Hx'. apply Hrec. by apply list_elem_of_further.
    + by etrans.
    + done.
    + exists st2, memo2, (y :: ys). split_and!; try done.
      * by etrans.
      * constructor; [|done]. by eapply copy_of_store.
Qed.

(** With more fuel than the position of [x], [deepcopy] returns: the
    store has only grown and the result is a copy of [x] made of new
    objects. *)
Lemma deepcopy_correct fuel : ∀ st memo x,
  st0 `prefix_of` st → memo_ok st0 st memo →
  x < length st0 → x < fuel →
  ∃ st' memo' y, deepcopy fuel st memo x = Some (st', memo', y) ∧
                 st `prefix_of` st' ∧ memo_ok st0 st' memo' ∧
                 copy_of (S x) st0 st' x y.
Proof.
  induction fuel as [|fuel IH]; intros st memo x Hpre Hmemo Hx Hfuel; [lia|].
  cbn [deepcopy]. destruct (memo !! x) as [y|] eqn:Hmx.
  { exists st, memo, y. split_and!; try done. by apply Hmemo. }
  destruct (lookup_lt_is_Some_2 st0 x Hx) as [o Ho].
  rewrite (prefix_lookup_Some _ _ _ _ Ho Hpre).
  pose proof (prefix_length _ _ Hpre) as Hlen.
  destruct (obj_recipe o) as [rs|] eqn:Hrs.
  - destruct (deepcopy_list_correct (deepcopy fuel) x rs st memo)
      as (st' & memo' & ys & -> & Hp' & Hm' & Hcs); [|done|done|].
    { intros st1 memo1 r Hr Hp1 Hm1.
      pose proof (wf_store_lt _ _ _ _ _ st0_wf Ho Hrs Hr) as Hlt.
      destruct (IH st1 memo1 r Hp1 Hm1) as (st2 & memo2 & y & Hrun & ? & ? & Hc);
        [lia|lia|].
      exists st2, memo2, y. split_and!; try done.
      apply (copy_of_fuel (S r)); [done|lia]. }
    pose proof (prefix_length _ _ Hp') as Hlen'.
    assert (copy_of (S x) st0 (st' ++ [mkItemObj (obj_name o) (Some ys)]) x
              (length st')) as Hcopy.
    { simpl. exists o, (mkItemObj (obj_name o) (Some ys)). split_and!; try done.
      - by apply list_lookup_middle.
      - lia.
      - rewrite Hrs. simpl. eapply Forall2_impl; [done|].
        intros r y Hc. eapply copy_of_store; [done|]. by apply prefix_app_r. }
    eexists _, _, _. split; [done|]. split_and!; try done.
    + apply prefix_app_r. done.
    + apply memo_ok_insert; [|done].
      eapply memo_ok_store; [done|]. by apply prefix_app_r.
  - assert (copy_of (S x) st0 (st ++ [mkItemObj (obj_name o) None]) x
              (length st)) as Hcopy.
    { simpl. exists o, (mkItemObj (obj_name o) None). split_and!; try done.
      - by apply list_lookup_middle.
      - by rewrite Hrs. }
    eexists _, _, _. split; [done|]. split_and!; try done.
    + by apply prefix_app_r.
    + apply memo_ok_insert; [|done].
      eapply memo_ok_store; [done|]. by apply prefix_app_r.
Qed.

(** The objects of [st0] stand for the same values in a store that
    extends it. *)
Lemma item_at_prefix fuel : ∀ st a,
  st0 `prefix_of` st → a < length st0 → item_at fuel st a = item_at fuel st0 a.
Proof.
  induction fuel as [|fuel IH]; intros st a Hpre Ha; [done|]. simpl.
  destruct (lookup_lt_is_Some_2 st0 a Ha) as [o Ho].
  rewrite Ho, (prefix_lookup_Some _ _ _ _ Ho Hpre).
  destruct (obj_recipe o) as [rs|] eqn:Hrs; [|done].
  assert (mapM (item_at fuel st) rs = mapM (item_at fuel st0) rs) as ->; [|done].
  apply Forall_mapM_ext, Forall_forall. intros r Hr. apply IH; [done|].
  pose proof (wf_store_lt _ _ _ _ _ st0_wf Ho Hrs Hr). lia.
Qed.

End deepcopy.

(** A copy stands for the value of the original. *)
Lemma item_at_copy n : ∀ st0 st x y,
  copy_of n st0 st x y → item_at n st y = item_at n st0 x.
Proof.
  induction n as [|n IH]; intros st0 st x y; simpl; [done|].
  intros (o & o' & -> & -> & _ & -> & Hrec).
  destruct (obj_recipe o) as [rs|], (obj_recipe o') as [ys|]; try done.
  assert (mapM (item_at n st) ys = mapM (item_at n st0) rs) as ->; [|done].
  apply Forall2_mapM_ext, Forall2_flip.
  eapply Forall2_impl; [done|]. intros r y' Hc. by apply IH.
Qed.

Lemma obj_eq_refl st x : obj_eq st x x = true.
Proof. unfold obj_eq. by rewrite bool_decide_eq_true_2. Qed.

Lemma remove_ref_total st x l :
  x ∈ l → ∃ l', remove_ref st x l = Ok l'.
Proof.
  induction l as [|e l IH]; simpl; intros Hin.
  - by apply elem_of_nil in Hin.
  - destruct (obj_eq st e x) eqn:E; [by eexists|].
    apply elem_of_cons in Hin as [->|Hin]; [by rewrite obj_eq_refl in E|].
    destruct (IH Hin) as [l' ->]. by eexists.
Qed.

Lemma trash_Ok w item w' :
  trash w item = Ok w' →
  w_store w' = w_store w ∧ w_recipes w' = w_recipes w ∧
  w_locations w' = w_locations w.
Proof.
  unfold trash. destruct (remove_ref _ _ _); simpl; try done.
  by intros [= <-].
Qed.

(** C9: picking up an item of a location's list returns (with more fuel
    than the position of the item): the inventory has a new last entry,
    which is a copy of the item made of new objects only and stands for
    the same value; the objects that were there, the lists of the
    locations and the book are as before.  Trashing that entry then
    returns and leaves objects, location lists and book as they are. *)
Theorem pickup_independent_copy (w : World) (item fuel i : nat) (n : string)
    (its : list nat) :
  wf_store (w_store w) = true →
  w_locations w !! i = Some (n, Some its) → item ∈ its →
  item < length (w_store w) → item < fuel →
  ∃ w' y,
    pickup fuel w item = Some w' ∧
    w_inventory w' = w_inventory w ++ [y] ∧
    copy_of (S item) (w_store w) (w_store w') item y ∧
    item_at (S item) (w_store w') y = item_at (S item) (w_store w) item ∧
    w_store w `prefix_of` w_store w' ∧
    w_locations w' = w_locations w ∧ w_recipes w' = w_recipes w ∧
    ∃ w'',
      trash w' y = Ok w'' ∧ w_store w'' = w_store w' ∧
      w_locations w'' = w_locations w ∧ w_recipes w'' = w_recipes w ∧
      ∀ k a, a < length (w_store w) →
             item_at k (w_store w'') a = item_at k (w_store w) a.
Proof.
  intros Hwf Hloc Hin Hitem Hfuel.
  destruct (deepcopy_correct (w_store w) Hwf fuel (w_store w) ∅ item)
    as (st' & memo' & y & Hrun & Hpre & _ & Hcopy); try done.
  unfold pickup. rewrite Hrun. eexists _, y. split; [done|].
  cbn [w_store w_inventory w_locations w_recipes].
  split_and!; try done.
  - by apply item_at_copy.
  - destruct (remove_ref_total st' y (w_inventory w ++ [y])) as [inv Hinv].
    { apply elem_of_app. right. apply list_elem_of_here. }
    unfold trash. cbn [w_store w_inventory w_locations w_recipes].
    rewrite Hinv. eexists. split; [done|].
    cbn [w_store w_inventory w_locations w_recipes].
    split_and!; try done. intros k a Ha. by apply item_at_prefix.
Qed.

Lemma pickup_independent_copy_witness :
  ∃ w' y,
    pickup 3 demo_world 1 = Some w' ∧
    w_inventory w' = w_inventory demo_world ++ [y] ∧
    copy_of 2 (w_store demo_world) (w_store w') 1 y ∧
    item_at 2 (w_store w') y = item_at 2 (w_store demo_world) 1 ∧
    w_store demo_world `prefix_of` w_store w' ∧
    w_locations w' = w_locations demo_world ∧
    w_recipes w' = w_recipes demo_world ∧
    ∃ w'',
      trash w' y = Ok w'' ∧ w_store w'' = w_store w' ∧
      w_locations w'' = w_locations demo_world ∧
      w_recipes w'' = w_recipes demo_world ∧
      ∀ k a, a < length (w_store demo_world) →
             item_at k (w_store w'') a = item_at k (w_store demo_world) a.
Proof.
  apply (pickup_independent_copy demo_world 1 3 1 "Swamp" [0; 1]).
  - reflexivity.
  - reflexivity.
  - apply (bool_decide_unpack _). by vm_compute.
  - simpl. lia.
  - lia.
Defined.

(** ** The orders a generated book offers *)

Lemma fill_book_names tbl : ∀ rs used rnd rs' used' rnd',
  fill_book tbl rs used rnd = Ok ((rs', used'), rnd') → book_inv rs used →
  names_of rs' = names_of rs ++ all_names tbl.
Proof.
  induction tbl as [|[lvl ns] tbl IH]; intros rs used rnd rs' used' rnd';
    cbn [fill_book]; intros H Hinv.
  - inv_rand. unfold all_names. simpl. by rewrite app_nil_r.
  - rewrite all_names_cons, app_assoc. destruct (String.eqb lvl "FOUND").
    + erewrite IH; [|done|by apply book_inv_found_level].
      unfold names_of. rewrite map_app, map_map. simpl. by rewrite map_id.
    + inv_rand. apply craft_level_Ok in Hm as [Hinv' (new & -> & Hnew & _)]; [|done].
      erewrite IH; [|done|done]. unfold names_of in *. by rewrite map_app, Hnew.
Qed.

Lemma create_book_names tbl rnd book rnd' :
  create_book tbl rnd = Ok (book, rnd') → names_of (recipes book) = all_names tbl.
Proof.
  unfold create_book. intros H. inv_rand. simpl.
  by rewrite (fill_book_names _ _ _ _ _ _ _ Hm book_inv_nil).
Qed.

(** On the table of assets.py every crafted name is priced by one of the
    three branches. *)
Lemma crafted_priced it :
  is_crafted ITEMS_BY_INGREDIENTS (name it) = true →
  priced ITEMS_BY_INGREDIENTS it = true.
Proof.
  unfold is_crafted, priced.
  change (tier_names _ "BASIC") with (Some ["Goodberry"; "Antidote"; "Evil Eye"]).
  change (tier_names _ "INTERMEDIATE")
    with (Some ["Health Potion"; "Awakening"; "Amulet"]).
  change (tier_names _ "ADVANCED") with (Some ["Banishing Sigil"; "Substitute Doll"]).
  unfold ITEMS_BY_INGREDIENTS.
  cbn [existsb fst snd String.eqb Ascii.eqb Bool.eqb negb andb orb].
  repeat case_bool_decide; done.
Qed.

(** A book generated from the table of assets.py offers an order, and
    every order it offers is priced: [update_customer] and
    [deliver_order] return on such a book. *)
Lemma create_book_orders rnd book rnd' :
  create_book ITEMS_BY_INGREDIENTS rnd = Ok (book, rnd') →
  possible_orders book ≠ [] ∧
  Forall (λ o, priced ITEMS_BY_INGREDIENTS o = true) (possible_orders book).
Proof.
  intros Hbook.
  destruct (create_book_Ok _ _ _ _ Hbook ITEMS_BY_INGREDIENTS_NoDup) as [Hinv Ht].
  split.
  - pose proof (create_book_names _ _ _ _ Hbook) as Hnames.
    assert ("Goodberry" ∈ names_of (recipes book)) as Hin.
    { rewrite Hnames. apply (bool_decide_unpack _). by vm_compute. }
    apply list_elem_of_fmap in Hin as (it & Hname & Hit).
    assert (it ∈ possible_orders book) as Hpo.
    { apply list_elem_of_filter. split; [|done].
      destruct (recipe it) eqn:Hr; [done|].
      pose proof (ti_found _ _ _ Ht it Hit Hr) as Hf. rewrite <- Hname in Hf.
      by vm_compute in Hf. }
    intros Hnil. rewrite Hnil in Hpo. by apply elem_of_nil in Hpo.
  - apply Forall_forall. intros o [Hsome Ho]%list_elem_of_filter.
    apply crafted_priced. by apply (ti_crafted _ _ _ Ht).
Qed.


(** ** The last tier of assets.py

    The table lists 17 names and 8 of them are crafted, so the 16 draws
    without replacement use every item that precedes the last one: the
    advanced item Banishing Sigil can only be drawn by Substitute Doll,
    the other advanced item.  No book generated from assets.py has every
    ingredient in an earlier tier than the item. *)

Lemma length_bind_ingredients (l : list Item) :
  Forall (λ it, length (ingredients_of it) = 2) l →
  length (l ≫= ingredients_of) = 2 * length l.
Proof.
  induction 1 as [|it l Hit Hl IH]; [done|].
  rewrite bind_cons, length_app, Hit, IH. simpl. lia.
Qed.

Lemma create_book_last_tier rnd book rnd' :
  create_book ITEMS_BY_INGREDIENTS rnd = Ok (book, rnd') →
  ∃ it a, it ∈ recipes book ∧ name it = "Substitute Doll" ∧
          a ∈ ingredients_of it ∧ name a = "Banishing Sigil".
Proof.
  intros Hbook.
  destruct (create_book_Ok _ _ _ _ Hbook ITEMS_BY_INGREDIENTS_NoDup) as [Hinv Ht].
  pose proof (create_book_names _ _ _ _ Hbook) as Hnames.
  set (rs := recipes book) in *. set (names := all_names ITEMS_BY_INGREDIENTS) in *.
  assert (length rs = 17) as Hlen.
  { rewrite <- (length_map name rs). fold (names_of rs). by rewrite Hnames. }
  (* where a drawn item can stand *)
  assert (∀ i it x, rs !! i = Some it → x ∈ ingredients_of it →
                    name x ∈ take i names) as Hpos.
  { intros i it x Hi Hx. unfold ingredients_of in Hx.
    destruct (recipe it) as [r|] eqn:Hr; [|by apply elem_of_nil in Hx].
    destruct (inv_earlier _ _ Hinv i it r Hi Hr) as [_ Hearlier].
    rewrite <- Hnames. unfold names_of. rewrite <- fmap_take.
    apply list_elem_of_fmap_2. by apply Hearlier. }
  (* the crafted items have two ingredients each *)
  assert (Forall (λ it, length (ingredients_of it) = 2) (drop 9 rs)) as Hcrafted.
  { apply Forall_lookup. intros j it Hj. rewrite lookup_drop in Hj.
    assert (names !! (9 + j) = Some (name it)) as Hn.
    { rewrite <- Hnames. unfold names_of. by rewrite list_lookup_fmap, Hj. }
    assert (is_found ITEMS_BY_INGREDIENTS (name it) = false) as Hnf.
    { assert (Forall (λ n, is_found ITEMS_BY_INGREDIENTS n = false) (drop 9 names))
        as Hall by (apply (bool_decide_unpack _); by vm_compute).
      rewrite Forall_lookup in Hall. apply (Hall j). by rewrite lookup_drop. }
    unfold ingredients_of. destruct (recipe it) as [r|] eqn:Hr.
    - simpl. by destruct (inv_earlier _ _ Hinv _ it r Hj Hr) as [? _].
    - assert (it ∈ rs) as Hit by (by eapply list_elem_of_lookup_2).
      rewrite (ti_found _ _ _ Ht it Hit Hr) in Hnf. done. }
  (* the names drawn are the first 16 names *)
  assert (names_of (rs ≫= ingredients_of) ≡ₚ take 16 names) as Hperm.
  { apply submseteq_length_Permutation.
    - apply NoDup_submseteq; [by destruct Hinv|].
      intros n (x & -> & Hx)%list_elem_of_fmap.
      apply list_elem_of_bind in Hx as (it & Hx & Hit).
      apply list_elem_of_lookup in Hit as [i Hi].
      pose proof (Hpos i it x Hi Hx) as Hin.
      apply lookup_lt_Some in Hi. apply elem_of_take in Hin as (k & Hk & Hlt).
      apply elem_of_take. exists k. split; [done|lia].
    - unfold names_of. rewrite length_map.
      rewrite <- (take_drop 9 rs), bind_app, length_app.
      rewrite (length_bind_ingredients _ Hcrafted), length_drop, Hlen.
      change (length (take 16 names)) with 16. lia. }
  assert ("Banishing Sigil" ∈ names_of (rs ≫= ingredients_of)) as Hbs.
  { rewrite Hperm. apply (bool_decide_unpack _). by vm_compute. }
  apply list_elem_of_fmap in Hbs as (a & Ha & Hx).
  apply list_elem_of_bind in Hx as (it & Hx & Hit).
  apply list_elem_of_lookup in Hit as Hi. destruct Hi as [i Hi].
  exists it, a. split_and!; try done.
  pose proof (Hpos i it a Hi Hx) as Hin. rewrite <- Ha in Hin.
  apply elem_of_take in Hin as (k & Hk & Hlt).
  assert (k = 15) as ->.
  { assert (NoDup names) as Hnd by apply ITEMS_BY_INGREDIENTS_NoDup.
    eapply NoDup_lookup; [exact Hnd|exact Hk|done]. }
  assert (i = 16) as -> by (apply lookup_lt_Some in Hi; lia).
  assert (names !! 16 = Some (name it)) as Hn.
  { rewrite <- Hnames. unfold names_of. by rewrite list_lookup_fmap, Hi. }
  by injection Hn as <-.
Qed.

Lemma create_book_never_strictly_tiered rnd book rnd' :
  create_book ITEMS_BY_INGREDIENTS rnd = Ok (book, rnd') →
  ¬ strictly_tiered ITEMS_BY_INGREDIENTS book.
Proof.
  intros Hbook Hstrict.
  destruct (create_book_last_tier _ _ _ Hbook) as (it & a & Hit & Hn & Ha & Hna).
  destruct (Hstrict it Hit) as (x & y & Hr & Hx & Hy).
  { rewrite Hn. by vm_compute. }
  unfold ingredients_of in Ha. rewrite Hr in Ha. simpl in Ha.
  assert (tier_lt ITEMS_BY_INGREDIENTS a it) as (ka & ki & Hka & Hki & Hlt).
  { apply elem_of_cons in Ha as [->|Ha]; [done|].
    apply elem_of_cons in Ha as [->|Ha]; [done|]. by apply elem_of_nil in Ha. }
  rewrite Hna in Hka. rewrite Hn in Hki. vm_compute in Hka, Hki.
  simplify_eq. lia.
Qed.

(** ** Game.create_map returns

    For every book there are draws on which [create_map] returns: when
    every draw is 1 no location draw hits the Cauldron (position 0), and
    [5 * (F / 5) + 2 * (F mod 5)] draws are consumed. *)

Lemma stock_location_ones n : ∀ found its rest,
  n ≤ length found → Forall (λ it, recipe it = None) found →
  ∃ found' its',
    stock_location n found its (replicate n 1 ++ rest) = Ok ((found', its'), rest).
Proof.
  induction n as [|n IH]; intros found its rest Hn Hall; cbn [stock_location].
  - by eexists _, _.
  - destruct found as [|f0 found0] eqn:Hf; [simpl in Hn; lia|]. rewrite <- Hf in *.
    assert (found ≠ []) as Hne by (by rewrite Hf).
    destruct (choice_total found 1 (replicate n 1 ++ rest) Hne) as (x & Hx & Hin).
    destruct (list_remove_total x found) as [found1 Hrm];
      [by apply list_elem_of_fmap_2|].
    destruct (list_remove_found _ _ _ Hall Hin Hrm) as [Hp Hall1].
    apply Permutation_length in Hp. simpl in Hp.
    destruct (IH found1 (its ++ [x]) rest) as (found' & its' & Hrun); [lia|done|].
    exists found', its'. simpl. unfold bind at 1. rewrite Hx.
    unfold bind at 1, lift. by rewrite Hrm.
Qed.

Lemma stock_locations_ones per locs : ∀ found rest,
  per * length (filter (λ l, loc_name l ≠ "Cauldron") locs) ≤ length found →
  Forall (λ it, recipe it = None) found →
  Forall (λ l, is_Some (MAP_SETUP !! loc_name l)) locs →
  ∃ locs' found',
    stock_locations locs per found
      (replicate (per * length (filter (λ l, loc_name l ≠ "Cauldron") locs)) 1
       ++ rest) = Ok ((locs', found'), rest).
Proof.
  induction locs as [|loc locs IH]; intros found rest Hlen Hall Hmap;
    cbn [stock_locations].
  - simpl. rewrite Nat.mul_0_r. by eexists _, _.
  - apply Forall_cons in Hmap as [[nb Hnb] Hmap]. rewrite Hnb.
    rewrite filter_cons in *.
    destruct (String.eqb (loc_name loc) "Cauldron") eqn:Ec.
    + apply String.eqb_eq in Ec as Ec'.
      rewrite decide_False in * by (by intros []).
      destruct (IH found rest Hlen Hall Hmap) as (locs' & found' & Hrun).
      eexists _, _. unfold bind. by rewrite Hrun.
    + apply String.eqb_neq in Ec as Ec'.
      rewrite decide_True in * by done. simpl in Hlen.
      replace (per * length (loc :: filter (λ l, loc_name l ≠ "Cauldron") locs))
        with (per + per * length (filter (λ l, loc_name l ≠ "Cauldron") locs))
        by (simpl; lia).
      rewrite replicate_add, <- app_assoc.
      destruct (stock_location_ones per found [] 
                  (replicate (per * length (filter (λ l, loc_name l ≠ "Cauldron") locs)) 1
                   ++ rest)) as (found1 & its & Hrun1); [lia|done|].
      destruct (stock_location_Ok _ _ _ _ _ _ _ Hrun1 Hall) as (_ & _ & Hf1 & Hall1).
      destruct (IH found1 rest) as (locs' & found' & Hrun); [lia|done|done|].
      eexists _, _. unfold bind at 1. rewrite Hrun1. unfold bind. by rewrite Hrun.
Qed.

Lemma distribute_leftover_ones n : ∀ locs found rest l its,
  n ≤ length found → Forall (λ it, recipe it = None) found →
  length locs = 6 → locs !! 1 = Some l → loc_name l ≠ "Cauldron" →
  items l = Some its →
  ∃ locs' found',
    distribute_leftover n locs found (replicate (2 * n) 1 ++ rest)
    = Ok ((locs', found'), rest).
Proof.
  induction n as [|n IH]; intros locs found rest l its Hn Hall Hlen Hl Hname Hits;
    cbn [distribute_leftover].
  - by eexists _, _.
  - replace (2 * S n) with (S (S (2 * n))) by lia. cbn [replicate app].
    assert (found ≠ []) as Hne by (destruct found; [simpl in Hn; lia|done]).
    destruct (choice_total found 1 (replicate (2 * n) 1 ++ rest) Hne)
      as (x & Hx & Hin).
    destruct (list_remove_total x found) as [found1 Hrm];
      [by apply list_elem_of_fmap_2|].
    destruct (list_remove_found _ _ _ Hall Hin Hrm) as [Hp Hall1].
    apply Permutation_length in Hp. simpl in Hp.
    set (l' := mkLocation (loc_name l) (Some (its ++ [x])) (neighbors l)).
    destruct (IH (<[1 := l']> locs) found1 rest l' (its ++ [x]))
      as (locs' & found' & Hrun); try done; [lia|by rewrite length_insert| |].
    { apply list_lookup_insert_eq. lia. }
    exists locs', found'.
    assert (choice_ix locs (1 :: 1 :: replicate (2 * n) 1 ++ rest)
            = Ok (1, 1 :: replicate (2 * n) 1 ++ rest)) as Hix.
    { unfold choice_ix. destruct locs; [done|]. by rewrite Hlen. }
    assert (reselect locs 1 (1 :: replicate (2 * n) 1 ++ rest)
            = Ok (1, 1 :: replicate (2 * n) 1 ++ rest)) as Hsel.
    { simpl. rewrite Hl. apply String.eqb_neq in Hname. by rewrite Hname. }
    unfold bind at 1. rewrite Hix. unfold bind at 1. rewrite Hsel.
    unfold bind at 1. rewrite Hx. unfold bind at 1, lift, append_item.
    rewrite Hl, Hits. unfold bind at 1. by rewrite Hrm.
Qed.

Lemma create_map_returns b rest :
  ∃ locs,
    create_map b
      (replicate (5 * (length (found_items_of b) / 5)
                  + 2 * (length (found_items_of b) mod 5)) 1 ++ rest)
    = Ok (locs, rest).
Proof.
  unfold create_map.
  change (length [Cauldron; Swamp; Forest; Town; Cave; Graveyard] - 1) with 5.
  set (F := length (found_items_of b)).
  pose proof (found_items_of_found b) as Hall.
  pose proof (Nat.div_mod_eq F 5) as Hdm.
  rewrite replicate_add, <- app_assoc.
  destruct (stock_locations_ones (F / 5)
              [Cauldron; Swamp; Forest; Town; Cave; Graveyard] (found_items_of b)
              (replicate (2 * (F mod 5)) 1 ++ rest))
    as (locs1 & found1 & Hrun1).
  { change (length (filter _ _)) with 5. fold F. lia. }
  { done. }
  { apply (bool_decide_unpack _). by vm_compute. }
  change (length (filter _ _)) with 5 in Hrun1.
  rewrite (Nat.mul_comm (F / 5) 5) in Hrun1.
  destruct (stock_locations_Ok _ _ _ _ _ _ _ Hrun1 Hall) as (Hs & _ & Hlen & Hall1);
    [by repeat constructor|].
  change (length (filter _ _)) with 5 in Hlen. fold F in Hlen.
  assert (length locs1 = 6) as Hlen1 by (by apply Forall2_length in Hs).
  destruct (Forall2_lookup_l _ _ _ 1 Swamp Hs eq_refl) as (l & Hl & Hn & _ & Hi).
  simpl in Hi. destruct Hi as (its & Hits & _).
  destruct (distribute_leftover_ones (F mod 5) locs1 found1 rest l its)
    as (locs2 & found2 & Hrun2); try done; [lia|by rewrite Hn|].
  exists locs2. unfold bind at 1. rewrite Hrun1. unfold bind. by rewrite Hrun2.
Qed.

(** * Further properties of the game core *)

(** ** Lookups by name: Game.get_location and Game.get_item *)

Lemma filter_key_none {A} (f : A → string) (n : string) (l : list A) :
  n ∉ map f l → filter (λ y, f y = n) l = [].
Proof.
  induction l as [|y l IH]; simpl; intros Hn; [done|].
  apply not_elem_of_cons in Hn as [Hy Hn].
  rewrite filter_cons_False by congruence. by apply IH.
Qed.

Lemma filter_key_unique {A} (f : A → string) (n : string) (l : list A) x :
  NoDup (map f l) → x ∈ l → f x = n → filter (λ y, f y = n) l = [x].
Proof.
  induction l as [|y l IH]; simpl; intros Hnd Hx Hfx.
  - by apply elem_of_nil in Hx.
  - apply NoDup_cons in Hnd as [Hy Hnd].
    destruct (decide (f y = n)) as [Hfy|Hfy].
    + rewrite filter_cons_True by done.
      rewrite filter_key_none by (by rewrite <- Hfy).
      apply elem_of_cons in Hx as [->|Hx]; [done|].
      destruct Hy. rewrite Hfy, <- Hfx. by apply list_elem_of_fmap_2.
    + rewrite filter_cons_False by done.
      apply elem_of_cons in Hx as [->|Hx]; [done|]. by apply IH.
Qed.

Lemma created_map_names b rnd locs rnd' :
  create_map b rnd = Ok (locs, rnd') → map loc_name locs = location_names.
Proof.
  intros [Hf _]%create_map_Ok.
  induction Hf as [|n l ns ls Hl Hf IH]; [done|].
  simpl. destruct Hl as [-> _]. by rewrite IH.
Qed.

(** X1: on a map made by [create_map], [get_location] returns for each
    of the six names the one location of that name, and raises
    [IndexError] for any other name. *)
Theorem get_location_created b rnd locs rnd' (n : string) :
  create_map b rnd = Ok (locs, rnd') →
  (n ∈ location_names →
   ∃ l, get_location locs n = Ok l ∧ l ∈ locs ∧ loc_name l = n ∧
        ∀ l', l' ∈ locs → loc_name l' = n → l' = l) ∧
  (n ∉ location_names → get_location locs n = Raise IndexError).
Proof.
  intros Hmap. pose proof (created_map_names _ _ _ _ Hmap) as Hnames.
  assert (NoDup (map loc_name locs)) as Hnd.
  { rewrite Hnames. apply (bool_decide_unpack _). by vm_compute. }
  split.
  - intros Hn. rewrite <- Hnames in Hn.
    apply list_elem_of_fmap in Hn as (l & -> & Hl).
    exists l. unfold get_location.
    rewrite (filter_key_unique loc_name _ locs l Hnd Hl eq_refl).
    split_and!; try done. intros l' Hl' Hname.
    pose proof (filter_key_unique loc_name _ locs l' Hnd Hl' Hname) as H1.
    pose proof (filter_key_unique loc_name _ locs l Hnd Hl eq_refl) as H2.
    congruence.
  - intros Hn. unfold get_location. rewrite filter_key_none; [done|].
    by rewrite Hnames.
Qed.

Lemma get_location_created_witness :
  (("Town" : string) ∈ location_names →
   ∃ l, get_location (locations demo_game) "Town" = Ok l ∧
        l ∈ locations demo_game ∧ loc_name l = "Town" ∧
        ∀ l', l' ∈ locations demo_game → loc_name l' = "Town" → l' = l) ∧
  (("Town" : string) ∉ location_names →
   get_location (locations demo_game) "Town" = Raise IndexError).
Proof.
  apply (get_location_created demo_book
           [0; 1; 2; 3; 4; 5; 6; 7; 8; 9; 10; 11; 12] (locations demo_game) []).
  by vm_compute.
Defined.

(** X2: in a book generated from a table of pairwise different names,
    [get_item] returns for every name of the table the one item of that
    name, and raises [IndexError] for a name the table does not list. *)
Theorem get_item_generated tbl rnd book rnd' (n : string) :
  NoDup (all_names tbl) →
  create_book tbl rnd = Ok (book, rnd') →
  (n ∈ all_names tbl →
   ∃ it, get_item book n = Ok it ∧ it ∈ recipes book ∧ name it = n ∧
         ∀ it', it' ∈ recipes book → name it' = n → it' = it) ∧
  (n ∉ all_names tbl → get_item book n = Raise IndexError).
Proof.
  intros Hnd Hbook. pose proof (create_book_names _ _ _ _ Hbook) as Hnames.
  unfold names_of in Hnames. rewrite <- Hnames in *.
  split.
  - intros Hn. apply list_elem_of_fmap in Hn as (it & -> & Hit).
    exists it. unfold get_item.
    rewrite (filter_key_unique name _ (recipes book) it Hnd Hit eq_refl).
    split_and!; try done. intros it' Hit' Hname.
    pose proof (filter_key_unique name _ _ it' Hnd Hit' Hname) as H1.
    pose proof (filter_key_unique name _ _ it Hnd Hit eq_refl) as H2.
    congruence.
  - intros Hn. unfold get_item. by rewrite filter_key_none.
Qed.

Lemma get_item_generated_witness :
  (("Amulet" : string) ∈ all_names ITEMS_BY_INGREDIENTS →
   ∃ it, get_item demo_book "Amulet" = Ok it ∧ it ∈ recipes demo_book ∧
         name it = "Amulet" ∧
         ∀ it', it' ∈ recipes demo_book → name it' = "Amulet" → it' = it) ∧
  (("Amulet" : string) ∉ all_names ITEMS_BY_INGREDIENTS →
   get_item demo_book "Amulet" = Raise IndexError).
Proof.
  apply (get_item_generated ITEMS_BY_INGREDIENTS demo_draws demo_book []).
  - apply (bool_decide_unpack _). by vm_compute.
  - by vm_compute.
Defined.

(** ** The shape of a generated book *)

Lemma is_found_names tbl n : is_found tbl n = true → n ∈ all_names tbl.
Proof.
  induction tbl as [|[lvl ns] tbl IH]; simpl; [done|].
  rewrite all_names_cons, elem_of_app.
  intros [[_ H]%andb_true_iff|H]%orb_true_iff.
  - left. by apply bool_decide_eq_true in H.
  - right. by apply IH.
Qed.

Lemma is_crafted_names tbl n : is_crafted tbl n = true → n ∈ all_names tbl.
Proof.
  induction tbl as [|[lvl ns] tbl IH]; simpl; [done|].
  rewrite all_names_cons, elem_of_app.
  intros [[_ H]%andb_true_iff|H]%orb_true_iff.
  - left. by apply bool_decide_eq_true in H.
  - right. by apply IH.
Qed.

Lemma found_not_crafted tbl n :
  NoDup (all_names tbl) → is_found tbl n = true → is_crafted tbl n = false.
Proof.
  induction tbl as [|[lvl ns] tbl IH]; simpl; [done|].
  rewrite all_names_cons. intros (_ & Hdisj & Hnd)%NoDup_app Hf.
  apply not_true_iff_false. intros Hc.
  apply orb_true_iff in Hf as [[Hl Hn]%andb_true_iff|Hf];
    apply orb_true_iff in Hc as [[Hl' Hn']%andb_true_iff|Hc].
  - rewrite Hl in Hl'. done.
  - apply bool_decide_eq_true in Hn. apply (Hdisj n Hn).
    by apply is_crafted_names.
  - apply bool_decide_eq_true in Hn'. apply (Hdisj n Hn').
    by apply is_found_names.
  - rewrite (IH Hnd Hf) in Hc. done.
Qed.

(** X3: a book generated from a table of pairwise different names lists
    the names of the table in the order of the table, an item has no
    recipe exactly when its name is listed under FOUND, and chapters and
    titles are the keys and values of CHAPTER_TITLES. *)
Theorem create_book_shape tbl rnd book rnd' :
  NoDup (all_names tbl) →
  create_book tbl rnd = Ok (book, rnd') →
  names_of (recipes book) = all_names tbl ∧
  (∀ it, it ∈ recipes book →
         (recipe it = None ↔ is_found tbl (name it) = true)) ∧
  chapters book = ["0"; "1"; "2"; "3"] ∧
  titles book = ["Wounds"; "Ailments"; "Curses"; "Hauntings"].
Proof.
  intros Hnd Hbook.
  destruct (create_book_Ok _ _ _ _ Hbook Hnd) as [_ Ht].
  split_and!.
  - by eapply create_book_names.
  - intros it Hit. split.
    + by apply (ti_found _ _ _ Ht).
    + intros Hf. destruct (recipe it) as [r|] eqn:Hr; [|done].
      assert (is_crafted tbl (name it) = true) as Hc.
      { apply (ti_crafted _ _ _ Ht it Hit). by rewrite Hr. }
      by rewrite (found_not_crafted _ _ Hnd Hf) in Hc.
  - unfold create_book in Hbook. by inv_rand.
  - unfold create_book in Hbook. by inv_rand.
Qed.

Lemma create_book_shape_witness :
  names_of (recipes demo_book) = all_names ITEMS_BY_INGREDIENTS ∧
  (∀ it, it ∈ recipes demo_book →
         (recipe it = None ↔ is_found ITEMS_BY_INGREDIENTS (name it) = true)) ∧
  chapters demo_book = ["0"; "1"; "2"; "3"] ∧
  titles demo_book = ["Wounds"; "Ailments"; "Curses"; "Hauntings"].
Proof.
  apply (create_book_shape ITEMS_BY_INGREDIENTS demo_draws demo_book []).
  - apply (bool_decide_unpack _). by vm_compute.
  - by vm_compute.
Defined.

(** ** Crafting what the book says *)

Lemma names_of_bind (rs : list Item) :
  names_of (rs ≫= ingredients_of) = rs ≫= (λ it, names_of (ingredients_of it)).
Proof.
  induction rs as [|it rs IH]; [done|].
  rewrite !bind_cons. unfold names_of in *. by rewrite map_app, IH.
Qed.

Lemma mix_own_recipe tbl rnd book rnd' (it a b : Item) :
  create_book tbl rnd = Ok (book, rnd') →
  it ∈ recipes book → recipe it = Some [a; b] →
  mix book [a; b] = Some it.
Proof.
  intros Hbook Hit Hr.
  pose proof (create_book_inv _ _ _ _ Hbook) as [_ Hnd _].
  rewrite names_of_bind in Hnd.
  unfold mix. destruct (mix_loop (recipes book) [a; b]) as [it'|] eqn:E.
  - apply mix_loop_Some in E as [Hit' (r' & Hr' & Hp)]. f_equal.
    apply list_elem_of_lookup in Hit as [i Hi].
    apply list_elem_of_lookup in Hit' as [j Hj].
    assert (j = i) as ->; [|congruence].
    eapply (NoDup_bind_unique _ _ j i it' it (name a) Hnd Hj Hi).
    + unfold ingredients_of. rewrite Hr'. simpl. rewrite Hp. simpl.
      apply list_elem_of_here.
    + unfold ingredients_of. rewrite Hr. simpl. apply list_elem_of_here.
  - by destruct (mix_loop_None _ _ E it [a; b] Hit Hr).
Qed.

(** X4: in a generated book the two ingredients of a recipe, mixed in
    either order, give the item the recipe belongs to. *)
Theorem mix_recipe tbl rnd book rnd' (it a b : Item) :
  create_book tbl rnd = Ok (book, rnd') →
  it ∈ recipes book → recipe it = Some [a; b] →
  mix book [a; b] = Some it ∧ mix book [b; a] = Some it.
Proof.
  intros Hbook Hit Hr.
  pose proof (mix_own_recipe _ _ _ _ _ _ _ Hbook Hit Hr) as Hmix.
  split; [done|]. rewrite <- Hmix. unfold mix.
  apply mix_loop_perm. simpl. apply Permutation_swap.
Qed.

Lemma mix_recipe_witness :
  mix demo_book [demo_goodberry; mkItem "Firefly" None] = Some demo_antidote ∧
  mix demo_book [mkItem "Firefly" None; demo_goodberry] = Some demo_antidote.
Proof.
  apply (mix_recipe ITEMS_BY_INGREDIENTS demo_draws demo_book []).
  - by vm_compute.
  - by eapply (list_elem_of_lookup_2 _ 10).
  - reflexivity.
Defined.

(** ** The pool of unused items *)

Lemma length_used (rs : list Item) :
  Forall (λ it, ∀ r, recipe it = Some r → length r = 2) rs →
  length (rs ≫= ingredients_of)
  = 2 * length (filter (λ it, is_Some (recipe it)) rs).
Proof.
  induction 1 as [|it rs Hit Hrs IH]; [done|].
  rewrite bind_cons, length_app, IH, filter_cons. unfold ingredients_of.
  destruct (recipe it) as [r|] eqn:Hr; simpl; [|done].
  rewrite (Hit r eq_refl). lia.
Qed.

Lemma book_inv_pool rs used :
  book_inv rs used →
  filter (λ it, is_Some (recipe it)) rs = [] ∨
  2 * length (filter (λ it, is_Some (recipe it)) rs) < length rs.
Proof.
  intros [Hu Hnd He].
  destruct (filter (λ it, is_Some (recipe it)) rs) as [|c cs] eqn:Hf; [by left|].
  right.
  assert (c ∈ rs) as Hc.
  { assert (c ∈ filter (λ it, is_Some (recipe it)) rs) as Hc
      by (rewrite Hf; apply list_elem_of_here).
    by apply list_elem_of_filter in Hc as [_ Hc]. }
  rewrite <- Hf.
  assert (Forall (λ it, ∀ r, recipe it = Some r → length r = 2) rs) as Hlen2.
  { apply Forall_lookup. intros i it Hi r Hr. by destruct (He i it r Hi Hr). }
  rewrite <- (length_used rs Hlen2), <- Hu.
  assert (names_of used ⊆+ names_of (take (length rs - 1) rs)) as Hsub.
  { apply NoDup_submseteq; [done|].
    intros n (x & -> & Hx)%list_elem_of_fmap. rewrite Hu in Hx.
    apply list_elem_of_bind in Hx as (it & Hx & Hit).
    apply list_elem_of_lookup in Hit as [i Hi].
    unfold ingredients_of in Hx.
    destruct (recipe it) as [r|] eqn:Hr; [|by apply elem_of_nil in Hx].
    destruct (He i it r Hi Hr) as [_ Hearlier].
    apply list_elem_of_fmap_2. apply lookup_lt_Some in Hi.
    pose proof (Hearlier x Hx) as Hin.
    apply elem_of_take in Hin as (k & Hk & Hlt).
    apply elem_of_take. exists k. split; [done|lia]. }
  apply submseteq_length in Hsub. unfold names_of in Hsub.
  rewrite !length_map, length_take in Hsub.
  assert (0 < length rs)
    by (destruct rs; [by apply elem_of_nil in Hc|simpl; lia]).
  lia.
Qed.

(** X5: whenever [create_book] returns, the crafted items are less than
    half of the book (or there is none): two unused ingredients must be
    left for the last of them among the items before it. *)
Theorem create_book_pool tbl rnd book rnd' :
  create_book tbl rnd = Ok (book, rnd') →
  possible_orders book = [] ∨
  2 * length (possible_orders book) < length (recipes book).
Proof.
  intros Hbook. apply create_book_inv in Hbook.
  by apply (book_inv_pool _ _ Hbook).
Qed.

Lemma create_book_pool_witness :
  possible_orders demo_book = [] ∨
  2 * length (possible_orders demo_book) < length (recipes demo_book).
Proof.
  apply (create_book_pool ITEMS_BY_INGREDIENTS demo_draws demo_book []).
  by vm_compute.
Defined.

(** ** Exceptions and endless loops of Game.create_book *)

Lemma bind_Raise {A B} (m : Rand A) (k : A → Rand B) rnd e :
  bind m k rnd = Raise e →
  m rnd = Raise e ∨ ∃ a rnd1, m rnd = Ok (a, rnd1) ∧ k a rnd1 = Raise e.
Proof.
  unfold bind. destruct (m rnd) as [[a rnd1]|e'|]; try done.
  - intros H. right. by exists a, rnd1.
  - intros [= ->]. by left.
Qed.

Lemma choice_at_is_Some {A} r (l : list A) : l ≠ [] → is_Some (choice_at r l).
Proof.
  intros Hl. unfold choice_at. apply lookup_lt_is_Some.
  apply Nat.mod_upper_bound. by destruct l.
Qed.

Lemma choice_no_raise {A} (l : list A) rnd e : l ≠ [] → choice l rnd ≠ Raise e.
Proof.
  intros Hl. unfold choice. destruct l as [|y l]; [done|].
  destruct rnd as [|r rnd]; [done|].
  by destruct (choice_at_is_Some r (y :: l) Hl) as [x ->].
Qed.

Lemma redraw_no_raise rs used : ∀ rnd d e,
  rs ≠ [] → redraw rs used d rnd ≠ Raise e.
Proof.
  induction rnd as [|r rnd IH]; intros d e Hrs; simpl;
    destruct (item_in d used); try done.
  destruct (choice_at_is_Some r rs Hrs) as [x ->]. by apply IH.
Qed.

Lemma draw_ingredients_no_raise n : ∀ rs ing used rnd e,
  rs ≠ [] → draw_ingredients n rs ing used rnd ≠ Raise e.
Proof.
  induction n as [|n IH]; intros rs ing used rnd e Hrs; cbn [draw_ingredients];
    [done|].
  intros [H|(d0 & rnd1 & _ & [H|(d & rnd2 & _ & H)]%bind_Raise)]%bind_Raise.
  - by apply choice_no_raise in H.
  - by apply redraw_no_raise in H.
  - by apply IH in H.
Qed.

Lemma craft_level_no_raise names : ∀ rs used rnd e,
  rs ≠ [] → craft_level names rs used rnd ≠ Raise e.
Proof.
  induction names as [|n names IH]; intros rs used rnd e Hrs; cbn [craft_level];
    [done|].
  intros [H|([ing used'] & rnd1 & _ & H)]%bind_Raise.
  - by apply draw_ingredients_no_raise in H.
  - apply IH in H; [done|]. by destruct rs.
Qed.

Lemma craft_level_nonempty names rs used rnd rs' used' rnd' :
  craft_level names rs used rnd = Ok ((rs', used'), rnd') → rs ≠ [] → rs' ≠ [].
Proof.
  revert rs used rnd. induction names as [|n names IH]; intros rs used rnd;
    cbn [craft_level]; intros H Hrs.
  - by inv_rand.
  - inv_rand. eapply IH; [done|]. by destruct rs.
Qed.

Lemma fill_book_no_raise tbl : ∀ rs used rnd e,
  rs ≠ [] → fill_book tbl rs used rnd ≠ Raise e.
Proof.
  induction tbl as [|[lvl ns] tbl IH]; intros rs used rnd e Hrs; cbn [fill_book];
    [done|].
  destruct (String.eqb lvl "FOUND").
  - apply IH. by destruct rs.
  - intros [H|([rs1 used1] & rnd1 & Hm & H)]%bind_Raise.
    + by apply craft_level_no_raise in H.
    + apply IH in H; [done|]. by eapply craft_level_nonempty.
Qed.

Lemma create_book_found_no_raise (n : string) (ns : list string)
    (rest : list (string * list string)) (rnd : list nat) (e : PyError) :
  create_book (("FOUND", n :: ns) :: rest) rnd ≠ Raise e.
Proof.
  unfold create_book. cbn [fill_book]. simpl String.eqb.
  intros [H|([rs used] & rnd1 & _ & H)]%bind_Raise; [|done].
  by apply fill_book_no_raise in H.
Qed.

(** X6: [create_book] raises no exception when the table begins with a
    FOUND level that lists a name (as assets.py does); when it begins
    with a crafted level that lists a name there is nothing to draw from
    and the first [random.choice] raises [IndexError]. *)
Theorem create_book_errors (lvl n : string) (ns : list string)
    (rest : list (string * list string)) (rnd : list nat) :
  (lvl = "FOUND" → ∀ e, create_book ((lvl, n :: ns) :: rest) rnd ≠ Raise e) ∧
  (lvl ≠ "FOUND" → create_book ((lvl, n :: ns) :: rest) rnd = Raise IndexError).
Proof.
  split.
  - intros -> e. apply create_book_found_no_raise.
  - intros Hlvl. apply String.eqb_neq in Hlvl.
    unfold create_book. cbn [fill_book]. by rewrite Hlvl.
Qed.

Lemma create_book_errors_witness :
  (("FOUND" : string) = "FOUND" →
   ∀ e, create_book ITEMS_BY_INGREDIENTS [3; 1; 4] ≠ Raise e) ∧
  (("FOUND" : string) ≠ "FOUND" →
   create_book ITEMS_BY_INGREDIENTS [3; 1; 4] = Raise IndexError).
Proof.
  exact (create_book_errors "FOUND" "Purple Mushroom" _ _ [3; 1; 4]).
Defined.

Lemma fill_book_orders tbl : ∀ rs used rnd rs' used' rnd',
  fill_book tbl rs used rnd = Ok ((rs', used'), rnd') → book_inv rs used →
  length (filter (λ it, is_Some (recipe it)) rs')
  = length (filter (λ it, is_Some (recipe it)) rs) + length (crafted_names tbl).
Proof.
  induction tbl as [|[lvl ns] tbl IH]; intros rs used rnd rs' used' rnd';
    cbn [fill_book]; intros H Hinv.
  - inv_rand. simpl. lia.
  - unfold crafted_names. rewrite bind_cons, length_app. fold (crafted_names tbl).
    simpl. destruct (String.eqb lvl "FOUND").
    + erewrite IH; [|done|by apply book_inv_found_level].
      rewrite filter_app. rewrite length_app.
      assert (filter (λ it, is_Some (recipe it)) (map (λ n, mkItem n None) ns) = [])
        as ->; [|simpl; lia].
      clear. induction ns as [|n ns IH]; [done|]. simpl.
      rewrite filter_cons_False; [done|]. by intros [? ?].
    + inv_rand. apply craft_level_Ok in Hm as [Hinv' (new & -> & Hnew & Hsome)];
        [|done].
      erewrite IH; [|done|done]. rewrite filter_app, length_app.
      assert (filter (λ it, is_Some (recipe it)) new = new) as ->.
      { clear -Hsome. induction Hsome as [|it new Hit Hsome IH]; [done|].
        rewrite filter_cons_True by done. by rewrite IH. }
      rewrite <- Hnew. unfold names_of. rewrite length_map. lia.
Qed.

(** X7: when the table begins with a FOUND level that lists a name and
    its crafted names are at least half of all its names, [create_book]
    neither returns nor raises, whatever is drawn: the loop that looks
    for an unused item does not end. *)
Theorem create_book_exhausted (n : string) (ns : list string)
    (rest : list (string * list string)) (rnd : list nat) :
  crafted_names rest ≠ [] →
  length (all_names (("FOUND", n :: ns) :: rest)) ≤ 2 * length (crafted_names rest) →
  create_book (("FOUND", n :: ns) :: rest) rnd = OutOfDraws.
Proof.
  intros Hne Hlen.
  destruct (create_book (("FOUND", n :: ns) :: rest) rnd) as [[book rnd']|e|] eqn:E;
    [|by apply create_book_found_no_raise in E|done].
  exfalso.
  pose proof (create_book_names _ _ _ _ E) as Hnames.
  assert (length (possible_orders book) = length (crafted_names rest)) as Hc.
  { unfold create_book in E. inv_rand. unfold possible_orders. simpl.
    rewrite (fill_book_orders _ _ _ _ _ _ _ Hm book_inv_nil).
    unfold crafted_names at 1. by rewrite bind_cons. }
  assert (length (recipes book) = length (all_names (("FOUND", n :: ns) :: rest)))
    as Hn.
  { rewrite <- Hnames. unfold names_of. by rewrite length_map. }
  destruct (create_book_inv _ _ _ _ E) as [Hu Hnd He].
  destruct (book_inv_pool _ _ (Build_book_inv _ _ Hu Hnd He)) as [Hnil|Hlt].
  - unfold possible_orders in Hc. rewrite Hnil in Hc. simpl in Hc.
    destruct (crafted_names rest); [done|simpl in Hc; lia].
  - unfold possible_orders in Hc. lia.
Qed.

Lemma create_book_exhausted_witness :
  create_book [("FOUND", ["A"; "B"]); ("BASIC", ["E"; "F"])] [0; 1; 2; 0; 1; 2; 0]
  = OutOfDraws.
Proof.
  apply (create_book_exhausted "A" ["B"] [("BASIC", ["E"; "F"])]).
  - by vm_compute.
  - vm_compute. lia.
Defined.

Lemma used_before_last rs used :
  book_inv rs used →
  names_of used ⊆+ names_of (take (length rs - 1) rs).
Proof.
  intros [Hu Hnd He]. apply NoDup_submseteq; [done|].
  intros n (x & -> & Hx)%list_elem_of_fmap. rewrite Hu in Hx.
  apply list_elem_of_bind in Hx as (it & Hx & Hit).
  apply list_elem_of_lookup in Hit as [i Hi].
  unfold ingredients_of in Hx.
  destruct (recipe it) as [r|] eqn:Hr; [|by apply elem_of_nil in Hx].
  destruct (He i it r Hi Hr) as [_ Hearlier].
  apply list_elem_of_fmap_2. apply lookup_lt_Some in Hi.
  pose proof (Hearlier x Hx) as Hin.
  apply elem_of_take in Hin as (k & Hk & Hlt).
  apply elem_of_take. exists k. split; [done|lia].
Qed.

(** X8: in every book generated from the table of assets.py each of the
    16 items before Substitute Doll is an ingredient of exactly one
    recipe, Substitute Doll of none, and Banishing Sigil is an ingredient
    of Substitute Doll. *)
Theorem assets_all_used rnd book rnd' :
  create_book ITEMS_BY_INGREDIENTS rnd = Ok (book, rnd') →
  names_of (recipes book ≫= ingredients_of)
    ≡ₚ take 16 (all_names ITEMS_BY_INGREDIENTS) ∧
  ∃ it a, it ∈ recipes book ∧ name it = "Substitute Doll" ∧
          a ∈ ingredients_of it ∧ name a = "Banishing Sigil".
Proof.
  intros Hbook. split; [|by eapply create_book_last_tier].
  pose proof (create_book_inv _ _ _ _ Hbook) as Hinv.
  pose proof (create_book_names _ _ _ _ Hbook) as Hnames.
  pose proof (used_before_last _ _ Hinv) as Hsub.
  assert (length (recipes book) = 17) as Hlen.
  { rewrite <- (length_map name). fold (names_of (recipes book)).
    by rewrite Hnames. }
  rewrite Hlen in Hsub. change (17 - 1) with 16 in Hsub.
  assert (names_of (take 16 (recipes book))
          = take 16 (all_names ITEMS_BY_INGREDIENTS)) as Htake.
  { rewrite <- Hnames. unfold names_of. apply fmap_take. }
  rewrite Htake in Hsub.
  apply submseteq_length_Permutation; [done|].
  unfold names_of. rewrite length_map.
  assert (Forall (λ it, ∀ r, recipe it = Some r → length r = 2) (recipes book))
    as Hlen2.
  { apply Forall_lookup. intros i it Hi r Hr.
    by destruct (inv_earlier _ _ Hinv i it r Hi Hr). }
  rewrite (length_used _ Hlen2).
  fold (possible_orders book).
  assert (length (possible_orders book) = 8) as ->; [|by vm_compute].
  unfold create_book in Hbook. inv_rand. unfold possible_orders. simpl.
  by rewrite (fill_book_orders _ _ _ _ _ _ _ Hm book_inv_nil).
Qed.

Lemma assets_all_used_witness :
  names_of (recipes demo_book ≫= ingredients_of)
    ≡ₚ take 16 (all_names ITEMS_BY_INGREDIENTS) ∧
  ∃ it a, it ∈ recipes demo_book ∧ name it = "Substitute Doll" ∧
          a ∈ ingredients_of it ∧ name a = "Banishing Sigil".
Proof.
  apply (assets_all_used demo_draws demo_book []). by vm_compute.
Defined.

(** ** Game.create_map raises nothing *)

Lemma stock_location_no_raise n : ∀ found its rnd e,
  n ≤ length found → Forall (λ it, recipe it = None) found →
  stock_location n found its rnd ≠ Raise e.
Proof.
  induction n as [|n IH]; intros found its rnd e Hn Hall; cbn [stock_location];
    [done|].
  assert (found ≠ []) as Hne by (destruct found; [simpl in Hn; lia|done]).
  intros [H|(x & rnd1 & Hx & [H|(found1 & rnd2 & Hrm & H)]%bind_Raise)]%bind_Raise.
  - by apply choice_no_raise in H.
  - apply choice_Ok in Hx as [Hin _].
    destruct (list_remove_total x found) as [found1 Hrm];
      [by apply list_elem_of_fmap_2|].
    unfold lift in H. by rewrite Hrm in H.
  - apply choice_Ok in Hx as [Hin _]. apply lift_Ok in Hrm as [Hrm _].
    destruct (list_remove_found _ _ _ Hall Hin Hrm) as [Hp Hall1].
    apply Permutation_length in Hp. simpl in Hp.
    apply IH in H; [done|lia|done].
Qed.

Lemma stock_locations_no_raise per locs : ∀ found rnd e,
  per * length (filter (λ l, loc_name l ≠ "Cauldron") locs) ≤ length found →
  Forall (λ it, recipe it = None) found →
  Forall (λ l, is_Some (MAP_SETUP !! loc_name l)) locs →
  stock_locations locs per found rnd ≠ Raise e.
Proof.
  induction locs as [|loc locs IH]; intros found rnd e Hlen Hall Hmap;
    cbn [stock_locations]; [done|].
  apply Forall_cons in Hmap as [[nb Hnb] Hmap]. rewrite Hnb.
  rewrite filter_cons in Hlen.
  destruct (String.eqb (loc_name loc) "Cauldron") eqn:Ec.
  - apply String.eqb_eq in Ec as Ec'.
    rewrite decide_False in Hlen by (by intros []).
    intros [H|([rest found'] & rnd1 & _ & H)]%bind_Raise; [|done].
    by apply IH in H.
  - apply String.eqb_neq in Ec as Ec'.
    rewrite decide_True in Hlen by done. simpl in Hlen.
    intros [H|([found1 its] & rnd1 & Hm & [H|([rest found'] & rnd2 & _ & H)]%bind_Raise)]%bind_Raise;
      [|apply stock_location_Ok in Hm as (_ & _ & Hf & Hall1); [|done]|done].
    + apply stock_location_no_raise in H; [done|lia|done].
    + apply IH in H; [done|lia|done|done].
Qed.

Lemma reselect_no_raise locs : ∀ rnd sel e,
  sel < length locs → reselect locs sel rnd ≠ Raise e.
Proof.
  induction rnd as [|r rnd IH]; intros sel e Hsel; simpl;
    destruct (lookup_lt_is_Some_2 locs sel Hsel) as [l ->];
    destruct (String.eqb (loc_name l) "Cauldron"); try done.
  apply IH. apply Nat.mod_upper_bound. destruct locs; [simpl in Hsel; lia|done].
Qed.

Lemma stocked_grows locs locs' :
  Forall2 loc_grows locs locs' → stocked locs → stocked locs'.
Proof.
  unfold stocked. induction 1 as [|l l' locs locs' Hg _ IH]; [done|].
  intros [Hl Hrest]%Forall_cons. constructor; [|by apply IH].
  destruct Hg as (Hn & _ & _ & Hi). rewrite Hn. intros Hc.
  destruct (Hl Hc) as [its Hits]. destruct (Hi its Hits) as (its' & -> & _).
  by eexists.
Qed.

Lemma distribute_leftover_no_raise n : ∀ locs found rnd e,
  n ≤ length found → Forall (λ it, recipe it = None) found →
  locs ≠ [] → stocked locs →
  distribute_leftover n locs found rnd ≠ Raise e.
Proof.
  induction n as [|n IH]; intros locs found rnd e Hn Hall Hlocs Hst;
    cbn [distribute_leftover]; [done|].
  assert (found ≠ []) as Hne by (destruct found; [simpl in Hn; lia|done]).
  intros [H|(i0 & rnd1 & Hi0 & H)]%bind_Raise.
  { unfold choice_ix in H. destruct locs; [done|]. by destruct rnd. }
  assert (i0 < length locs) as Hlt.
  { unfold choice_ix in Hi0. destruct locs as [|l0 locs0] eqn:El; [done|].
    destruct rnd as [|r rnd0]; [done|].
    assert (i0 = r mod length (l0 :: locs0)) as -> by congruence.
    by apply Nat.mod_upper_bound. }
  apply bind_Raise in H as [H|(i & rnd2 & Hi & H)].
  { by apply reselect_no_raise in H. }
  pose proof (reselect_Ok _ _ _ _ _ Hi) as (l & Hl & Hname).
  apply bind_Raise in H as [H|(x & rnd3 & Hx & H)].
  { by apply choice_no_raise in H. }
  apply choice_Ok in Hx as [Hin _].
  assert (∃ locs1, append_item locs i x = Ok locs1) as [locs1 Happ].
  { unfold append_item. rewrite Hl. unfold stocked in Hst.
    rewrite Forall_lookup in Hst. destruct (Hst i l Hl Hname) as [its ->].
    by eexists. }
  destruct (list_remove_total x found) as [found1 Hrm];
    [by apply list_elem_of_fmap_2|].
  apply bind_Raise in H as [H|(locs1' & rnd4 & Ha & H)].
  { unfold lift in H. by rewrite Happ in H. }
  apply lift_Ok in Ha as [Ha _]. rewrite Happ in Ha. injection Ha as <-.
  apply bind_Raise in H as [H|(found1' & rnd5 & Hr & H)].
  { unfold lift in H. by rewrite Hrm in H. }
  apply lift_Ok in Hr as [Hr _]. rewrite Hrm in Hr. injection Hr as <-.
  destruct (append_item_Ok _ _ _ _ Happ (ex_intro _ l (conj Hl Hname))) as [Hg _].
  destruct (list_remove_found _ _ _ Hall Hin Hrm) as [Hp Hall1].
  apply Permutation_length in Hp. simpl in Hp.
  apply IH in H; [done|lia|done| |by eapply stocked_grows].
  apply Forall2_length in Hg. destruct locs1; [|done].
  destruct locs; [done|simpl in Hg; lia].
Qed.

Lemma stocked_after_stock per locs locs1 :
  Forall2 (loc_stocked per) locs locs1 → stocked locs1.
Proof.
  unfold stocked. induction 1 as [|l l1 locs locs1 Hs _ IH]; [done|].
  constructor; [|done]. destruct Hs as (Hn & _ & Hi). rewrite Hn. intros Hc.
  apply String.eqb_neq in Hc. rewrite Hc in Hi.
  destruct Hi as (its & -> & _). by eexists.
Qed.

(** X9: [create_map] raises no exception, whatever the book and the
    draws; and for every book it returns when all draws are 1, having
    consumed [5 * (F / 5) + 2 * (F mod 5)] of them ([F] found items). *)
Theorem create_map_safe (b : RecipeBook) :
  (∀ rnd e, create_map b rnd ≠ Raise e) ∧
  (∀ rest, ∃ locs,
     create_map b
       (replicate (5 * (length (found_items_of b) / 5)
                   + 2 * (length (found_items_of b) mod 5)) 1 ++ rest)
     = Ok (locs, rest)).
Proof.
  split; [|apply create_map_returns].
  intros rnd e. unfold create_map.
  change (length [Cauldron; Swamp; Forest; Town; Cave; Graveyard] - 1) with 5.
  pose proof (found_items_of_found b) as Hall.
  pose proof (Nat.div_mod_eq (length (found_items_of b)) 5) as Hdm.
  intros [H|([locs1 found1] & rnd1 & Hm & H)]%bind_Raise.
  - apply stock_locations_no_raise in H; [done| |done|].
    + change (length (filter _ _)) with 5. lia.
    + apply (bool_decide_unpack _). by vm_compute.
  - apply stock_locations_Ok in Hm as (Hs & _ & Hlen & Hall1);
      [|done|by repeat constructor].
    change (length (filter _ _)) with 5 in Hlen.
    apply bind_Raise in H as [H|([locs2 found2] & rnd2 & _ & H)]; [|done].
    apply distribute_leftover_no_raise in H; [done|lia|done| |].
    + apply Forall2_length in Hs. by destruct locs1.
    + by eapply stocked_after_stock.
Qed.

Lemma create_map_safe_witness :
  ∃ locs, create_map demo_book (replicate 13 1 ++ [7]) = Ok (locs, [7]).
Proof. exact (proj2 (create_map_safe demo_book) [7]). Defined.

(** ** Points and wait time of a new customer *)

Lemma randrange_steps start stop step rnd x rnd' :
  (0 < step)%Z → (start < stop)%Z →
  randrange start stop step rnd = Ok (x, rnd') →
  ∃ k, (0 ≤ k < (stop - start + step - 1) `div` step)%Z ∧
       x = (start + step * k)%Z.
Proof.
  unfold randrange. intros Hstep Hlt. destruct rnd as [|r rnd]; [done|].
  intros [= <- <-]. eexists. split; [|done].
  apply Z.mod_pos_bound. apply Z.div_str_pos. lia.
Qed.

Lemma price_order_assets o rnd p w rnd' :
  price_order ITEMS_BY_INGREDIENTS o None rnd = Ok ((p, w), rnd') →
  match tier_of ITEMS_BY_INGREDIENTS (name o) with
  | Some 1 => (5 ≤ p ≤ 10)%Z ∧ ∃ k, (0 ≤ k < 6)%Z ∧ w = (45 + 5 * k)%Z
  | Some 2 => (10 ≤ p ≤ 30)%Z ∧ ∃ k, (0 ≤ k < 12)%Z ∧ w = (60 + 5 * k)%Z
  | Some 3 => (30 ≤ p ≤ 75)%Z ∧ ∃ k, (0 ≤ k < 6)%Z ∧ w = (120 + 10 * k)%Z
  | _ => False
  end.
Proof.
  unfold price_order.
  change (tier_names _ "BASIC") with (Some ["Goodberry"; "Antidote"; "Evil Eye"]).
  change (tier_names _ "INTERMEDIATE")
    with (Some ["Health Potion"; "Awakening"; "Amulet"]).
  change (tier_names _ "ADVANCED") with (Some ["Banishing Sigil"; "Substitute Doll"]).
  cbv iota beta.
  case_bool_decide as H1.
  { intros Hrun. inv_rand.
    apply randint_Ok in Hm as [Hp _]; [|lia].
    apply randrange_steps in Hm0 as Hw; [|lia..].
    repeat (apply elem_of_cons in H1 as [->|H1]; [by vm_compute|]).
    by apply elem_of_nil in H1. }
  case_bool_decide as H2.
  { intros Hrun. inv_rand.
    apply randint_Ok in Hm as [Hp _]; [|lia].
    apply randrange_steps in Hm0 as Hw; [|lia..].
    repeat (apply elem_of_cons in H2 as [->|H2]; [by vm_compute|]).
    by apply elem_of_nil in H2. }
  case_bool_decide as H3; [|done].
  intros Hrun. inv_rand.
  apply randint_Ok in Hm as [Hp _]; [|lia].
  apply randrange_steps in Hm0 as Hw; [|lia..].
  repeat (apply elem_of_cons in H3 as [->|H3]; [by vm_compute|]).
  by apply elem_of_nil in H3.
Qed.

(** X10: with the table of assets.py, the customer [update_customer]
    puts in the slot has points and wait time of the ranges of the tier
    of its order: basic 5..10 points and 45, 50, .., 70 seconds,
    intermediate 10..30 and 60, 65, .., 115, advanced 30..75 and 120,
    130, .., 170. *)
Theorem update_customer_prices g customer now rnd g' rnd' :
  update_customer ITEMS_BY_INGREDIENTS g customer now rnd = Ok (g', rnd') →
  ∃ c', customers g' !! cust_name customer = Some c' ∧
        order c' ∈ possible_orders (book g) ∧
        match tier_of ITEMS_BY_INGREDIENTS (name (order c')) with
        | Some 1 => (5 ≤ points c' ≤ 10)%Z ∧
                    ∃ k, (0 ≤ k < 6)%Z ∧ waittime c' = (45 + 5 * k)%Z
        | Some 2 => (10 ≤ points c' ≤ 30)%Z ∧
                    ∃ k, (0 ≤ k < 12)%Z ∧ waittime c' = (60 + 5 * k)%Z
        | Some 3 => (30 ≤ points c' ≤ 75)%Z ∧
                    ∃ k, (0 ≤ k < 6)%Z ∧ waittime c' = (120 + 10 * k)%Z
        | _ => False
        end.
Proof.
  unfold update_customer. intros H. inv_rand.
  apply choice_Ok in Hm as [Ho _]. destruct a0 as [p w].
  apply price_order_assets in Hm0.
  case_bool_decide as Hslot; [|done]. inv_rand.
  eexists. split; [by apply list_lookup_insert_eq|]. by split.
Qed.

Lemma update_customer_prices_witness :
  ∃ c', customers demo_shop !! 1 = Some c' ∧
        order c' ∈ possible_orders (book demo_shop) ∧
        match tier_of ITEMS_BY_INGREDIENTS (name (order c')) with
        | Some 1 => (5 ≤ points c' ≤ 10)%Z ∧
                    ∃ k, (0 ≤ k < 6)%Z ∧ waittime c' = (45 + 5 * k)%Z
        | Some 2 => (10 ≤ points c' ≤ 30)%Z ∧
                    ∃ k, (0 ≤ k < 12)%Z ∧ waittime c' = (60 + 5 * k)%Z
        | Some 3 => (30 ≤ points c' ≤ 75)%Z ∧
                    ∃ k, (0 ≤ k < 6)%Z ∧ waittime c' = (120 + 10 * k)%Z
        | _ => False
        end.
Proof.
  exact (update_customer_prices demo_shop demo_customer (demo_clock 1) [0; 5; 0]
           demo_shop [] eq_refl).
Defined.

Lemma update_customer_kept tbl g customer now rnd g' rnd' :
  update_customer tbl g customer now rnd = Ok (g', rnd') →
  player g' = player g ∧ locations g' = locations g ∧ book g' = book g ∧
  length (customers g') = length (customers g) ∧
  (∀ j, j ≠ cust_name customer → customers g' !! j = customers g !! j) ∧
  (slots_named (customers g) → slots_named (customers g')) ∧
  ∃ r1 r2 r3, rnd = r1 :: r2 :: r3 :: rnd'.
Proof.
  unfold update_customer. intros H. inv_rand.
  apply choice_Ok in Hm as [Ho [r1 ->]]. destruct a0 as [p w].
  apply price_order_Ok in Hm0 as (_ & _ & _ & r2 & r3 & ->).
  case_bool_decide as Hslot; [|done]. inv_rand. simpl.
  split_and!; try done.
  - apply length_insert.
  - intros j Hj. by apply list_lookup_insert_ne.
  - intros Hnamed k c Hk.
    destruct (decide (k = cust_name customer)) as [->|Hne].
    + rewrite list_lookup_insert_eq in Hk by done. by injection Hk as <-.
    + rewrite list_lookup_insert_ne in Hk by done. by apply Hnamed.
  - by exists r1, r2, r3.
Qed.

(** X11: [update_customer] consumes three draws and changes nothing but
    the slot the customer is named after: player, locations, book and
    the other slots are as before, the number of slots is the same, and
    when every customer is named after its position this is so afterwards. *)
Theorem update_customer_frame tbl g customer now rnd g' rnd' :
  update_customer tbl g customer now rnd = Ok (g', rnd') →
  player g' = player g ∧ locations g' = locations g ∧ book g' = book g ∧
  length (customers g') = length (customers g) ∧
  (∀ j, j ≠ cust_name customer → customers g' !! j = customers g !! j) ∧
  (slots_named (customers g) → slots_named (customers g')) ∧
  ∃ r1 r2 r3, rnd = r1 :: r2 :: r3 :: rnd'.
Proof. apply update_customer_kept. Qed.

Lemma update_customer_frame_witness :
  player demo_shop_next = player demo_shop ∧
  locations demo_shop_next = locations demo_shop ∧
  book demo_shop_next = book demo_shop ∧
  length (customers demo_shop_next) = length (customers demo_shop) ∧
  (∀ j, j ≠ cust_name demo_customer →
        customers demo_shop_next !! j = customers demo_shop !! j) ∧
  (slots_named (customers demo_shop) → slots_named (customers demo_shop_next)) ∧
  ∃ r1 r2 r3, [3; 2; 1] = r1 :: r2 :: r3 :: [].
Proof.
  exact (update_customer_frame ITEMS_BY_INGREDIENTS demo_shop demo_customer
           (inject_Z 1100) [3; 2; 1] demo_shop_next [] eq_refl).
Defined.

(** ** Player.deliver_order: exceptions and the score *)




(** X13: when no customer of the game offers negative points, a
    delivery to one of them does not lower the score, and afterwards
    again no customer offers negative points (the new one offers 5 to
    75). *)
Theorem deliver_order_score tbl g item customer now rnd g' rnd' :
  Forall (λ c, (0 ≤ points c)%Z) (customers g) →
  customer ∈ customers g →
  deliver_order tbl g item customer now rnd = Ok (g', rnd') →
  (score (player g) ≤ score (player g'))%Z ∧
  Forall (λ c, (0 ≤ points c)%Z) (customers g').
Proof.
  intros Hall Hc Hrun. rewrite Forall_forall in Hall.
  pose proof (Hall customer Hc) as Hp.
  unfold deliver_order in Hrun. inv_rand. apply lift_Ok in Hm as [_ ->].
  apply update_customer_Ok in Hk as (o & p & w & -> & _ & _ & Hpr & _).
  simpl. split.
  - unfold give_points. destruct (item_eq item (order customer)); lia.
  - apply Forall_insert; [by apply Forall_forall|]. simpl. lia.
Qed.

Lemma deliver_order_score_witness :
  ∃ g', deliver_order ITEMS_BY_INGREDIENTS demo_shop demo_goodberry demo_customer
          (inject_Z 1100) [0; 0; 0] = Ok (g', []) ∧
        (score (player demo_shop) ≤ score (player g'))%Z ∧
        Forall (λ c, (0 ≤ points c)%Z) (customers g').
Proof.
  eexists. split; [by vm_compute|].
  eapply (deliver_order_score ITEMS_BY_INGREDIENTS demo_shop demo_goodberry
            demo_customer (inject_Z 1100) [0; 0; 0] _ []).
  - apply (bool_decide_unpack _). by vm_compute.
  - by eapply (list_elem_of_lookup_2 _ 1).
  - by vm_compute.
Defined.

(** ** Game.setup *)

Lemma get_location_inv locs n l :
  get_location locs n = Ok l → l ∈ locs ∧ loc_name l = n.
Proof.
  unfold get_location.
  destruct (last (filter (λ l, loc_name l = n) locs)) as [l'|] eqn:E; [|done].
  intros [= <-]. apply last_Some_elem_of in E.
  by apply list_elem_of_filter in E as [? ?].
Qed.

(** X14: the game [setup] returns has the book of [create_book] and the
    map of [create_map] on it; the player stands at the Cauldron of that
    map, which has no items list, with an empty inventory and score 0;
    there are four customers, each named after its position, with an
    order the book offers and time left at the reading it was created at. *)
Theorem setup_initial tbl clock rnd g rnd' :
  setup tbl clock rnd = Ok (g, rnd') →
  (∃ rnd1 rnd2, create_book tbl rnd = Ok (book g, rnd1) ∧
                create_map (book g) rnd1 = Ok (locations g, rnd2)) ∧
  loc_name (location (player g)) = "Cauldron" ∧
  location (player g) ∈ locations g ∧
  items (location (player g)) = None ∧
  inventory (player g) = [] ∧ score (player g) = 0%Z ∧
  length (customers g) = 4 ∧ slots_named (customers g) ∧
  ∀ k c, customers g !! k = Some c →
         order c ∈ possible_orders (book g) ∧ maketime c = clock k ∧
         (0 < waittime c)%Z ∧ is_expired c (clock k) = false.
Proof.
  unfold setup. intros H. inv_rand.
  apply lift_Ok in Hm1 as [Hp ->].
  unfold create_player in Hp.
  match type of Hp with
  | result_bind ?r _ = _ => destruct r as [l| |] eqn:Hl; try done
  end.
  simpl in Hp. injection Hp as <-.
  apply get_location_inv in Hl as [Hin Hname].
  unfold create_customers in Hm2.
  apply create_customers_loop_Ok in Hm2 as (new & -> & Hnew); [|done].
  simpl. split_and!; try done.
  - by eexists _, _.
  - destruct (create_map_Ok _ _ _ _ Hm0) as [Hf _].
    apply list_elem_of_lookup in Hin as [i Hi].
    destruct (Forall2_lookup_r _ _ _ _ _ Hf Hi) as (n & _ & Hn & _ & Hitems).
    rewrite <- Hn, Hname in Hitems. done.
  - apply Forall2_length in Hnew. by rewrite length_seq in Hnew.
  - intros k c Hk.
    destruct (Forall2_lookup_r _ _ _ _ _ Hnew Hk) as (j & Hj & Hn & _).
    apply lookup_seq in Hj as [Hj _]. simpl in Hj. congruence.
  - intros k c Hk.
    destruct (Forall2_lookup_r _ _ _ _ _ Hnew Hk) as (j & Hj & Hn & Hmk & Hw & Ho).
    apply lookup_seq in Hj as [Hj _]. simpl in Hj. subst j.
    split_and!; try done. rewrite <- Hmk. by apply fresh_not_expired.
Qed.

Lemma setup_initial_witness :
  (∃ rnd1 rnd2,
     create_book ITEMS_BY_INGREDIENTS
       (demo_draws ++ [0; 1; 2; 3; 4; 5; 6; 7; 8; 9; 10; 11; 12; 13; 14; 15;
                       16; 17; 18; 19; 20; 21; 22; 23; 24; 25; 26])
     = Ok (book demo_game, rnd1) ∧
     create_map (book demo_game) rnd1 = Ok (locations demo_game, rnd2)) ∧
  loc_name (location (player demo_game)) = "Cauldron" ∧
  location (player demo_game) ∈ locations demo_game ∧
  items (location (player demo_game)) = None ∧
  inventory (player demo_game) = [] ∧ score (player demo_game) = 0%Z ∧
  length (customers demo_game) = 4 ∧ slots_named (customers demo_game) ∧
  ∀ k c, customers demo_game !! k = Some c →
         order c ∈ possible_orders (book demo_game) ∧ maketime c = demo_clock k ∧
         (0 < waittime c)%Z ∧ is_expired c (demo_clock k) = false.
Proof.
  apply (setup_initial ITEMS_BY_INGREDIENTS demo_clock _ demo_game [25; 26]).
  by vm_compute.
Defined.

(** ** The loop of Menu.refresh_logic over the customers *)

Lemma check_customer_frame tbl g k now now' rnd g' rnd' :
  check_customer tbl g k now now' rnd = Ok (g', rnd') →
  player g' = player g ∧ locations g' = locations g ∧ book g' = book g ∧
  length (customers g') = length (customers g) ∧
  (slots_named (customers g) →
   slots_named (customers g') ∧
   ∀ j, j ≠ k → customers g' !! j = customers g !! j).
Proof.
  unfold check_customer. destruct (customers g !! k) as [c|] eqn:Hc.
  - destruct (is_expired c now).
    + intros (Hp & Hl & Hb & Hlen & Hother & Hnamed & _)%update_customer_kept.
      split_and!; try done. intros Hs. split; [by apply Hnamed|].
      intros j Hj. apply Hother. by rewrite (Hs k c Hc).
    + intros H. by inv_rand.
  - intros H. by inv_rand.
Qed.

Lemma check_customers_seq tbl clock clock' n : ∀ i g rnd g' rnd',
  slots_named (customers g) →
  check_customers tbl g (seq i n) clock clock' rnd = Ok (g', rnd') →
  player g' = player g ∧ locations g' = locations g ∧ book g' = book g ∧
  length (customers g') = length (customers g) ∧
  slots_named (customers g') ∧
  (∀ k, k < i ∨ i + n ≤ k → customers g' !! k = customers g !! k) ∧
  (∀ k c, i ≤ k < i + n → customers g !! k = Some c →
          if is_expired c (clock k)
          then ∃ c', customers g' !! k = Some c' ∧ maketime c' = clock' k ∧
                     is_expired c' (clock' k) = false
          else customers g' !! k = Some c).
Proof.
  induction n as [|n IH]; intros i g rnd g' rnd' Hs; cbn [seq check_customers].
  - intros H. inv_rand. split_and!; try done. intros k c Hk. lia.
  - intros H. inv_rand.
    destruct (check_customer_frame _ _ _ _ _ _ _ _ Hm)
      as (Hp1 & Hl1 & Hb1 & Hlen1 & Hrest).
    destruct (Hrest Hs) as [Hs1 Hother1].
    destruct (IH _ _ _ _ _ Hs1 Hk) as (Hp & Hl & Hb & Hlen & Hs' & Hout & Hin).
    split_and!; try congruence; try done.
    + intros k Hk'. rewrite Hout by lia. apply Hother1. lia.
    + intros k c Hk' Hc. destruct (decide (k = i)) as [->|Hne].
      * rewrite Hout by lia.
        pose proof (check_customer_Ok _ _ _ _ _ _ _ _ _ Hm Hc) as Hchk.
        destruct (is_expired c (clock i)).
        -- destruct Hchk as (c' & Hcs & Hslot & _ & Hmk & Hw).
           exists c'. rewrite Hcs, (Hs i c Hc).
           split_and!; [|done|].
           ++ apply list_lookup_insert_eq. by eapply lookup_lt_Some.
           ++ rewrite <- Hmk. by apply fresh_not_expired.
        -- destruct Hchk as [-> _]. done.
      * apply Hin; [lia|]. rewrite Hother1 by done. done.
Qed.

(** X15: one pass of the loop of [refresh_logic] over customers that are
    named after their positions replaces exactly the customers whose
    time has run out at the reading of their test, each by a customer
    with time left; the others, the player, the locations and the book
    stay as they are. *)
Theorem check_customers_pass tbl g clock clock' rnd g' rnd' :
  slots_named (customers g) →
  check_customers tbl g (seq 0 (length (customers g))) clock clock' rnd
  = Ok (g', rnd') →
  player g' = player g ∧ locations g' = locations g ∧ book g' = book g ∧
  length (customers g') = length (customers g) ∧
  slots_named (customers g') ∧
  ∀ k c, customers g !! k = Some c →
         if is_expired c (clock k)
         then ∃ c', customers g' !! k = Some c' ∧ maketime c' = clock' k ∧
                    is_expired c' (clock' k) = false
         else customers g' !! k = Some c.
Proof.
  intros Hs Hrun.
  destruct (check_customers_seq _ _ _ _ _ _ _ _ _ Hs Hrun)
    as (Hp & Hl & Hb & Hlen & Hs' & _ & Hin).
  split_and!; try done. intros k c Hc. apply Hin; [|done].
  apply lookup_lt_Some in Hc. lia.
Qed.

Lemma demo_game_slots_named : slots_named (customers demo_game).
Proof.
  intros k c Hk. do 4 (destruct k as [|k]; [by injection Hk as <-|]). done.
Qed.

Lemma check_customers_pass_witness :
  player demo_refreshed = player demo_game ∧
  locations demo_refreshed = locations demo_game ∧
  book demo_refreshed = book demo_game ∧
  length (customers demo_refreshed) = length (customers demo_game) ∧
  slots_named (customers demo_refreshed) ∧
  ∀ k c, customers demo_game !! k = Some c →
         if is_expired c (inject_Z 1050)
         then ∃ c', customers demo_refreshed !! k = Some c' ∧
                    maketime c' = inject_Z 1051 ∧
                    is_expired c' (inject_Z 1051) = false
         else customers demo_refreshed !! k = Some c.
Proof.
  apply (check_customers_pass ITEMS_BY_INGREDIENTS demo_game
           (λ _, inject_Z 1050) (λ _, inject_Z 1051) [4; 7; 2] demo_refreshed []).
  - exact demo_game_slots_named.
  - by vm_compute.
Defined.

(** ** Moving there and back *)

Lemma MAP_SETUP_symmetric a nb d b :
  MAP_SETUP !! a = Some nb → nb !! d = Some b →
  MAP_SETUP !! b ≫= (.!! opposite d) = Some a.
Proof.
  intros Ha Hd.
  assert (map_Forall (λ a nb, map_Forall (λ d b,
            MAP_SETUP !! b ≫= (.!! opposite d) = Some a) nb) MAP_SETUP) as H
    by (apply (bool_decide_unpack _); by vm_compute).
  by apply (H a nb Ha d b).
Qed.

Lemma get_location_unique b rnd locs rnd' l :
  create_map b rnd = Ok (locs, rnd') → l ∈ locs →
  get_location locs (loc_name l) = Ok l.
Proof.
  intros Hmap Hl. pose proof (created_map_names _ _ _ _ Hmap) as Hnames.
  assert (NoDup (map loc_name locs)) as Hnd.
  { rewrite Hnames. apply (bool_decide_unpack _). by vm_compute. }
  unfold get_location.
  by rewrite (filter_key_unique loc_name _ locs l Hnd Hl eq_refl).
Qed.

Lemma relocate_back g l : relocate (relocate g l) (location (player g)) = g.
Proof. by destruct g as [[? ? ? ?] ? ? ?]. Qed.

(** X16: on a map made by [create_map], a move in a direction the
    location declares leads to the declared neighbor, and the move in
    the opposite direction from there leads back: the game is as before. *)
Theorem move_back b rnd rnd' (g : Game) (direction next : string) :
  create_map b rnd = Ok (locations g, rnd') →
  location (player g) ∈ locations g →
  MAP_SETUP !! loc_name (location (player g)) ≫= (.!! direction) = Some next →
  ∃ g', move g direction = Ok g' ∧ loc_name (location (player g')) = next ∧
        move g' (opposite direction) = Ok g.
Proof.
  intros Hmap Hin Hnext.
  destruct (created_map_neighbors _ _ _ _ _ Hmap Hin) as [Hnb Hname].
  destruct (MAP_SETUP !! loc_name (location (player g))) as [nb|] eqn:Hm;
    [|done]. simpl in Hnext.
  destruct (move_declared g direction nb next Hnb Hnext) as (l & Hl & Hln & Hmove).
  { eapply created_map_has; [done|]. by eapply MAP_SETUP_closed. }
  exists (relocate g l). split_and!; try done.
  pose proof (MAP_SETUP_symmetric _ _ _ _ Hm Hnext) as Hsym.
  destruct (created_map_neighbors _ _ _ _ _ Hmap Hl) as [Hnbl _].
  rewrite Hln in Hnbl.
  destruct (MAP_SETUP !! next) as [nb'|] eqn:Hm'; [|done]. simpl in Hsym.
  unfold move. cbn [relocate set_player player location locations].
  rewrite Hnbl, Hsym.
  rewrite (get_location_unique _ _ _ _ _ Hmap Hin). simpl.
  f_equal. apply relocate_back.
Qed.

Lemma move_back_witness :
  ∃ g', move demo_at_swamp "E" = Ok g' ∧
        loc_name (location (player g')) = "Forest" ∧
        move g' (opposite "E") = Ok demo_at_swamp.
Proof.
  apply (move_back demo_book [0; 1; 2; 3; 4; 5; 6; 7; 8; 9; 10; 11; 12] []
           demo_at_swamp "E" "Forest").
  - by vm_compute.
  - by eapply (list_elem_of_lookup_2 _ 1).
  - reflexivity.
Defined.

(** ** Player.trash on objects *)

Lemma remove_ref_first st x l1 e l2 :
  Forall (λ e', obj_eq st e' x = false) l1 → obj_eq st e x = true →
  remove_ref st x (l1 ++ e :: l2) = Ok (l1 ++ l2).
Proof.
  induction 1 as [|e' l1 He' Hl1 IH]; intros He; simpl.
  - by rewrite He.
  - rewrite He'. by rewrite (IH He).
Qed.

Lemma remove_ref_missing st x l :
  Forall (λ e, obj_eq st e x = false) l → remove_ref st x l = Raise ValueError.
Proof.
  induction 1 as [|e l He Hl IH]; simpl; [done|]. by rewrite He, IH.
Qed.

(** X17: [trash] takes out of the inventory the first entry that is the
    object given or has its name, and nothing else; when there is no
    such entry it raises [ValueError]. *)
Theorem trash_first_equal (w : World) (item : nat) :
  (∀ l1 e l2,
     w_inventory w = l1 ++ e :: l2 →
     Forall (λ e', obj_eq (w_store w) e' item = false) l1 →
     obj_eq (w_store w) e item = true →
     trash w item
     = Ok (mkWorld (w_store w) (w_recipes w) (w_locations w) (l1 ++ l2))) ∧
  (Forall (λ e, obj_eq (w_store w) e item = false) (w_inventory w) →
   trash w item = Raise ValueError).
Proof.
  split.
  - intros l1 e l2 Hinv Hl1 He. unfold trash.
    by rewrite Hinv, (remove_ref_first _ _ _ _ _ Hl1 He).
  - intros Hall. unfold trash. by rewrite (remove_ref_missing _ _ _ Hall).
Qed.

Lemma trash_first_equal_witness :
  trash (mkWorld (w_store demo_world) [0; 1; 2] (w_locations demo_world) [2; 1; 0; 1]) 1
  = Ok (mkWorld (w_store demo_world) [0; 1; 2] (w_locations demo_world)
          ([2] ++ [0; 1])).
Proof.
  apply (proj1 (trash_first_equal
                  (mkWorld (w_store demo_world) [0; 1; 2] (w_locations demo_world)
                     [2; 1; 0; 1]) 1) [2] 1 [0; 1]).
  - reflexivity.
  - apply (bool_decide_unpack _). by vm_compute.
  - reflexivity.
Defined.

(** X18: when no entry of the inventory has the name of the item picked
    up, trashing the copy undoes the pickup: the inventory is as before
    (the store keeps the copy).  With an entry of that name in the
    inventory, [trash] takes that older entry and the copy stays last. *)
Theorem pickup_then_trash (w : World) (item fuel : nat) :
  wf_store (w_store w) = true →
  item < length (w_store w) → item < fuel →
  Forall (λ e, e < length (w_store w)) (w_inventory w) →
  ∃ w' y,
    pickup fuel w item = Some w' ∧ w_inventory w' = w_inventory w ++ [y] ∧
    (Forall (λ e, obj_eq (w_store w) e item = false) (w_inventory w) →
     trash w' y
     = Ok (mkWorld (w_store w') (w_recipes w) (w_locations w) (w_inventory w))) ∧
    (∀ l1 e l2,
       w_inventory w = l1 ++ e :: l2 →
       Forall (λ e', obj_eq (w_store w) e' item = false) l1 →
       obj_eq (w_store w) e item = true →
       trash w' y
       = Ok (mkWorld (w_store w') (w_recipes w) (w_locations w)
               (l1 ++ l2 ++ [y]))).
Proof.
  intros Hwf Hitem Hfuel Hvalid.
  destruct (deepcopy_correct (w_store w) Hwf fuel (w_store w) ∅ item)
    as (st' & memo' & y & Hrun & Hpre & _ & Hcopy); try done.
  unfold pickup. rewrite Hrun. eexists _, y. split; [done|].
  cbn [w_store w_inventory w_locations w_recipes]. split; [done|].
  destruct Hcopy as (o & o' & Ho & Ho' & Hfresh & Hname & _).
  (* an old entry is equal to the copy exactly when it is equal to the item *)
  assert (∀ e, e < length (w_store w) →
               obj_eq st' e y = obj_eq (w_store w) e item) as Heq.
  { intros e He. unfold obj_eq.
    destruct (lookup_lt_is_Some_2 _ e He) as [oe Hoe].
    rewrite (prefix_lookup_Some _ _ _ _ Hoe Hpre), Hoe, Ho, Ho', Hname.
    rewrite bool_decide_eq_false_2 by lia. simpl.
    destruct (decide (e = item)) as [->|Hne].
    - rewrite bool_decide_eq_true_2 by done. simpl.
      assert (oe = o) as -> by congruence. by rewrite String.eqb_refl.
    - by rewrite bool_decide_eq_false_2. }
  rewrite Forall_forall in Hvalid.
  split.
  - intros Hall. unfold trash. cbn [w_store w_inventory w_locations w_recipes].
    rewrite <- (app_nil_r (w_inventory w)) at 2.
    rewrite (remove_ref_first st' y (w_inventory w) y []);
      [done| |apply obj_eq_refl].
    apply Forall_forall. intros e He. rewrite Heq by (by apply Hvalid).
    rewrite Forall_forall in Hall. by apply Hall.
  - intros l1 e l2 Hinv Hl1 He. unfold trash.
    cbn [w_store w_inventory w_locations w_recipes].
    rewrite Hinv, <- app_assoc. simpl.
    rewrite (remove_ref_first st' y l1 e (l2 ++ [y])); [done| |].
    + apply Forall_forall. intros e' He'. rewrite Heq.
      * rewrite Forall_forall in Hl1. by apply Hl1.
      * apply Hvalid. rewrite Hinv. apply elem_of_app. by left.
    + rewrite Heq; [done|]. apply Hvalid. rewrite Hinv.
      apply elem_of_app. right. apply list_elem_of_here.
Qed.

Lemma pickup_then_trash_witness :
  ∃ w' y,
    pickup 3 demo_world 1 = Some w' ∧
    w_inventory w' = w_inventory demo_world ++ [y] ∧
    (Forall (λ e, obj_eq (w_store demo_world) e 1 = false)
       (w_inventory demo_world) →
     trash w' y
     = Ok (mkWorld (w_store w') (w_recipes demo_world) (w_locations demo_world)
             (w_inventory demo_world))) ∧
    (∀ l1 e l2,
       w_inventory demo_world = l1 ++ e :: l2 →
       Forall (λ e', obj_eq (w_store demo_world) e' 1 = false) l1 →
       obj_eq (w_store demo_world) e 1 = true →
       trash w' y
       = Ok (mkWorld (w_store w') (w_recipes demo_world)
               (w_locations demo_world) (l1 ++ l2 ++ [y]))).
Proof.
  apply (pickup_then_trash demo_world 1 3).
  - reflexivity.
  - simpl. lia.
  - lia.
  - apply (bool_decide_unpack _). by vm_compute.
Defined.

(** ** How many items a location can hold *)

Lemma found_or_order (b : RecipeBook) :
  length (found_items_of b) + length (possible_orders b) = length (recipes b).
Proof.
  unfold found_items_of, possible_orders.
  induction (recipes b) as [|it rs IH]; [done|].
  rewrite !filter_cons. destruct (recipe it) as [r|] eqn:Hr.
  - rewrite decide_False by done. rewrite decide_True by done. simpl. lia.
  - rewrite decide_True by done. rewrite decide_False by (by intros [? ?]).
    simpl. lia.
Qed.

Lemma assets_found_count rnd book rnd' :
  create_book ITEMS_BY_INGREDIENTS rnd = Ok (book, rnd') →
  length (found_items_of book) = 9.
Proof.
  intros Hbook. pose proof (found_or_order book) as Hsum.
  pose proof (create_book_names _ _ _ _ Hbook) as Hnames.
  assert (length (recipes book) = 17) as Hlen.
  { rewrite <- (length_map name). fold (names_of (recipes book)).
    by rewrite Hnames. }
  assert (length (possible_orders book) = 8) as Hc.
  { unfold create_book in Hbook. inv_rand. unfold possible_orders. simpl.
    by rewrite (fill_book_orders _ _ _ _ _ _ _ Hm book_inv_nil). }
  lia.
Qed.

(** X19: after [create_map] no location holds more than
    [F / 5 + F mod 5] items ([F] found items); on a book generated from
    assets.py that is at most 5, so every item of a location has a digit
    of its own in the pickup prompt, below the 9 that cancels. *)
Theorem create_map_at_most b rnd locs rnd' (l : Location) :
  create_map b rnd = Ok (locs, rnd') → l ∈ locs →
  length (items_at l)
    ≤ length (found_items_of b) / 5 + length (found_items_of b) mod 5 ∧
  (∀ rnd0 rnd1, create_book ITEMS_BY_INGREDIENTS rnd0 = Ok (b, rnd1) →
                length (items_at l) ≤ 5).
Proof.
  intros Hmap Hl.
  assert (length (items_at l)
          ≤ length (found_items_of b) / 5 + length (found_items_of b) mod 5)
    as Hmost.
  { destruct (create_map_Ok _ _ _ _ Hmap) as [Hf Hp].
    apply Permutation_length in Hp.
    pose proof (Nat.div_mod_eq (length (found_items_of b)) 5) as Hdm.
    set (per := length (found_items_of b) / 5) in *.
    unfold location_names in Hf.
    repeat match goal with
           | H : Forall2 _ (_ :: _) _ |- _ =>
               apply Forall2_cons_inv_l in H as (? & ? & ? & H & ->)
           | H : Forall2 _ [] _ |- _ => apply Forall2_nil_inv_l in H as ->
           end.
    repeat match goal with
           | H : loc_final _ _ _ |- _ => destruct H as (_ & _ & H); simpl in H
           end.
    repeat match goal with
           | H : ∃ its, _ |- _ => destruct H as (? & ? & ?)
           end.
    rewrite !bind_cons, !length_app in Hp. cbn [mbind list_bind length] in Hp.
    unfold items_at in *.
    repeat match goal with
           | H : items _ = _ |- _ => rewrite H in Hp
           end.
    unfold default in *. cbn [from_option length id] in Hp.
    repeat (apply elem_of_cons in Hl as [->|Hl]);
      [| | | | | |by apply elem_of_nil in Hl];
      match goal with
      | H : items ?l = _ |- context [items ?l] => rewrite H
      end; cbn [from_option length id]; lia. }
  split; [done|]. intros rnd0 rnd1 Hbook.
  rewrite (assets_found_count _ _ _ Hbook) in Hmost. exact Hmost.
Qed.

Lemma create_map_at_most_witness :
  length (items_at (location (player demo_at_swamp)))
    ≤ length (found_items_of demo_book) / 5
      + length (found_items_of demo_book) mod 5 ∧
  (∀ rnd0 rnd1,
     create_book ITEMS_BY_INGREDIENTS rnd0 = Ok (demo_book, rnd1) →
     length (items_at (location (player demo_at_swamp))) ≤ 5).
Proof.
  apply (create_map_at_most demo_book [0; 1; 2; 3; 4; 5; 6; 7; 8; 9; 10; 11; 12]
           (locations demo_game) []).
  - by vm_compute.
  - apply (list_elem_of_lookup_2 _ 1). by vm_compute.
Defined.

(** * The menu and what it shows *)

(** ** The pages of the recipe book *)

Lemma recipe_line_generated tbl rnd book rnd' (n : string) :
  NoDup (all_names tbl) →
  create_book tbl rnd = Ok (book, rnd') →
  n ∈ all_names tbl → is_found tbl n = false →
  ∃ it a b, it ∈ recipes book ∧ name it = n ∧ recipe it = Some [a; b] ∧
            mix book [a; b] = Some it ∧
            recipe_line book n
            = Done (n ++ " = " ++ name a ++ " + " ++ name b)%string.
Proof.
  intros Hnd Hbook Hn Hf.
  pose proof (create_book_names _ _ _ _ Hbook) as Hnames.
  destruct (create_book_Ok _ _ _ _ Hbook Hnd) as [[_ _ He] Ht].
  unfold names_of in Hnames. rewrite <- Hnames in Hn, Hnd.
  apply list_elem_of_fmap in Hn as (it & -> & Hit).
  assert (get_item book (name it) = Ok it) as Hget.
  { unfold get_item.
    by rewrite (filter_key_unique name _ (recipes book) it Hnd Hit eq_refl). }
  destruct (recipe it) as [r|] eqn:Hr.
  - apply list_elem_of_lookup in Hit as [i Hi].
    destruct (He i it r Hi Hr) as [Hlen _].
    destruct r as [|a [|b [|? ?]]]; try done.
    exists it, a, b. split_and!; try done.
    + by eapply list_elem_of_lookup_2.
    + eapply mix_own_recipe; [done| |done]. by eapply list_elem_of_lookup_2.
    + unfold recipe_line. by rewrite Hget, Hr.
  - by rewrite (ti_found _ _ _ Ht it Hit Hr) in Hf.
Qed.

(** X20: in a book generated from assets.py every chapter the book
    prompt can open is rendered without an exception: each entry of the
    chapter is found in the book with its two ingredients, and these two,
    mixed, give the entry. *)
Theorem render_book_generated rnd book rnd' (c : nat) :
  create_book ITEMS_BY_INGREDIENTS rnd = Ok (book, rnd') →
  c < length (chapters book) →
  ∃ title lines its,
    render_book book (Some c)
    = Done (title, lines ++ ["Press 8 to go back to the table of contents.";
                             "Press 9 to close the book."]) ∧
    assoc CHAPTER_TITLES (pretty c) = Some title ∧
    RECIPES_BY_CHAPTER !! pretty c = Some (names_of its) ∧
    Forall2 (λ it line,
               it ∈ recipes book ∧
               ∃ a b, recipe it = Some [a; b] ∧ mix book [a; b] = Some it ∧
                      line = (name it ++ " = " ++ name a ++ " + " ++ name b)%string)
            its lines.
Proof.
  intros Hbook Hc.
  assert (NoDup (all_names ITEMS_BY_INGREDIENTS)) as Hnd
    by (apply (bool_decide_unpack _); by vm_compute).
  assert (chapters book = ["0"; "1"; "2"; "3"]) as Hch
    by (unfold create_book in Hbook; by inv_rand).
  rewrite Hch in Hc. simpl in Hc.
  assert (∀ n, n ∈ crafted_names ITEMS_BY_INGREDIENTS →
               ∃ it a b, it ∈ recipes book ∧ name it = n ∧
                 recipe it = Some [a; b] ∧ mix book [a; b] = Some it ∧
                 recipe_line book n
                 = Done (n ++ " = " ++ name a ++ " + " ++ name b)%string) as Hline.
  { assert (Forall (λ n, n ∈ all_names ITEMS_BY_INGREDIENTS ∧
                         is_found ITEMS_BY_INGREDIENTS n = false)
              (crafted_names ITEMS_BY_INGREDIENTS)) as Hall
      by (apply (bool_decide_unpack _); by vm_compute).
    intros n Hn. rewrite Forall_forall in Hall.
    destruct (Hall n Hn) as [Hin Hf].
    by apply (recipe_line_generated _ _ _ _ n Hnd Hbook). }
  assert (∀ n1 n2 t,
            RECIPES_BY_CHAPTER !! pretty c = Some [n1; n2] →
            assoc CHAPTER_TITLES (pretty c) = Some t →
            n1 ∈ crafted_names ITEMS_BY_INGREDIENTS →
            n2 ∈ crafted_names ITEMS_BY_INGREDIENTS →
            ∃ title lines its,
              render_book book (Some c)
              = Done (title,
                      lines ++ ["Press 8 to go back to the table of contents.";
                                "Press 9 to close the book."]) ∧
              assoc CHAPTER_TITLES (pretty c) = Some title ∧
              RECIPES_BY_CHAPTER !! pretty c = Some (names_of its) ∧
              Forall2 (λ it line,
                         it ∈ recipes book ∧
                         ∃ a b, recipe it = Some [a; b] ∧
                                mix book [a; b] = Some it ∧
                                line = (name it ++ " = " ++ name a ++ " + "
                                          ++ name b)%string)
                      its lines) as Hpage.
  { intros n1 n2 t Hins Ht H1 H2.
    destruct (Hline n1 H1) as (it1 & a1 & b1 & Hin1 & Hn1 & Hr1 & Hm1 & Hl1).
    destruct (Hline n2 H2) as (it2 & a2 & b2 & Hin2 & Hn2 & Hr2 & Hm2 & Hl2).
    exists t, [(n1 ++ " = " ++ name a1 ++ " + " ++ name b1)%string;
               (n2 ++ " = " ++ name a2 ++ " + " ++ name b2)%string], [it1; it2].
    split_and!.
    - unfold render_book. rewrite Hins. cbn [recipe_lines].
      by rewrite Hl1, Hl2, Ht.
    - done.
    - rewrite Hins. simpl. by rewrite Hn1, Hn2.
    - repeat constructor; try done.
      + exists a1, b1. by rewrite Hn1.
      + exists a2, b2. by rewrite Hn2. }
  destruct c as [|[|[|[|c]]]]; [| | | |lia].
  - apply (Hpage "Health Potion" "Goodberry" "Wounds"); try done;
      apply (bool_decide_unpack _); by vm_compute.
  - apply (Hpage "Antidote" "Awakening" "Ailments"); try done;
      apply (bool_decide_unpack _); by vm_compute.
  - apply (Hpage "Evil Eye" "Amulet" "Curses"); try done;
      apply (bool_decide_unpack _); by vm_compute.
  - apply (Hpage "Banishing Sigil" "Substitute Doll" "Hauntings"); try done;
      apply (bool_decide_unpack _); by vm_compute.
Qed.

Lemma render_book_generated_witness :
  ∃ title lines its,
    render_book demo_book (Some 1)
    = Done (title, lines ++ ["Press 8 to go back to the table of contents.";
                             "Press 9 to close the book."]) ∧
    assoc CHAPTER_TITLES (pretty 1) = Some title ∧
    RECIPES_BY_CHAPTER !! pretty 1 = Some (names_of its) ∧
    Forall2 (λ it line,
               it ∈ recipes demo_book ∧
               ∃ a b, recipe it = Some [a; b] ∧ mix demo_book [a; b] = Some it ∧
                      line = (name it ++ " = " ++ name a ++ " + " ++ name b)%string)
            its lines.
Proof.
  apply (render_book_generated demo_draws demo_book [] 1).
  - by vm_compute.
  - vm_compute. lia.
Defined.

(** ** Runs of the menu *)

Lemma pbind_Done {A B} (m : Play A) (k : A → Play B) env b env' :
  pbind m k env = Done (b, env') →
  ∃ a env1, m env = Done (a, env1) ∧ k a env1 = Done (b, env').
Proof.
  unfold pbind. destruct (m env) as [[a env1]| |]; [|done..].
  intros H. by exists a, env1.
Qed.

Lemma pret_Done {A} (a b : A) env env' :
  pret a env = Done (b, env') → a = b ∧ env = env'.
Proof. unfold pret. by intros [= -> ->]. Qed.

Lemma from_result_Done {A} (r : result A) env a env' :
  from_result r env = Done (a, env') → r = Ok a ∧ env' = env.
Proof. unfold from_result. destruct r; [|done..]. by intros [= -> ->]. Qed.

Lemma from_outcome_Done {A} (r : outcome A) env a env' :
  from_outcome r env = Done (a, env') → r = Done a ∧ env' = env.
Proof. unfold from_outcome. destruct r; [|done..]. by intros [= -> ->]. Qed.

Lemma random_Done {A} (m : Rand A) env a env' :
  random m env = Done (a, env') →
  m (draws env) = Ok (a, draws env') ∧
  keys env' = keys env ∧ ticks env' = ticks env.
Proof.
  unfold random. destruct (m (draws env)) as [[a0 rnd]| |]; [|done..].
  by intros [= -> <-].
Qed.

Lemma time_time_Done env t env' :
  time_time env = Done (t, env') →
  ticks env = t :: ticks env' ∧ keys env' = keys env ∧ draws env' = draws env.
Proof.
  unfold time_time. destruct (ticks env) as [|t0 ts]; [done|].
  by intros [= -> <-].
Qed.

Lemma getch_Done env k env' :
  getch env = Done (k, env') →
  keys env = k :: keys env' ∧ ticks env' = ticks env ∧ draws env' = draws env.
Proof.
  unfold getch. destruct (keys env) as [|k0 ks]; [done|].
  by intros [= -> <-].
Qed.

Ltac inv_play :=
  repeat match goal with
    | H : pbind _ _ _ = Done _ |- _ =>
        let a := fresh "a" in let e := fresh "env" in
        let H1 := fresh "Hm" in let H2 := fresh "Hk" in
        apply pbind_Done in H as (a & e & H1 & H2)
    | H : pret _ _ = Done _ |- _ => apply pret_Done in H as [? ?]; simplify_eq
    | H : from_result _ _ = Done _ |- _ =>
        apply from_result_Done in H as [? ?]; simplify_eq
    | H : from_outcome _ _ = Done _ |- _ =>
        apply from_outcome_Done in H as [? ?]; simplify_eq
    | H : throw _ _ = Done _ |- _ => discriminate H
    | H : starved _ = Done _ |- _ => discriminate H
    | H : (match ?p with (_, _) => _ end) _ = Done _ |- _ => destruct p
    end.

Lemma shop_kept_refl g : shop_kept g g.
Proof. by repeat split. Qed.

Lemma shop_kept_trans g1 g2 g3 :
  shop_kept g1 g2 → shop_kept g2 g3 → shop_kept g1 g3.
Proof.
  intros (? & ? & ? & ?) (? & ? & ? & ?). repeat split; try congruence.
  auto.
Qed.

Lemma world_kept_refl m : world_kept m m.
Proof. split; [apply shop_kept_refl|done]. Qed.

Lemma world_kept_trans m1 m2 m3 :
  world_kept m1 m2 → world_kept m2 m3 → world_kept m1 m3.
Proof.
  intros (? & ? & ?) (? & ? & ?). split; [by eapply shop_kept_trans|].
  split; congruence.
Qed.

Lemma menu_update_customer_Done g customer env g' env' :
  menu_update_customer g customer env = Done (g', env') →
  player g' = player g ∧ shop_kept g g'.
Proof.
  unfold menu_update_customer. intros H. inv_play.
  case_bool_decide as Hslot; [|done]. inv_play.
  apply random_Done in Hm0 as (Hprice & _ & _). destruct a0 as [p w].
  apply price_order_assets in Hprice.
  split; [done|]. repeat split; simpl.
  - by rewrite length_insert.
  - intros Hpay. unfold paying in *. apply Forall_insert; [done|]. simpl.
    destruct (tier_of ITEMS_BY_INGREDIENTS (name a)) as [[|[|[|[|?]]]]|];
      try done; lia.
Qed.

Lemma scan_customers_Done ks g env g' env' :
  scan_customers ks g env = Done (g', env') →
  player g' = player g ∧ shop_kept g g'.
Proof.
  revert g env. induction ks as [|k ks IH]; intros g env H; simpl in H.
  - inv_play. split; [done|apply shop_kept_refl].
  - destruct (customers g !! k) as [c|].
    + inv_play. destruct (is_expired c a).
      * inv_play. apply menu_update_customer_Done in Hm0 as [Hp Hs].
        apply IH in Hk0 as [Hp' Hs']. split; [congruence|].
        by eapply shop_kept_trans.
      * by apply IH in Hk.
    + inv_play. split; [done|apply shop_kept_refl].
Qed.

Lemma refresh_loop_Done fuel m refreshtime env m' k env' :
  refresh_loop fuel m refreshtime env = Done ((m', k), env') →
  world_kept m m' ∧ player (game m') = player (game m) ∧
  match k with
  | None => game_over m' = true
  | Some z => game_over m' = game_over m ∧ z ≠ (-1)%Z
  end.
Proof.
  revert m refreshtime env.
  induction fuel as [|fuel IH]; intros m refreshtime env H; simpl in H; [done|].
  inv_play.
  destruct (Qle_bool _ 0).
  - inv_play. split_and!; try done.
  - inv_play. apply scan_customers_Done in Hm1 as [Hp Hs].
    assert (world_kept m (set_game m a1)) as Hw by (by split).
    case_bool_decide as Hkey.
    + inv_play. by split_and!.
    + inv_play. destruct (negb _); inv_play.
      all: match goal with
           | H : refresh_loop _ _ _ _ = Done _ |- _ =>
               apply IH in H as (Hw' & Hp' & Hk')
           end.
      all: split_and!; [by eapply world_kept_trans|simpl in *; congruence|].
      all: by destruct k.
Qed.

Lemma refresh_logic_Done m env m' k env' :
  refresh_logic m env = Done ((m', k), env') →
  world_kept m m' ∧ player (game m') = player (game m) ∧
  match k with
  | None => game_over m' = true
  | Some z => game_over m' = game_over m ∧ z ≠ (-1)%Z
  end.
Proof.
  unfold refresh_logic. intros H. inv_play. by eapply refresh_loop_Done.
Qed.

Lemma is_int_Done k env b env' :
  is_int k env = Done (b, env') →
  ∃ z, k = Some z ∧ b = bool_decide (48 ≤ z ≤ 57)%Z ∧ env' = env.
Proof.
  destruct k as [z|]; simpl; [|done]. intros H. inv_play. by exists z.
Qed.

(** One turn of a prompt: the screen is rendered, a key is read and
    tested for a digit. *)
Ltac prompt_turn :=
  inv_play;
  match goal with
  | H : refresh_logic _ _ = Done _ |- _ =>
      let Hw := fresh "Hw" in let Hp := fresh "Hp" in let Hg := fresh "Hg" in
      apply refresh_logic_Done in H as (Hw & Hp & Hg)
  end;
  match goal with
  | H : is_int _ _ = Done _ |- _ =>
      let z := fresh "z" in
      apply is_int_Done in H as (z & -> & -> & ->)
  end.

Lemma pickup_loop_Done fuel m env m' env' :
  pickup_loop fuel m env = Done (m', env') →
  world_kept m m' ∧ game_over m' = game_over m ∧
  location (player (game m')) = location (player (game m)) ∧
  score (player (game m')) = score (player (game m)) ∧
  (inventory (player (game m')) = inventory (player (game m)) ∨
   ∃ item, item ∈ items_at (location (player (game m))) ∧
           inventory (player (game m'))
           = inventory (player (game m)) ++ [item]).
Proof.
  revert m env. induction fuel as [|fuel IH]; intros m env H; [done|].
  cbn [pickup_loop] in H. prompt_turn. destruct Hg as [Hg Hz].
  assert (pickup_loop fuel m0 env2 = Done (m', env') →
          world_kept m m' ∧ game_over m' = game_over m ∧
          location (player (game m')) = location (player (game m)) ∧
          score (player (game m')) = score (player (game m)) ∧
          (inventory (player (game m')) = inventory (player (game m)) ∨
           ∃ item, item ∈ items_at (location (player (game m))) ∧
                   inventory (player (game m'))
                   = inventory (player (game m)) ++ [item])) as Hnext.
  { intros Hloop. apply IH in Hloop as (Hw' & Hg' & Hl' & Hs' & Hi').
    rewrite Hp in *. split_and!; try congruence.
    by eapply world_kept_trans. }
  case_bool_decide as Hd; [|by apply Hnext].
  destruct (items (location (player (game m0)))) as [its|] eqn:Hits; [|done].
  case_bool_decide as Hlt.
  - destruct (its !! int_chr (Some z)) as [item|] eqn:Hitem; inv_play.
    destruct Hw as (Hs & ? & ?). destruct Hs as (? & ? & ? & ?).
    simpl. rewrite Hp. split_and!; try done. right. exists item.
    split; [|done]. rewrite <- Hp. unfold items_at. rewrite Hits. simpl.
    by eapply list_elem_of_lookup_2.
  - case_bool_decide as H9; [|by apply Hnext].
    inv_play. rewrite Hp. split_and!; try done. by left.
Qed.

Lemma player_trash_Ok g item g' :
  player_trash g item = Ok g' →
  list_remove item (inventory (player g)) = Ok (inventory (player g')) ∧
  location (player g') = location (player g) ∧
  score (player g') = score (player g) ∧
  shop_kept g g'.
Proof.
  unfold player_trash.
  destruct (list_remove item (inventory (player g))) as [inv| |]; [|done..].
  simpl. intros [= <-]. by split_and!.
Qed.

Lemma trash_loop_Done fuel m env m' env' :
  trash_loop fuel m env = Done (m', env') →
  world_kept m m' ∧ game_over m' = game_over m ∧
  location (player (game m')) = location (player (game m)) ∧
  score (player (game m')) = score (player (game m)) ∧
  (inventory (player (game m')) = inventory (player (game m)) ∨
   ∃ item, item ∈ inventory (player (game m)) ∧
           list_remove item (inventory (player (game m)))
           = Ok (inventory (player (game m')))).
Proof.
  revert m env. induction fuel as [|fuel IH]; intros m env H; [done|].
  cbn [trash_loop] in H. prompt_turn. destruct Hg as [Hg Hz].
  assert (trash_loop fuel m0 env1 = Done (m', env') →
          world_kept m m' ∧ game_over m' = game_over m ∧
          location (player (game m')) = location (player (game m)) ∧
          score (player (game m')) = score (player (game m)) ∧
          (inventory (player (game m')) = inventory (player (game m)) ∨
           ∃ item, item ∈ inventory (player (game m)) ∧
                   list_remove item (inventory (player (game m)))
                   = Ok (inventory (player (game m'))))) as Hnext.
  { intros Hloop. apply IH in Hloop as (Hw' & Hg' & Hl' & Hs' & Hi').
    rewrite Hp in *. split_and!; try congruence.
    by eapply world_kept_trans. }
  case_bool_decide as Hd; [|by apply Hnext].
  cbn zeta in *. case_bool_decide as Hlt.
  - destruct (inventory (player (game m0)) !! int_chr (Some z))
      as [item|] eqn:Hitem; inv_play.
    match goal with
    | H : player_trash _ _ = Ok _ |- _ =>
        apply player_trash_Ok in H as (Hrm & Hl & Hs & Hk)
    end.
    rewrite Hp in *. simpl. split_and!; try congruence.
    + destruct Hw as (Hs0 & ? & ?). split; [|done].
      by eapply shop_kept_trans.
    + right. exists item. split; [|done]. by eapply list_elem_of_lookup_2.
  - case_bool_decide as H9; [|by apply Hnext].
    inv_play. rewrite Hp. split_and!; try done. by left.
Qed.

Lemma readbook_loop_Done fuel m chapter env m' env' :
  readbook_loop fuel m chapter env = Done (m', env') →
  world_kept m m' ∧ game_over m' = game_over m ∧
  player (game m') = player (game m).
Proof.
  revert m chapter env.
  induction fuel as [|fuel IH]; intros m chapter env H; [done|].
  cbn [readbook_loop] in H. prompt_turn. destruct Hg as [Hg Hz].
  assert (∀ ch, readbook_loop fuel m0 ch env2 = Done (m', env') →
                world_kept m m' ∧ game_over m' = game_over m ∧
                player (game m') = player (game m)) as Hnext.
  { intros ch Hloop. apply IH in Hloop as (Hw' & Hg' & Hp').
    split_and!; try congruence. by eapply world_kept_trans. }
  case_bool_decide as Hd; [|by eapply Hnext].
  case_bool_decide as Hlt; [by eapply Hnext|].
  case_bool_decide as H8; [by eapply Hnext|].
  case_bool_decide as H9; [|by eapply Hnext].
  inv_play. by split_and!.
Qed.

Lemma list_remove_names x l l' :
  list_remove x l = Ok l' →
  names_of l ≡ₚ name x :: names_of l' ∧ length l = S (length l').
Proof.
  intros H. apply list_remove_Ok in H as (l1 & y & l2 & -> & -> & Hy & _).
  unfold names_of. rewrite !map_app, !length_app. simpl. rewrite Hy.
  split; [|lia]. by rewrite Permutation_middle.
Qed.

Lemma mix_prompt_Done fuel m ings env m' ings' env' :
  mix_prompt fuel m ings env = Done ((m', ings'), env') →
  world_kept m m' ∧ game_over m' = game_over m ∧
  location (player (game m')) = location (player (game m)) ∧
  score (player (game m')) = score (player (game m)) ∧
  ∃ taken, ings' = ings ++ taken ∧
           names_of (inventory (player (game m)))
           ≡ₚ names_of taken ++ names_of (inventory (player (game m'))) ∧
           (length ings < 2 → length ings' ≤ 2).
Proof.
  revert m ings env. induction fuel as [|fuel IH]; intros m ings env H; [done|].
  cbn [mix_prompt] in H. prompt_turn. destruct Hg as [Hg Hz].
  assert (mix_prompt fuel m0 ings env1 = Done ((m', ings'), env') →
          world_kept m m' ∧ game_over m' = game_over m ∧
          location (player (game m')) = location (player (game m)) ∧
          score (player (game m')) = score (player (game m)) ∧
          ∃ taken, ings' = ings ++ taken ∧
                   names_of (inventory (player (game m)))
                   ≡ₚ names_of taken ++ names_of (inventory (player (game m'))) ∧
                   (length ings < 2 → length ings' ≤ 2)) as Hnext.
  { intros Hloop. apply IH in Hloop as (Hw' & Hg' & Hl' & Hs' & Hi').
    rewrite Hp in *. split_and!; try congruence.
    by eapply world_kept_trans. }
  case_bool_decide as Hd; [|by apply Hnext].
  cbn zeta in *. case_bool_decide as Hlt.
  - destruct (inventory (player (game m0)) !! int_chr (Some z))
      as [item|] eqn:Hitem; inv_play.
    match goal with
    | H : player_trash _ _ = Ok _ |- _ =>
        apply player_trash_Ok in H as (Hrm & Hl & Hs & Hk)
    end.
    apply list_remove_names in Hrm as [Hnames Hlen].
    assert (world_kept m (set_game m0 a0)) as Hw0.
    { destruct Hw as (Hs0 & ? & ?). split; [|done].
      by eapply shop_kept_trans. }
    rewrite Hp in *.
    case_bool_decide as Hempty; [|case_bool_decide as Htwo].
    + inv_play. simpl. split_and!; try congruence.
      exists [item]. split_and!; try done.
      rewrite length_app. simpl. lia.
    + inv_play. simpl. split_and!; try congruence.
      exists [item]. split_and!; try done. lia.
    + match goal with
      | H : mix_prompt _ _ _ _ = Done _ |- _ =>
          apply IH in H as (Hw' & Hg' & Hl' & Hs' & taken & -> & Hn' & Hlen')
      end.
      simpl in *. split_and!; try congruence; [by eapply world_kept_trans|].
      exists (item :: taken). split_and!.
      * by rewrite <- app_assoc.
      * rewrite Hnames, Hn'. done.
      * intros Hlt2. apply Hlen'. rewrite length_app in *. simpl in *. lia.
  - case_bool_decide as H9; [|by apply Hnext].
    inv_play. rewrite Hp. split_and!; try done.
    exists []. rewrite app_nil_r. split_and!; try done. lia.
Qed.

Lemma menu_deliver_order_Done g item customer env g' env' :
  menu_deliver_order g item customer env = Done (g', env') →
  shop_kept g g' ∧
  location (player g') = location (player g) ∧
  list_remove item (inventory (player g)) = Ok (inventory (player g')) ∧
  score (player g')
  = (if item_eq item (order customer)
     then score (player g) + give_points customer else score (player g))%Z.
Proof.
  unfold menu_deliver_order. intros H. inv_play.
  match goal with
  | H : menu_update_customer _ _ _ = Done _ |- _ =>
      apply menu_update_customer_Done in H as [Hp Hs]
  end.
  rewrite Hp. simpl. split_and!; try done.
Qed.

Lemma deliver_loop_Done fuel m delivery env m' env' :
  deliver_loop fuel m delivery env = Done (m', env') →
  world_kept m m' ∧ game_over m' = game_over m ∧
  location (player (game m')) = location (player (game m)) ∧
  ((inventory (player (game m')) = inventory (player (game m)) ∧
    score (player (game m')) = score (player (game m))) ∨
   ∃ item c,
     list_remove item (inventory (player (game m)))
     = Ok (inventory (player (game m'))) ∧
     (paying (customers (game m)) → (5 ≤ points c ≤ 75)%Z) ∧
     score (player (game m'))
     = (if item_eq item (order c)
        then score (player (game m)) + points c
        else score (player (game m)))%Z).
Proof.
  revert m delivery env.
  induction fuel as [|fuel IH]; intros m delivery env H; [done|].
  cbn [deliver_loop] in H.
  assert (∀ m0 d env1,
            world_kept m m0 → player (game m0) = player (game m) →
            game_over m0 = game_over m →
            deliver_loop fuel m0 d env1 = Done (m', env') →
            world_kept m m' ∧ game_over m' = game_over m ∧
            location (player (game m')) = location (player (game m)) ∧
            ((inventory (player (game m')) = inventory (player (game m)) ∧
              score (player (game m')) = score (player (game m))) ∨
             ∃ item c,
               list_remove item (inventory (player (game m)))
               = Ok (inventory (player (game m'))) ∧
               (paying (customers (game m)) → (5 ≤ points c ≤ 75)%Z) ∧
               score (player (game m'))
               = (if item_eq item (order c)
                  then score (player (game m)) + points c
                  else score (player (game m)))%Z)) as Hnext.
  { intros m0 d env1 Hw Hp Hg Hloop.
    apply IH in Hloop as (Hw' & Hg' & Hl' & Hi').
    rewrite Hp in *. split_and!; try congruence.
    - by eapply world_kept_trans.
    - destruct Hi' as [?|(item & c & Hrm & Hpay & Hsc)]; [by left|].
      right. exists item, c. split_and!; try done.
      intros Hpaying. apply Hpay. by apply Hw. }
  destruct delivery as [item|].
  - prompt_turn. destruct Hg as [Hg Hz].
    case_bool_decide as Hd; [|by eapply Hnext].
    cbn zeta in *. case_bool_decide as Hlt.
    + destruct (customers (game m0) !! int_chr (Some z)) as [c|] eqn:Hc;
        inv_play.
      match goal with
      | H : menu_deliver_order _ _ _ _ = Done _ |- _ =>
          apply menu_deliver_order_Done in H as (Hs & Hl & Hrm & Hsc)
      end.
      rewrite Hp in *. simpl. split_and!; try done.
      * destruct Hw as (Hs0 & ? & ?). split; [|done].
        by eapply shop_kept_trans.
      * right. exists item, c. split_and!; try done.
        intros Hpaying. destruct Hw as ((_ & _ & _ & Hpay) & _).
        specialize (Hpay Hpaying). unfold paying in Hpay.
        rewrite Forall_lookup in Hpay. by eapply Hpay.
    + case_bool_decide as H9; [|by eapply Hnext].
      inv_play. rewrite Hp. split_and!; try done. by left.
  - prompt_turn. destruct Hg as [Hg Hz].
    case_bool_decide as Hd; [|by eapply Hnext].
    cbn zeta in *. case_bool_decide as Hlt.
    + destruct (inventory (player (game m0)) !! int_chr (Some z))
        as [item|] eqn:Hitem; inv_play. by eapply Hnext.
    + case_bool_decide as H9; [|by eapply Hnext].
      inv_play. rewrite Hp. split_and!; try done. by left.
Qed.

(** ** The commands of the menu *)

Ltac same_menu :=
  split_and!; first [done | apply world_kept_refl | by left | idtac].

Lemma create_book_two tbl rnd book rnd' :
  create_book tbl rnd = Ok (book, rnd') → two_ingredients book.
Proof.
  intros Hbook. apply create_book_inv in Hbook as [_ _ He].
  apply Forall_lookup. intros i it Hi [r Hr].
  unfold ingredients_of. rewrite Hr. simpl. by destruct (He i it r Hi Hr).
Qed.

Lemma mix_two (b : RecipeBook) (ingredients : list Item) (reward : Item) :
  two_ingredients b → mix b ingredients = Some reward →
  length ingredients = 2.
Proof.
  intros Htwo Hmix. apply mix_loop_Some in Hmix as (Hin & r & Hr & Hperm).
  apply Permutation_length in Hperm. unfold names_of in Hperm.
  rewrite !length_map in Hperm. rewrite <- Hperm.
  unfold two_ingredients in Htwo. rewrite Forall_forall in Htwo.
  specialize (Htwo reward Hin). unfold ingredients_of in Htwo.
  rewrite Hr in Htwo. by apply Htwo.
Qed.

Lemma do_pickup_Done m env m' env' :
  do_pickup m env = Done (m', env') →
  world_kept m m' ∧ game_over m' = game_over m ∧
  location (player (game m')) = location (player (game m)) ∧
  score (player (game m')) = score (player (game m)) ∧
  (inventory (player (game m')) = inventory (player (game m)) ∨
   length (inventory (player (game m))) ≠ 9 ∧
   ∃ item, item ∈ items_at (location (player (game m))) ∧
           inventory (player (game m'))
           = inventory (player (game m)) ++ [item]).
Proof.
  unfold do_pickup, raise_warning. intros H.
  destruct (items (location (player (game m)))) as [its|].
  - case_bool_decide as Hfull.
    + inv_play. same_menu.
    + apply pickup_loop_Done in H as (? & ? & ? & ? & [?|?]).
      * split_and!; try done. by left.
      * split_and!; try done. by right.
  - inv_play. same_menu.
Qed.

Lemma do_trash_Done m env m' env' :
  do_trash m env = Done (m', env') →
  world_kept m m' ∧ game_over m' = game_over m ∧
  location (player (game m')) = location (player (game m)) ∧
  score (player (game m')) = score (player (game m)) ∧
  (inventory (player (game m')) = inventory (player (game m)) ∨
   ∃ item, item ∈ inventory (player (game m)) ∧
           list_remove item (inventory (player (game m)))
           = Ok (inventory (player (game m')))).
Proof.
  unfold do_trash, raise_warning. intros H. case_bool_decide as Hempty.
  - inv_play. same_menu.
  - by apply trash_loop_Done in H.
Qed.

Lemma get_location_name locs n l :
  get_location locs n = Ok l → l ∈ locs ∧ loc_name l = n.
Proof.
  unfold get_location.
  destruct (last (filter (λ l0, loc_name l0 = n) locs)) as [l0|] eqn:E; [|done].
  intros [= ->]. apply last_Some in E as [l' E].
  assert (l ∈ filter (λ l0, loc_name l0 = n) locs) as Hin.
  { rewrite E. apply elem_of_app. right. apply list_elem_of_here. }
  by apply list_elem_of_filter in Hin as [? ?].
Qed.

Lemma do_returnhome_Done m env m' env' :
  do_returnhome m env = Done (m', env') →
  world_kept m m' ∧ game_over m' = game_over m ∧
  inventory (player (game m')) = inventory (player (game m)) ∧
  score (player (game m')) = score (player (game m)) ∧
  loc_name (location (player (game m'))) = "Cauldron".
Proof.
  unfold do_returnhome, raise_warning. intros H.
  destruct (String.eqb _ "Cauldron") eqn:E.
  - inv_play. apply String.eqb_eq in E.
    same_menu.
  - inv_play.
    match goal with
    | H : get_location _ _ = Ok _ |- _ => apply get_location_name in H as [_ Hn]
    end.
    same_menu.
Qed.

Lemma do_move_Done m direction env m' env' :
  do_move m direction env = Done (m', env') →
  world_kept m m' ∧ game_over m' = game_over m ∧
  inventory (player (game m')) = inventory (player (game m)) ∧
  score (player (game m')) = score (player (game m)).
Proof.
  unfold do_move. intros H. inv_play.
  match goal with H : move _ _ = Ok _ |- _ => rename H into Hmove end.
  unfold move in Hmove.
  destruct (neighbors (location (player (game m)))) as [nb|]; [|done].
  destruct (nb !! direction) as [next_loc|].
  - destruct (get_location (locations (game m)) next_loc) as [l| |];
      simpl in Hmove; [|done..].
    injection Hmove as <-. same_menu.
  - injection Hmove as <-. same_menu.
Qed.

Lemma do_readbook_Done m env m' env' :
  do_readbook m env = Done (m', env') →
  world_kept m m' ∧ game_over m' = game_over m ∧
  player (game m') = player (game m).
Proof. unfold do_readbook. apply readbook_loop_Done. Qed.

Lemma do_mix_Done m env m' env' :
  do_mix m env = Done (m', env') →
  world_kept m m' ∧ game_over m' = game_over m ∧
  location (player (game m')) = location (player (game m)) ∧
  score (player (game m')) = score (player (game m)) ∧
  (length (inventory (player (game m))) = 0 ∨
   loc_name (location (player (game m))) ≠ "Cauldron" →
   inventory (player (game m')) = inventory (player (game m))) ∧
  (length (inventory (player (game m))) ≠ 0 →
   loc_name (location (player (game m))) = "Cauldron" →
   ∃ taken rest,
     length taken ≤ 2 ∧
     names_of (inventory (player (game m)))
     ≡ₚ names_of taken ++ names_of rest ∧
     inventory (player (game m'))
     = rest ++ match mix (book (game m)) taken with
               | Some reward => [reward]
               | None => []
               end).
Proof.
  unfold do_mix, raise_warning. intros H. case_bool_decide as Hempty.
  { inv_play. same_menu. }
  destruct (String.eqb _ "Cauldron") eqn:E; simpl in H.
  2:{ inv_play. apply String.eqb_neq in E.
      same_menu. }
  apply String.eqb_eq in E.
  apply pbind_Done in H as ([m0 ings] & env0 & Hprompt & H).
  apply (mix_prompt_Done (S (length (keys env))) m [] env) in Hprompt
    as (Hw & Hg & Hl & Hs & taken & -> & Hnames & Hlen).
  simpl in *.
  assert (book (game m0) = book (game m)) as Hbook
    by (by destruct Hw as ((_ & ? & _) & _)).
  rewrite Hbook in *.
  assert (length taken ≤ 2) as Hlen2 by (apply Hlen; lia).
  destruct (mix (book (game m)) taken) as [reward|] eqn:Hmix; inv_play.
  - simpl. split_and!; try done.
    + intros [?|?]; done.
    + intros _ _. exists taken. eexists.
      split_and!; [done| |by rewrite Hmix]; done.
  - split_and!; try done.
    + intros [?|?]; done.
    + intros _ _. exists taken. eexists.
      split_and!; [done| |by rewrite Hmix, app_nil_r]; done.
Qed.

Lemma do_deliver_Done m env m' env' :
  do_deliver m env = Done (m', env') →
  world_kept m m' ∧ game_over m' = game_over m ∧
  location (player (game m')) = location (player (game m)) ∧
  ((inventory (player (game m')) = inventory (player (game m)) ∧
    score (player (game m')) = score (player (game m))) ∨
   ∃ item c,
     list_remove item (inventory (player (game m)))
     = Ok (inventory (player (game m'))) ∧
     (paying (customers (game m)) → (5 ≤ points c ≤ 75)%Z) ∧
     score (player (game m'))
     = (if item_eq item (order c)
        then score (player (game m)) + points c
        else score (player (game m)))%Z).
Proof.
  unfold do_deliver, raise_warning. intros H. case_bool_decide as Hempty.
  { inv_play. same_menu. }
  destruct (String.eqb _ "Town") eqn:E; cbn [negb] in H.
  - by apply deliver_loop_Done in H.
  - inv_play. same_menu.
Qed.

Lemma update_Done m k env m' env' :
  update m k env = Done (m', env') →
  world_kept m m' ∧ game_over m' = game_over m ∧
  (two_ingredients (book (game m)) →
   length (inventory (player (game m))) ≤ 9 →
   length (inventory (player (game m'))) ≤ 9) ∧
  (paying (customers (game m)) →
   (score (player (game m)) ≤ score (player (game m')))%Z).
Proof.
  unfold update. intros H.
  assert (world_kept m m' → game_over m' = game_over m →
          inventory (player (game m')) = inventory (player (game m)) →
          score (player (game m')) = score (player (game m)) →
          world_kept m m' ∧ game_over m' = game_over m ∧
          (two_ingredients (book (game m)) →
           length (inventory (player (game m))) ≤ 9 →
           length (inventory (player (game m'))) ≤ 9) ∧
          (paying (customers (game m)) →
           (score (player (game m)) ≤ score (player (game m')))%Z)) as Hsame.
  { intros ? ? Hi Hs. rewrite Hi, Hs. split_and!; [done|done|done|lia]. }
  destruct k as [z|].
  2:{ inv_play. by apply Hsame; [apply world_kept_refl|..]. }
  repeat case_bool_decide.
  - apply do_pickup_Done in H as (Hw & Hg & _ & Hs & Hi).
    split_and!; [done|done| |lia]. intros _ Hlen.
    destruct Hi as [->|(Hfull & item & _ & ->)]; [done|].
    rewrite length_app. simpl. lia.
  - apply do_trash_Done in H as (Hw & Hg & _ & Hs & Hi).
    split_and!; [done|done| |lia]. intros _ Hlen.
    destruct Hi as [->|(item & _ & Hrm)]; [done|].
    apply list_remove_names in Hrm as [_ Hrm]. lia.
  - apply do_returnhome_Done in H as (Hw & Hg & Hi & Hs & _).
    by apply Hsame.
  - apply do_readbook_Done in H as (Hw & Hg & Hp).
    apply Hsame; congruence.
  - apply do_mix_Done in H as (Hw & Hg & _ & Hs & Hskip & Hmix).
    split_and!; [done|done| |lia]. intros Htwo Hlen.
    destruct (decide (length (inventory (player (game m))) = 0)) as [He|He];
      [by rewrite Hskip by (by left)|].
    destruct (decide (loc_name (location (player (game m))) = "Cauldron"))
      as [Hc|Hc]; [|by rewrite Hskip by (by right)].
    destruct (Hmix He Hc) as (taken & rest & Hlen2 & Hperm & ->).
    apply Permutation_length in Hperm. unfold names_of in Hperm.
    rewrite length_app, !length_map in Hperm. rewrite length_app.
    destruct (mix (book (game m)) taken) as [reward|] eqn:E; simpl; [|lia].
    apply (mix_two _ _ _ Htwo) in E. lia.
  - apply do_deliver_Done in H as (Hw & Hg & _ & Hi).
    split_and!; [done|done| |].
    + intros _ Hlen. destruct Hi as [[-> _]|(item & c & Hrm & _)]; [done|].
      apply list_remove_names in Hrm as [_ Hrm]. lia.
    + intros Hpay. destruct Hi as [[_ ->]|(item & c & _ & Hc & ->)]; [lia|].
      specialize (Hc Hpay). destruct (item_eq item (order c)); lia.
  - done.
  - unfold do_resize in H. inv_play.
    by apply Hsame; [apply world_kept_refl|..].
  - apply do_move_Done in H as (Hw & Hg & Hi & Hs). by apply Hsame.
  - apply do_move_Done in H as (Hw & Hg & Hi & Hs). by apply Hsame.
  - apply do_move_Done in H as (Hw & Hg & Hi & Hs). by apply Hsame.
  - apply do_move_Done in H as (Hw & Hg & Hi & Hs). by apply Hsame.
  - inv_play. by apply Hsame; [apply world_kept_refl|..].
Qed.

(** X21: a command of the menu that returns leaves at most 9 items in an
    inventory that held at most 9, provided every recipe of the book has
    two ingredients (as in a generated book); the book is the same
    afterwards. *)
Theorem update_inventory_bound m k env m' env' :
  two_ingredients (book (game m)) →
  length (inventory (player (game m))) ≤ 9 →
  update m k env = Done (m', env') →
  length (inventory (player (game m'))) ≤ 9 ∧
  two_ingredients (book (game m')).
Proof.
  intros Htwo Hlen Hrun.
  apply update_Done in Hrun as (((_ & Hbook & _) & _) & _ & Hinv & _).
  split; [by apply Hinv|by rewrite Hbook].
Qed.

Lemma update_inventory_bound_witness :
  length (inventory (player (game demo_picked))) ≤ 9 ∧
  two_ingredients (book (game demo_picked)).
Proof.
  apply (update_inventory_bound demo_menu (Some 112%Z) demo_env demo_picked
           (mkEnv [] [] [])).
  - apply (bool_decide_unpack _). by vm_compute.
  - vm_compute. lia.
  - by vm_compute.
Defined.

(** X22: a command of the menu that returns has changed neither the
    locations nor the book nor the number of customers, and it has not
    ended the game: the flag and the time window are as before. *)
Theorem update_frame m k env m' env' :
  update m k env = Done (m', env') →
  locations (game m') = locations (game m) ∧
  book (game m') = book (game m) ∧
  length (customers (game m')) = length (customers (game m)) ∧
  game_over m' = game_over m ∧
  starttime m' = starttime m ∧ totaltime m' = totaltime m.
Proof.
  intros Hrun.
  apply update_Done in Hrun as (((? & ? & ? & _) & ? & ?) & ? & _).
  by split_and!.
Qed.

Lemma update_frame_witness :
  locations (game demo_picked) = locations (game demo_menu) ∧
  book (game demo_picked) = book (game demo_menu) ∧
  length (customers (game demo_picked)) = length (customers (game demo_menu)) ∧
  game_over demo_picked = game_over demo_menu ∧
  starttime demo_picked = starttime demo_menu ∧
  totaltime demo_picked = totaltime demo_menu.
Proof.
  apply (update_frame demo_menu (Some 112%Z) demo_env demo_picked
           (mkEnv [] [] [])).
  by vm_compute.
Defined.

(** X23: while every customer pays between 5 and 75 points, a command
    of the menu that returns has not lowered the score, and every
    customer still pays between 5 and 75 points. *)
Theorem update_score m k env m' env' :
  paying (customers (game m)) →
  update m k env = Done (m', env') →
  (score (player (game m)) ≤ score (player (game m')))%Z ∧
  paying (customers (game m')).
Proof.
  intros Hpay Hrun.
  apply update_Done in Hrun as (((_ & _ & _ & Hpay') & _) & _ & _ & Hscore).
  split; [by apply Hscore|by apply Hpay'].
Qed.

Lemma update_score_witness :
  (score (player (game demo_market))
   ≤ score (player (game (fst demo_delivered))))%Z ∧
  paying (customers (game (fst demo_delivered))).
Proof.
  apply (update_score demo_market (Some 100%Z) demo_env_deliver
           (fst demo_delivered) (snd demo_delivered)).
  - apply (bool_decide_unpack _). by vm_compute.
  - by vm_compute.
Defined.

(** X24: what [do_mix] takes out of the inventory is not put back.  At
    the Cauldron, with a non-empty inventory, a run that returns has
    taken at most two ingredients; the inventory it leaves is the rest,
    followed by the mixed item when the ingredients taken make one.  In
    particular an ingredient is lost when the prompt is left with 9. *)
Theorem do_mix_takes m env m' env' :
  do_mix m env = Done (m', env') →
  length (inventory (player (game m))) ≠ 0 →
  loc_name (location (player (game m))) = "Cauldron" →
  ∃ taken rest,
    length taken ≤ 2 ∧
    names_of (inventory (player (game m))) ≡ₚ names_of taken ++ names_of rest ∧
    inventory (player (game m'))
    = rest ++ match mix (book (game m)) taken with
              | Some reward => [reward]
              | None => []
              end.
Proof.
  intros Hrun Hinv Hloc.
  apply do_mix_Done in Hrun as (_ & _ & _ & _ & _ & Hmix). by apply Hmix.
Qed.

Lemma do_mix_takes_witness :
  ∃ taken rest,
    length taken ≤ 2 ∧
    names_of (inventory (player (game demo_kitchen)))
    ≡ₚ names_of taken ++ names_of rest ∧
    inventory (player (game demo_mixed))
    = rest ++ match mix (book (game demo_kitchen)) taken with
              | Some reward => [reward]
              | None => []
              end.
Proof.
  apply (do_mix_takes demo_kitchen demo_env_mix demo_mixed (mkEnv [] [] [])).
  - by vm_compute.
  - vm_compute. lia.
  - reflexivity.
Defined.



(** ** The end of a session *)

Lemma play_loop_ends fuel m env r : play_loop fuel m env ≠ Done r.
Proof.
  revert m env. induction fuel as [|fuel IH]; intros m env H; [done|].
  cbn [play_loop] in H. destruct (game_over m).
  - unfold end_game, do_quit in H. destruct r as [m' env']. by inv_play.
  - destruct r as [m' env']. inv_play. by eapply IH.
Qed.

(** X26: [play] never returns: a session ends in an exception, the
    [SystemExit] of [quit()] included.  So whenever [main] gets past the
    making of the menu and terminates, it has printed the line of its
    [except] branch. *)
Theorem main_reports env :
  (∀ m env1, play m env1 = Starved ∨ ∃ e, play m env1 = Raised e) ∧
  match main env with
  | Done out =>
      out = ["Please ensure the screen is sized to accomodate the game."]
  | Raised e => menu_init env = Raised e
  | Starved => True
  end.
Proof.
  split.
  - intros m env1. unfold play.
    pose proof (play_loop_ends (S (length (keys env1))) m env1) as Hends.
    destruct (play_loop _ m env1) as [r| |]; [by destruct (Hends r)|..].
    + right. by eexists.
    + by left.
  - unfold main. destruct (menu_init env) as [[m env1]| |]; [|done..].
    unfold pbind. destruct (startup_screen m env1) as [[[] env2]| |]; [|done..].
    pose proof (play_loop_ends (S (length (keys env2))) m env2) as Hends.
    unfold play. destruct (play_loop _ m env2) as [r| |]; try done.
    by destruct (Hends r).
Qed.

(** The demo session ends with the line printed. *)
Example main_demo_session :
  main demo_session
  = Done ["Please ensure the screen is sized to accomodate the game."].
Proof. by vm_compute. Qed.

(** ** The keys a run reads *)

Lemma for_each_keys {A} (l : list A) (f : A → Play unit) env env' :
  (∀ x e e', f x e = Done (tt, e') → keys e' = keys e) →
  for_each l f env = Done (tt, env') → keys env' = keys env.
Proof.
  intros Hf. revert env. induction l as [|x l IH]; intros env H; simpl in H.
  - by inv_play.
  - inv_play. destruct a. apply Hf in Hm. apply IH in Hk. congruence.
Qed.

Lemma customer_str_keys env env' :
  customer_str env = Done (tt, env') → keys env' = keys env.
Proof.
  unfold customer_str. intros H. inv_play.
  apply time_time_Done in Hm as (_ & ? & _).
  apply time_time_Done in Hm0 as (_ & ? & _). congruence.
Qed.

Lemma render_info_keys m n env env' :
  render_info m n env = Done (tt, env') → keys env' = keys env.
Proof.
  unfold render_info. intros H.
  destruct (String.eqb n "customers").
  { eapply for_each_keys; [|exact H]. intros c e e'. apply customer_str_keys. }
  destruct (String.eqb n "timeremaining").
  { unfold timeremaining_render_info in H. inv_play.
    by apply time_time_Done in Hm as (_ & ? & _). }
  destruct (String.eqb n "map"); [|by inv_play].
  unfold map_render_info in H.
  destruct (neighbors _); [|done]. destruct (LOCATION_FLAVOR !! _); [|done].
  inv_play. by apply random_Done in Hm as (_ & ? & _).
Qed.

Lemma render_keys m exclude env env' :
  render m exclude env = Done (tt, env') → keys env' = keys env.
Proof.
  unfold render. apply for_each_keys. intros n e e' H.
  case_bool_decide; [by inv_play|]. by eapply render_info_keys.
Qed.

Ltac keys_facts :=
  repeat match goal with
    | H : time_time _ = Done _ |- _ => apply time_time_Done in H as (_ & H & _)
    | H : random _ _ = Done _ |- _ => apply random_Done in H as (_ & H & _)
    | H : getch _ = Done _ |- _ => apply getch_Done in H as (H & _)
    | H : render_info _ _ _ = Done (?a, _) |- _ =>
        destruct a; apply render_info_keys in H
    | H : render _ _ _ = Done (?a, _) |- _ =>
        destruct a; apply render_keys in H
    end.

Lemma menu_update_customer_keys g customer env g' env' :
  menu_update_customer g customer env = Done (g', env') → keys env' = keys env.
Proof.
  unfold menu_update_customer. intros H. inv_play.
  case_bool_decide; [|done]. inv_play. keys_facts. congruence.
Qed.

Lemma scan_customers_keys ks g env g' env' :
  scan_customers ks g env = Done (g', env') → keys env' = keys env.
Proof.
  revert g env. induction ks as [|k ks IH]; intros g env H; simpl in H.
  - by inv_play.
  - destruct (customers g !! k) as [c|]; [|by inv_play].
    inv_play. destruct (is_expired c a); inv_play; keys_facts.
    + match goal with
      | H : menu_update_customer _ _ _ = Done _ |- _ =>
          apply menu_update_customer_keys in H
      end.
      match goal with
      | H : scan_customers _ _ _ = Done _ |- _ => apply IH in H
      end.
      congruence.
    + match goal with
      | H : scan_customers _ _ _ = Done _ |- _ => apply IH in H
      end.
      congruence.
Qed.

Lemma refresh_loop_keys fuel m refreshtime env m' k env' :
  refresh_loop fuel m refreshtime env = Done ((m', k), env') →
  ∃ n z, keys env = replicate n (-1)%Z ++ z :: keys env' ∧
         (∀ z', k = Some z' → z' = z).
Proof.
  revert m refreshtime env.
  induction fuel as [|fuel IH]; intros m refreshtime env H; simpl in H; [done|].
  inv_play. keys_facts.
  destruct (Qle_bool _ 0).
  - inv_play. exists 0, a. split; [simpl; congruence|done].
  - inv_play.
    match goal with
    | H : scan_customers _ _ _ = Done _ |- _ => apply scan_customers_keys in H
    end.
    case_bool_decide as Hkey.
    + inv_play. exists 0, a. split; [simpl; congruence|].
      by intros z' [= <-].
    + assert (a = (-1)%Z) as -> by (by destruct (decide (a = (-1)%Z))).
      assert (∀ m2 rt e, keys e = keys env0 →
                refresh_loop fuel m2 rt e = Done (m', k, env') →
                ∃ n z, keys env = replicate n (-1)%Z ++ z :: keys env' ∧
                       (∀ z', k = Some z' → z' = z)) as Hnext.
      { intros m2 rt e He Hloop. apply IH in Hloop as (n & z & Hn & Hz).
        exists (S n), z. split; [|done]. simpl. congruence. }
      inv_play. destruct (negb _); inv_play; keys_facts.
      all: eapply Hnext; [|done]; congruence.
Qed.

Lemma refresh_logic_keys m env m' k env' :
  refresh_logic m env = Done ((m', k), env') →
  ∃ n z, keys env = replicate n (-1)%Z ++ z :: keys env' ∧
         (∀ z', k = Some z' → z' = z).
Proof.
  unfold refresh_logic. intros H. inv_play. keys_facts.
  match goal with
  | H : refresh_loop _ _ _ _ = Done _ |- _ =>
      apply refresh_loop_keys in H as (n & z & Hn & Hz)
  end.
  exists n, z. split; [congruence|done].
Qed.

Lemma refresh_logic_shorter m env m' k env' :
  refresh_logic m env = Done ((m', k), env') →
  length (keys env') < length (keys env).
Proof.
  intros H. apply refresh_logic_keys in H as (n & z & -> & _).
  rewrite length_app. simpl. lia.
Qed.

(** X27: [refresh_logic] returns the first key that is not -1 and has
    read the keys up to it and no further; when it returns [None] it has
    set [game_over], and the key read in that turn is dropped.  Player,
    locations and book are as before, the customers as many as before. *)
Theorem refresh_logic_reads m env m' k env' :
  refresh_logic m env = Done ((m', k), env') →
  (∃ n z, keys env = replicate n (-1)%Z ++ z :: keys env' ∧
          match k with
          | Some z' => z' = z ∧ z ≠ (-1)%Z ∧ game_over m' = game_over m
          | None => game_over m' = true
          end) ∧
  player (game m') = player (game m) ∧
  locations (game m') = locations (game m) ∧
  book (game m') = book (game m) ∧
  length (customers (game m')) = length (customers (game m)).
Proof.
  intros H. pose proof (refresh_logic_keys _ _ _ _ _ H) as (n & z & Hn & Hz).
  apply refresh_logic_Done in H as (((? & ? & ? & _) & _) & ? & Hk).
  split_and!; try done. exists n, z. split; [done|].
  destruct k as [z'|]; [|done]. destruct Hk as [? ?].
  rewrite <- (Hz z' eq_refl). by split_and!.
Qed.

Lemma refresh_logic_reads_witness :
  (∃ n z, keys demo_env_idle = replicate n (-1)%Z ++ z :: [] ∧
          match Some 112%Z with
          | Some z' => z' = z ∧ z ≠ (-1)%Z ∧
                       game_over demo_menu = game_over demo_menu
          | None => game_over demo_menu = true
          end) ∧
  player (game demo_menu) = player (game demo_menu) ∧
  locations (game demo_menu) = locations (game demo_menu) ∧
  book (game demo_menu) = book (game demo_menu) ∧
  length (customers (game demo_menu)) = length (customers (game demo_menu)).
Proof.
  apply (refresh_logic_reads demo_menu demo_env_idle demo_menu
           (Some 112%Z) (mkEnv [] [] [])).
  by vm_compute.
Defined.

(** ** The loops do not depend on their bound

    Every turn of a loop of the menu reads a key, so a loop that is given
    more turns than there are keys behaves as with any larger bound. *)

Lemma pbind_ext {A B} (m : Play A) (k1 k2 : A → Play B) env :
  (∀ a env1, m env = Done (a, env1) → k1 a env1 = k2 a env1) →
  pbind m k1 env = pbind m k2 env.
Proof.
  intros H. unfold pbind. destruct (m env) as [[a env1]| |]; [|done..].
  by apply H.
Qed.

Lemma refresh_loop_fuel f1 f2 m refreshtime env :
  length (keys env) < f1 → length (keys env) < f2 →
  refresh_loop f1 m refreshtime env = refresh_loop f2 m refreshtime env.
Proof.
  revert f2 m refreshtime env.
  induction f1 as [|f1 IH]; intros f2 m refreshtime env H1 H2; [lia|].
  destruct f2 as [|f2]; [lia|]. cbn [refresh_loop].
  apply pbind_ext. intros k env0 Hk.
  apply pbind_ext. intros now env1 Hnow.
  destruct (Qle_bool _ 0); [done|].
  apply pbind_ext. intros g env2 Hg.
  cbn zeta. case_bool_decide; [done|].
  apply pbind_ext. intros t env3 Ht.
  apply scan_customers_keys in Hg. keys_facts.
  assert (length (keys env3) < f1 ∧ length (keys env3) < f2) as [? ?].
  { assert (keys env = k :: keys env3) as Hkeys by congruence.
    rewrite Hkeys in H1, H2. simpl in *. lia. }
  destruct (negb _); [|by apply IH].
  apply pbind_ext. intros [] env4 Hr1.
  apply pbind_ext. intros [] env5 Hr2.
  apply pbind_ext. intros rt env6 Hrt.
  keys_facts. apply IH; congruence.
Qed.

Lemma refresh_logic_fuel fuel m env :
  length (keys env) < fuel →
  refresh_logic m env
  = (let* refreshtime := time_time in refresh_loop fuel m refreshtime) env.
Proof.
  intros Hfuel. unfold refresh_logic.
  apply pbind_ext. intros rt env1 Hrt. keys_facts.
  apply refresh_loop_fuel; rewrite Hrt; lia.
Qed.

(** The start of a turn of a prompt, for two bounds: what was rendered
    and read is the same, and fewer keys are left. *)
Ltac same_turn :=
  repeat (apply pbind_ext; intros ? ? ?);
  repeat match goal with
    | |- (match ?x with (_, _) => _ end) _ = _ => destruct x
    | |- pbind _ _ _ = pbind _ _ _ => apply pbind_ext; intros ? ? ?
    end;
  keys_facts;
  repeat match goal with
    | H : render_pickup _ _ = Done _ |- _ =>
        unfold render_pickup in H; destruct (items _) in H; inv_play
    | H : for_each _ _ _ = Done (?a, _) |- _ =>
        destruct a; apply for_each_keys in H;
        [|intros ? ? ?; apply customer_str_keys]
    | H : render_delivery_choice _ _ = Done _ |- _ =>
        unfold render_delivery_choice in H
    | H : refresh_logic _ _ = Done _ |- _ => apply refresh_logic_shorter in H
    | H : is_int _ _ = Done _ |- _ => apply is_int_Done in H as (? & -> & -> & ->)
    | H : from_outcome _ _ = Done _ |- _ => apply from_outcome_Done in H as [_ ->]
    end;
  repeat match goal with
    | H : keys _ = keys _ |- _ => apply (f_equal length) in H
    end.

Lemma pickup_loop_fuel f1 f2 m env :
  length (keys env) < f1 → length (keys env) < f2 →
  pickup_loop f1 m env = pickup_loop f2 m env.
Proof.
  revert f2 m env. induction f1 as [|f1 IH]; intros f2 m env H1 H2; [lia|].
  destruct f2 as [|f2]; [lia|].
  assert (∀ m' e, length (keys e) < length (keys env) →
                  pickup_loop f1 m' e = pickup_loop f2 m' e) as Hnext
    by (intros m' e He; apply IH; lia).
  cbn [pickup_loop]. same_turn.
  case_bool_decide; [|apply Hnext; lia]. destruct (items _); [|done].
  repeat case_bool_decide; try done. apply Hnext; lia.
Qed.

Lemma trash_loop_fuel f1 f2 m env :
  length (keys env) < f1 → length (keys env) < f2 →
  trash_loop f1 m env = trash_loop f2 m env.
Proof.
  revert f2 m env. induction f1 as [|f1 IH]; intros f2 m env H1 H2; [lia|].
  destruct f2 as [|f2]; [lia|].
  assert (∀ m' e, length (keys e) < length (keys env) →
                  trash_loop f1 m' e = trash_loop f2 m' e) as Hnext
    by (intros m' e He; apply IH; lia).
  cbn [trash_loop]. same_turn.
  cbn zeta. repeat case_bool_decide; try done; apply Hnext; lia.
Qed.

Lemma readbook_loop_fuel f1 f2 m chapter env :
  length (keys env) < f1 → length (keys env) < f2 →
  readbook_loop f1 m chapter env = readbook_loop f2 m chapter env.
Proof.
  revert f2 m chapter env.
  induction f1 as [|f1 IH]; intros f2 m chapter env H1 H2; [lia|].
  destruct f2 as [|f2]; [lia|].
  assert (∀ m' ch e, length (keys e) < length (keys env) →
                     readbook_loop f1 m' ch e = readbook_loop f2 m' ch e)
    as Hnext by (intros m' ch e He; apply IH; lia).
  cbn [readbook_loop]. same_turn.
  repeat case_bool_decide; try done; apply Hnext; lia.
Qed.

Lemma mix_prompt_fuel f1 f2 m ings env :
  length (keys env) < f1 → length (keys env) < f2 →
  mix_prompt f1 m ings env = mix_prompt f2 m ings env.
Proof.
  revert f2 m ings env.
  induction f1 as [|f1 IH]; intros f2 m ings env H1 H2; [lia|].
  destruct f2 as [|f2]; [lia|].
  assert (∀ m' i e, length (keys e) < length (keys env) →
                    mix_prompt f1 m' i e = mix_prompt f2 m' i e)
    as Hnext by (intros m' i e He; apply IH; lia).
  cbn [mix_prompt]. same_turn.
  cbn zeta. case_bool_decide; [|apply Hnext; lia].
  case_bool_decide; [|case_bool_decide; [done|apply Hnext; lia]].
  destruct (_ !! _); [|done].
  apply pbind_ext. intros g env3 Hg. apply from_result_Done in Hg as [_ ->].
  repeat case_bool_decide; try done. apply Hnext; lia.
Qed.

Lemma deliver_loop_fuel f1 f2 m delivery env :
  length (keys env) < f1 → length (keys env) < f2 →
  deliver_loop f1 m delivery env = deliver_loop f2 m delivery env.
Proof.
  revert f2 m delivery env.
  induction f1 as [|f1 IH]; intros f2 m delivery env H1 H2; [lia|].
  destruct f2 as [|f2]; [lia|].
  assert (∀ m' d e, length (keys e) < length (keys env) →
                    deliver_loop f1 m' d e = deliver_loop f2 m' d e)
    as Hnext by (intros m' d e He; apply IH; lia).
  cbn [deliver_loop].
  destruct delivery as [item|]; same_turn.
  - cbn zeta. repeat case_bool_decide; try done; apply Hnext; lia.
  - cbn zeta. case_bool_decide; [|apply Hnext; lia].
    case_bool_decide; [|case_bool_decide; [done|apply Hnext; lia]].
    destruct (_ !! _); [|done]. apply Hnext; lia.
Qed.

(** What a turn that has returned has read. *)
Ltac turn_keys :=
  inv_play; keys_facts;
  repeat match goal with
    | H : render_pickup _ _ = Done _ |- _ =>
        unfold render_pickup in H; destruct (items _) in H; inv_play
    | H : render_delivery_choice _ _ = Done _ |- _ =>
        unfold render_delivery_choice in H
    | H : for_each _ _ _ = Done (?a, _) |- _ =>
        destruct a; apply for_each_keys in H;
        [|intros ? ? ?; apply customer_str_keys]
    | H : refresh_logic _ _ = Done _ |- _ => apply refresh_logic_shorter in H
    | H : is_int _ _ = Done _ |- _ => apply is_int_Done in H as (? & -> & -> & ->)
    end;
  repeat match goal with
    | H : keys _ = keys _ |- _ => apply (f_equal length) in H
    end.

Lemma pickup_loop_shorter fuel m env m' env' :
  pickup_loop fuel m env = Done (m', env') →
  length (keys env') < length (keys env).
Proof.
  revert m env. induction fuel as [|fuel IH]; intros m env H; [done|].
  cbn [pickup_loop] in H. turn_keys.
  assert (∀ m1 e, length (keys e) < length (keys env) →
                  pickup_loop fuel m1 e = Done (m', env') →
                  length (keys env') < length (keys env)) as Hnext
    by (intros m1 e He Hloop; apply IH in Hloop; lia).
  case_bool_decide; [|eapply Hnext; [|done]; lia].
  destruct (items _); [|done].
  case_bool_decide.
  - destruct (_ !! _); inv_play. lia.
  - case_bool_decide; [inv_play; lia|eapply Hnext; [|done]; lia].
Qed.

Lemma trash_loop_shorter fuel m env m' env' :
  trash_loop fuel m env = Done (m', env') →
  length (keys env') < length (keys env).
Proof.
  revert m env. induction fuel as [|fuel IH]; intros m env H; [done|].
  cbn [trash_loop] in H. turn_keys.
  assert (∀ m1 e, length (keys e) < length (keys env) →
                  trash_loop fuel m1 e = Done (m', env') →
                  length (keys env') < length (keys env)) as Hnext
    by (intros m1 e He Hloop; apply IH in Hloop; lia).
  case_bool_decide; [|eapply Hnext; [|done]; lia].
  cbn zeta in *. case_bool_decide.
  - destruct (_ !! _); inv_play. lia.
  - case_bool_decide; [inv_play; lia|eapply Hnext; [|done]; lia].
Qed.

Lemma readbook_loop_shorter fuel m chapter env m' env' :
  readbook_loop fuel m chapter env = Done (m', env') →
  length (keys env') < length (keys env).
Proof.
  revert m chapter env.
  induction fuel as [|fuel IH]; intros m chapter env H; [done|].
  cbn [readbook_loop] in H. turn_keys.
  assert (∀ m1 ch e, length (keys e) < length (keys env) →
                     readbook_loop fuel m1 ch e = Done (m', env') →
                     length (keys env') < length (keys env)) as Hnext
    by (intros m1 ch e He Hloop; apply IH in Hloop; lia).
  repeat case_bool_decide; try (eapply Hnext; [|done]; lia).
  inv_play. lia.
Qed.

Lemma mix_prompt_shorter fuel m ings env m' ings' env' :
  mix_prompt fuel m ings env = Done ((m', ings'), env') →
  length (keys env') < length (keys env).
Proof.
  revert m ings env. induction fuel as [|fuel IH]; intros m ings env H; [done|].
  cbn [mix_prompt] in H. turn_keys.
  assert (∀ m1 i e, length (keys e) < length (keys env) →
                    mix_prompt fuel m1 i e = Done ((m', ings'), env') →
                    length (keys env') < length (keys env)) as Hnext
    by (intros m1 i e He Hloop; apply IH in Hloop; lia).
  case_bool_decide; [|eapply Hnext; [|done]; lia].
  cbn zeta in *. case_bool_decide.
  - destruct (_ !! _); inv_play.
    repeat case_bool_decide; inv_play; try lia. eapply Hnext; [|done]. lia.
  - case_bool_decide; [inv_play; lia|eapply Hnext; [|done]; lia].
Qed.

Lemma menu_deliver_order_keys g item customer env g' env' :
  menu_deliver_order g item customer env = Done (g', env') →
  keys env' = keys env.
Proof.
  unfold menu_deliver_order. intros H. inv_play.
  by eapply menu_update_customer_keys.
Qed.

Lemma deliver_loop_shorter fuel m delivery env m' env' :
  deliver_loop fuel m delivery env = Done (m', env') →
  length (keys env') < length (keys env).
Proof.
  revert m delivery env.
  induction fuel as [|fuel IH]; intros m delivery env H; [done|].
  cbn [deliver_loop] in H.
  assert (∀ m1 d e, length (keys e) < length (keys env) →
                    deliver_loop fuel m1 d e = Done (m', env') →
                    length (keys env') < length (keys env)) as Hnext
    by (intros m1 d e He Hloop; apply IH in Hloop; lia).
  destruct delivery as [item|]; turn_keys.
  - case_bool_decide; [|eapply Hnext; [|done]; lia].
    cbn zeta in *. case_bool_decide.
    + destruct (_ !! _); inv_play.
      match goal with
      | H : menu_deliver_order _ _ _ _ = Done _ |- _ =>
          apply menu_deliver_order_keys in H; apply (f_equal length) in H
      end.
      lia.
    + case_bool_decide; [inv_play; lia|eapply Hnext; [|done]; lia].
  - case_bool_decide; [|eapply Hnext; [|done]; lia].
    cbn zeta in *. case_bool_decide.
    + destruct (_ !! _); inv_play. eapply Hnext; [|done]. lia.
    + case_bool_decide; [inv_play; lia|eapply Hnext; [|done]; lia].
Qed.

Lemma update_keys m k env m' env' :
  update m k env = Done (m', env') →
  length (keys env') ≤ length (keys env).
Proof.
  unfold update. intros H. destruct k as [z|]; [|by inv_play].
  repeat case_bool_decide.
  - unfold do_pickup, raise_warning in H. destruct (items _).
    + case_bool_decide; [turn_keys; lia|].
      apply pickup_loop_shorter in H. lia.
    + turn_keys. lia.
  - unfold do_trash, raise_warning in H.
    case_bool_decide; [turn_keys; lia|].
    apply trash_loop_shorter in H. lia.
  - unfold do_returnhome, raise_warning in H.
    destruct (String.eqb _ _); turn_keys; lia.
  - unfold do_readbook in H. apply readbook_loop_shorter in H. lia.
  - unfold do_mix, raise_warning in H.
    case_bool_decide; [turn_keys; lia|].
    destruct (negb _); [turn_keys; lia|].
    apply pbind_Done in H as ([m0 ings] & env0 & Hprompt & H).
    apply (mix_prompt_shorter (S (length (keys env))) m [] env) in Hprompt.
    destruct (mix _ _); turn_keys; lia.
  - unfold do_deliver, raise_warning in H.
    case_bool_decide; [turn_keys; lia|].
    destruct (negb _); [turn_keys; lia|].
    apply deliver_loop_shorter in H. lia.
  - done.
  - unfold do_resize in H. by inv_play.
  - unfold do_move in H. by inv_play.
  - unfold do_move in H. by inv_play.
  - unfold do_move in H. by inv_play.
  - unfold do_move in H. by inv_play.
  - by inv_play.
Qed.

Lemma play_loop_fuel f1 f2 m env :
  length (keys env) < f1 → length (keys env) < f2 →
  play_loop f1 m env = play_loop f2 m env.
Proof.
  revert f2 m env. induction f1 as [|f1 IH]; intros f2 m env H1 H2; [lia|].
  destruct f2 as [|f2]; [lia|]. cbn [play_loop].
  destruct (game_over m); [done|].
  apply pbind_ext. intros [m1 k] env1 Hr. apply refresh_logic_shorter in Hr.
  apply pbind_ext. intros m2 env2 Hu. apply update_keys in Hu.
  apply pbind_ext. intros [] env3 Hrender. apply render_keys in Hrender.
  apply IH; rewrite Hrender; lia.
Qed.

(** ** A fresh menu *)

Lemma price_order_paying o prev rnd p w rnd' :
  price_order ITEMS_BY_INGREDIENTS o prev rnd = Ok ((p, w), rnd') →
  (∀ pw, prev = Some pw → (5 ≤ fst pw ≤ 75)%Z) →
  (5 ≤ p ≤ 75)%Z.
Proof.
  unfold price_order.
  change (tier_names _ "BASIC") with (Some ["Goodberry"; "Antidote"; "Evil Eye"]).
  change (tier_names _ "INTERMEDIATE")
    with (Some ["Health Potion"; "Awakening"; "Amulet"]).
  change (tier_names _ "ADVANCED") with (Some ["Banishing Sigil"; "Substitute Doll"]).
  cbv iota beta. intros Hrun Hprev.
  repeat case_bool_decide.
  4:{ destruct prev as [pw|]; [|done]. inv_rand.
      by apply (Hprev (p, w)). }
  all: inv_rand.
  all: match goal with
       | H : randint _ _ _ = Ok _ |- _ => apply randint_Ok in H as [Hp _]; [|lia]
       end.
  all: lia.
Qed.

Lemma menu_create_customers_Done b ixs prev cs env cs' env' :
  menu_create_customers b ixs prev cs env = Done (cs', env') →
  (∀ pw, prev = Some pw → (5 ≤ fst pw ≤ 75)%Z) →
  ∃ new, cs' = cs ++ new ∧ length new = length ixs ∧ paying new ∧
         ticks env = map maketime new ++ ticks env' ∧ keys env' = keys env.
Proof.
  revert prev cs env.
  induction ixs as [|i ixs IH]; intros prev cs env H Hprev; simpl in H.
  - inv_play. exists []. rewrite app_nil_r.
    split_and!; first [done | by constructor].
  - inv_play. destruct a0 as [p w].
    match goal with
    | H : menu_create_customers _ _ _ _ _ = Done _ |- _ =>
        apply IH in H as (new & -> & Hlen & Hpay & Hticks & Hkeys)
    end.
    + match goal with
      | H : random (price_order _ _ _) _ = Done _ |- _ =>
          apply random_Done in H as (Hprice & Hk2 & Ht2)
      end.
      apply price_order_paying in Hprice; [|done].
      match goal with
      | H : random (choice _) _ = Done _ |- _ =>
          apply random_Done in H as (_ & Hk1 & Ht1)
      end.
      match goal with
      | H : time_time _ = Done _ |- _ =>
          apply time_time_Done in H as (Ht3 & Hk3 & _)
      end.
      exists (mkCustomer i a p w a1 :: new). split_and!.
      * by rewrite <- app_assoc.
      * simpl. by rewrite Hlen.
      * by constructor.
      * simpl. rewrite <- Hticks. congruence.
      * congruence.
    + intros pw [= <-]. simpl.
      match goal with
      | H : random (price_order _ _ _) _ = Done _ |- _ =>
          apply random_Done in H as (Hprice & _ & _)
      end.
      by apply price_order_paying in Hprice.
Qed.

Lemma menu_init_Done env m env' :
  menu_init env = Done (m, env') →
  game_over m = false ∧ totaltime m = 600%Z ∧
  loc_name (location (player (game m))) = "Cauldron" ∧
  inventory (player (game m)) = [] ∧ score (player (game m)) = 0%Z ∧
  two_ingredients (book (game m)) ∧
  length (customers (game m)) = 4 ∧ paying (customers (game m)) ∧
  keys env' = keys env ∧
  ticks env = map maketime (customers (game m)) ++ starttime m :: ticks env'.
Proof.
  unfold menu_init, menu_setup. intros H. inv_play.
  match goal with
  | H : menu_create_customers _ _ _ _ _ = Done _ |- _ =>
      apply menu_create_customers_Done in H
        as (new & -> & Hlen & Hpay & Hticks & Hkeys); [|done]
  end.
  match goal with
  | H : create_player _ = Ok _ |- _ => rename H into Hp
  end.
  unfold create_player in Hp.
  match type of Hp with
  | result_bind ?r _ = _ => destruct r as [l| |] eqn:Hl; try done
  end.
  simpl in Hp. injection Hp as <-.
  apply get_location_name in Hl as [_ Hname].
  repeat match goal with
    | H : random _ _ = Done _ |- _ => apply random_Done in H as (H & ? & ?)
    end.
  match goal with
  | H : time_time _ = Done _ |- _ => apply time_time_Done in H as (Ht & ? & _)
  end.
  simpl. split_and!; try done.
  - by eapply create_book_two.
  - congruence.
  - rewrite <- Ht. congruence.
Qed.


(** X28: a fresh menu is ready for play.  The game is not over and
    lasts 600 seconds; the player stands at the Cauldron with an empty
    inventory and score 0; every recipe of the book has two ingredients;
    there are four customers, each paying between 5 and 75 points.  No
    key has been read, and the first four readings of the clock are the
    times the customers were made at, the fifth is the start of the
    game. *)
Theorem menu_init_ready env m env' :
  menu_init env = Done (m, env') →
  game_over m = false ∧ totaltime m = 600%Z ∧
  loc_name (location (player (game m))) = "Cauldron" ∧
  inventory (player (game m)) = [] ∧ score (player (game m)) = 0%Z ∧
  two_ingredients (book (game m)) ∧
  length (customers (game m)) = 4 ∧ paying (customers (game m)) ∧
  keys env' = keys env ∧
  ticks env = map maketime (customers (game m)) ++ starttime m :: ticks env'.
Proof. apply menu_init_Done. Qed.

Lemma menu_init_ready_witness :
  game_over (fst demo_fresh) = false ∧ totaltime (fst demo_fresh) = 600%Z ∧
  loc_name (location (player (game (fst demo_fresh)))) = "Cauldron" ∧
  inventory (player (game (fst demo_fresh))) = [] ∧
  score (player (game (fst demo_fresh))) = 0%Z ∧
  two_ingredients (book (game (fst demo_fresh))) ∧
  length (customers (game (fst demo_fresh))) = 4 ∧
  paying (customers (game (fst demo_fresh))) ∧
  keys (snd demo_fresh) = keys demo_session ∧
  ticks demo_session
  = map maketime (customers (game (fst demo_fresh)))
      ++ starttime (fst demo_fresh) :: ticks (snd demo_fresh).
Proof.
  apply (menu_init_ready demo_session (fst demo_fresh) (snd demo_fresh)).
  by vm_compute.
Defined.

(** ** The turns of a session *)

Lemma play_turn_Done m env m' env' :
  play_turn m env = Done (m', env') →
  world_kept m m' ∧
  (two_ingredients (book (game m)) →
   length (inventory (player (game m))) ≤ 9 →
   length (inventory (player (game m'))) ≤ 9) ∧
  (paying (customers (game m)) →
   (score (player (game m)) ≤ score (player (game m')))%Z) ∧
  length (keys env') < length (keys env).
Proof.
  unfold play_turn. intros H.
  apply pbind_Done in H as ([m1 k] & env1 & Hrefresh & H).
  apply pbind_Done in H as (m2 & env2 & Hupdate & H).
  apply pbind_Done in H as ([] & env3 & Hrender & H).
  apply pret_Done in H as [-> ->].
  pose proof (refresh_logic_shorter _ _ _ _ _ Hrefresh) as Hk1.
  pose proof (update_keys _ _ _ _ _ Hupdate) as Hk2.
  apply render_keys in Hrender.
  apply refresh_logic_Done in Hrefresh as (Hw1 & Hp1 & _).
  apply update_Done in Hupdate as (Hw2 & _ & Hinv & Hscore).
  split_and!.
  - by eapply world_kept_trans.
  - intros Htwo Hlen. rewrite <- Hp1 in Hlen. apply Hinv; [|done].
    destruct Hw1 as ((_ & Hb & _) & _). by rewrite Hb.
  - intros Hpay. rewrite <- Hp1. apply Hscore.
    destruct Hw1 as ((_ & _ & _ & Hpay1) & _). by apply Hpay1.
  - rewrite Hrender. lia.
Qed.

Lemma play_turns_Done n m env m' env' :
  play_turns n m env = Done (m', env') →
  world_kept m m' ∧
  (two_ingredients (book (game m)) →
   length (inventory (player (game m))) ≤ 9 →
   length (inventory (player (game m'))) ≤ 9) ∧
  (paying (customers (game m)) →
   (score (player (game m)) ≤ score (player (game m')))%Z).
Proof.
  revert m env. induction n as [|n IH]; intros m env H; simpl in H.
  { inv_play. split_and!; [apply world_kept_refl|done|lia]. }
  destruct (game_over m).
  { inv_play. split_and!; [apply world_kept_refl|done|lia]. }
  apply pbind_Done in H as (m2 & env2 & Hturn & H).
  apply play_turn_Done in Hturn as (Hw & Hinv & Hscore & _).
  apply IH in H as (Hw' & Hinv' & Hscore').
  split_and!.
  - by eapply world_kept_trans.
  - intros Htwo Hlen. apply Hinv'; [|by apply Hinv].
    destruct Hw as ((_ & Hb & _) & _). by rewrite Hb.
  - intros Hpay. etrans; [by apply Hscore|]. apply Hscore'.
    destruct Hw as ((_ & _ & _ & Hpay1) & _). by apply Hpay1.
Qed.

Lemma play_along n m env m' env' :
  play_turns n m env = Done (m', env') → play m env = play m' env'.
Proof.
  revert m env. induction n as [|n IH]; intros m env H; simpl in H.
  { by inv_play. }
  destruct (game_over m) eqn:Hover.
  { by inv_play. }
  apply pbind_Done in H as (m2 & env3 & Hturn & H).
  apply IH in H. rewrite <- H. clear H IH.
  pose proof (play_turn_Done _ _ _ _ Hturn) as (_ & _ & _ & Hkeys).
  unfold play_turn in Hturn.
  apply pbind_Done in Hturn as ([m1 k] & env1 & Hrefresh & Hturn).
  apply pbind_Done in Hturn as (m2' & env2 & Hupdate & Hturn).
  apply pbind_Done in Hturn as ([] & env3' & Hrender & Hturn).
  apply pret_Done in Hturn as [-> ->].
  unfold play at 1. cbn [play_loop]. rewrite Hover.
  unfold pbind. rewrite Hrefresh, Hupdate, Hrender.
  unfold play. apply play_loop_fuel; lia.
Qed.

(** X29: along a session the state stays within bounds.  After any
    number of turns of the loop of [play] on a fresh menu, the inventory
    holds at most 9 items, the score is not negative, the locations and
    the book are those of the start, and there are four customers, each
    paying between 5 and 75 points; and [play] goes on from there as it
    would from that menu. *)
Theorem session_invariant n env0 m0 env1 env m env' :
  menu_init env0 = Done (m0, env1) →
  play_turns n m0 env = Done (m, env') →
  length (inventory (player (game m))) ≤ 9 ∧
  (0 ≤ score (player (game m)))%Z ∧
  locations (game m) = locations (game m0) ∧
  book (game m) = book (game m0) ∧
  length (customers (game m)) = 4 ∧ paying (customers (game m)) ∧
  play m0 env = play m env'.
Proof.
  intros Hinit Hturns.
  apply menu_init_Done in Hinit
    as (_ & _ & _ & Hinv0 & Hs0 & Htwo & Hcs & Hpay & _).
  pose proof (play_along _ _ _ _ _ Hturns) as Hplay.
  apply play_turns_Done in Hturns
    as (((Hl & Hb & Hlen & Hpay') & _) & Hinv & Hscore).
  split_and!; try done.
  - apply Hinv; [done|]. rewrite Hinv0. simpl. lia.
  - rewrite <- Hs0. by apply Hscore.
  - congruence.
  - by apply Hpay'.
Qed.

Lemma session_invariant_witness :
  length (inventory (player (game (fst demo_turns)))) ≤ 9 ∧
  (0 ≤ score (player (game (fst demo_turns))))%Z ∧
  locations (game (fst demo_turns)) = locations (game (fst demo_fresh)) ∧
  book (game (fst demo_turns)) = book (game (fst demo_fresh)) ∧
  length (customers (game (fst demo_turns))) = 4 ∧
  paying (customers (game (fst demo_turns))) ∧
  play (fst demo_fresh) demo_env_turns = play (fst demo_turns) (snd demo_turns).
Proof.
  apply (session_invariant 2 demo_session (fst demo_fresh) (snd demo_fresh)
           demo_env_turns (fst demo_turns) (snd demo_turns)).
  - by vm_compute.
  - by vm_compute.
Defined.
